(** * Tristimulus values: an embedding of [colour.colorimetry.tristimulus]

    The development follows [src/colour/colorimetry/tristimulus.py]:
    the Lagrange coefficient builder and the ASTM E2022-11 weighting factor
    builder with their two process-wide caches, the spectral integrator
    [spectral_to_XYZ] and the dispatcher [wavelength_to_XYZ].

    Numbers.  IEEE doubles are idealised as exact rationals ([Q], compared
    with [==]).  The only operations of the source that can leave the finite
    numbers are its two normalising divisions; their results are [option Q],
    [None] standing for the [inf]/[nan] that numpy produces for a zero
    divisor.  Input data is assumed finite.

    Strings.  Python strings are modelled as [string]; [str.lower] is
    modelled on the ASCII letters. *)

From Stdlib Require Import QArith Qabs Qround ZArith String Ascii List Lia Bool.
From Stdlib Require Import DecimalString DecimalZ Lqa.
From stdpp Require Import base option gmap strings list.

Local Open Scope Z_scope.

(** ** Arrays *)

(** A 2-D array is the list of its rows. *)
Abbreviation matrix := (list (list Q)).

(** An array whose entries come out of a division, [None] for [inf]/[nan]. *)
Abbreviation xmatrix := (list (list (option Q))).

(** An n-D array as numpy holds it: a shape and the entries in row-major
    order.  A scalar has the empty shape. *)
Record ndarray : Type := mk_ndarray {
  nd_shape : list nat;
  nd_data : list Q
}.

Definition nd_size (sh : list nat) : nat := fold_right Nat.mul 1%nat sh.

Definition nd_wf (a : ndarray) : Prop :=
  length (nd_data a) = nd_size (nd_shape a).

Definition nd_scalar (x : Q) : ndarray := mk_ndarray [] [x].

Definition nd_vector (xs : list Q) : ndarray := mk_ndarray [length xs] xs.

(** ** Spectral data (collaborators of the module) *)

Record SpectralShape : Type := mk_shape {
  start : Q;
  end_ : Q;
  interval : Q
}.

(** An SPD: a name, its shape and the wavelength-to-value mapping in
    ascending wavelength order. *)
Record SpectralPowerDistribution : Type := mk_spd {
  spd_name : string;
  spd_shape : SpectralShape;
  spd_data : list (Q * Q)
}.

(** Colour matching functions: three co-indexed channels on one shape. *)
Record XYZ_ColourMatchingFunctions : Type := mk_cmfs {
  cmfs_name : string;
  cmfs_shape : SpectralShape;
  cmfs_data : list (Q * (Q * Q * Q))
}.

Definition spd_values (s : SpectralPowerDistribution) : list Q :=
  map snd (spd_data s).

Definition cmfs_wavelengths (c : XYZ_ColourMatchingFunctions) : list Q :=
  map fst (cmfs_data c).

Definition x_bar_values (c : XYZ_ColourMatchingFunctions) : list Q :=
  map (fun p => fst (fst (snd p))) (cmfs_data c).

Definition y_bar_values (c : XYZ_ColourMatchingFunctions) : list Q :=
  map (fun p => snd (fst (snd p))) (cmfs_data c).

Definition z_bar_values (c : XYZ_ColourMatchingFunctions) : list Q :=
  map (fun p => snd (snd p)) (cmfs_data c).

Definition xyz_row (v : Q * Q * Q) : list Q :=
  [fst (fst v); snd (fst v); snd v].

(** [cmfs.values]: the (w_c, 3) array stacking the three channels. *)
Definition cmfs_values (c : XYZ_ColourMatchingFunctions) : matrix :=
  map (fun p => xyz_row (snd p)) (cmfs_data c).

(** ** Exceptions and results *)

Inductive operand : Type :=
| OperandCMFS (c : XYZ_ColourMatchingFunctions)
| OperandSPD (s : SpectralPowerDistribution).

Inductive exception : Type :=
| IntervalMismatch (who : operand)
    (* ValueError('"{0}" shape "interval" must be 1!') *)
| DomainRangeError (wavelength : ndarray) (lo hi : Q)
    (* ValueError('"{0} nm" wavelength is not in "[{1}, {2}]" domain!') *)
| UndefinedMethod (method : string)
    (* ValueError('Undefined "{0}" interpolator!') *)
| UnsupportedSpragueSpacing
    (* RuntimeError('"Sprague" interpolator can only be used for ...') *)
| ZeroDivisionError
    (* Python division of a number by the integer 0 *)
| IndexError
    (* numpy: index out of bounds *)
| NumpyValueError (what : string)
    (* numpy: broadcasting, zero-size reduction, slice step, reshape *)
| NumpyTypeError (what : string)
| InterpolatorError (what : string).
    (* raised by an interpolator on data it does not accept *)

Inductive result (A : Type) : Type :=
| Ret (a : A)
| Raise (e : exception).

Arguments Ret {A} a.
Arguments Raise {A} e.

Definition rbind {A B} (r : result A) (k : A -> result B) : result B :=
  match r with
  | Ret a => k a
  | Raise e => Raise e
  end.

Notation "x <- r ;; k" := (rbind r (fun x => k))
  (at level 100, r at next level, right associativity).

Fixpoint mapM {A B} (f : A -> result B) (l : list A) : result (list B) :=
  match l with
  | [] => Ret []
  | a :: l' => b <- f a ;; bs <- mapM f l' ;; Ret (b :: bs)
  end.

Fixpoint foldM {A S} (f : S -> A -> result S) (l : list A) (s : S) : result S :=
  match l with
  | [] => Ret s
  | a :: l' => s' <- f s a ;; foldM f l' s'
  end.

(** ** Strings *)

Definition lower_ascii (c : ascii) : ascii :=
  let n := nat_of_ascii c in
  if ((65 <=? n) && (n <=? 90))%nat then ascii_of_nat (n + 32) else c.

Fixpoint lower (s : string) : string :=
  match s with
  | EmptyString => EmptyString
  | String c s' => String (lower_ascii c) (lower s')
  end.

(** [str(n)] for a Python integer. *)
Definition str_int (n : Z) : string := NilEmpty.string_of_int (Z.to_int n).

(** [', '.join(parts)] *)
Fixpoint join_comma (parts : list string) : string :=
  match parts with
  | [] => EmptyString
  | [p] => p
  | p :: ps => p ++ ", " ++ join_comma ps
  end%string.

(** ** numpy primitives *)

Local Open Scope Q_scope.

Definition Qsum (l : list Q) : Q := fold_right Qplus 0 l.

(** [range(a, b)] for integers. *)
Definition zrange (a b : Z) : list Z :=
  map (fun i => (a + Z.of_nat i)%Z) (seq 0 (Z.to_nat (b - a))).

(** [range(a, b, -1)] *)
Definition zrange_down (a b : Z) : list Z :=
  map (fun i => (a - Z.of_nat i)%Z) (seq 0 (Z.to_nat (a - b))).

(** numpy resolves an integer index against an axis of length [n]:
    negative indices count from the end, anything else out of
    [-n, n) raises IndexError. *)
Definition np_index (n : nat) (k : Z) : result nat :=
  if ((0 <=? k) && (k <? Z.of_nat n))%Z then Ret (Z.to_nat k)
  else if ((- Z.of_nat n <=? k) && (k <? 0))%Z
  then Ret (Z.to_nat (Z.of_nat n + k))
  else Raise IndexError.

(** [a[k]] on a 1-D array. *)
Definition get1 {A} (a : list A) (k : Z) : result A :=
  i <- np_index (length a) k ;;
  match a !! i with
  | Some x => Ret x
  | None => Raise IndexError
  end.

(** [a[k, i]] on a 2-D array. *)
Definition get2 (a : matrix) (k i : Z) : result Q :=
  row <- get1 a k ;; get1 row i.

(** [a[k, i] = x] on a 2-D array. *)
Definition set2 (a : matrix) (k i : Z) (x : Q) : result matrix :=
  r <- np_index (length a) k ;;
  match a !! r with
  | None => Raise IndexError
  | Some row =>
      c <- np_index (length row) i ;;
      Ret (<[r := <[c := x]> row]> a)
  end.

(** [a[::step]] for a positive step: the entries at 0, step, 2 step, ...
    The first argument bounds the number of entries taken; the length of the
    array is enough. *)
Fixpoint every_nth {A} (fuel : nat) (step : nat) (l : list A) : list A :=
  match fuel, l with
  | O, _ => []
  | _, [] => []
  | S fuel', x :: _ => x :: every_nth fuel' step (drop step l)
  end.

(** [a[::step]]: a zero step raises, a negative step walks the array
    backwards from its last entry. *)
Definition np_slice_step {A} (l : list A) (step : Z) : result (list A) :=
  if (step =? 0)%Z then Raise (NumpyValueError "slice step cannot be zero")
  else if (0 <? step)%Z then Ret (every_nth (length l) (Z.to_nat step) l)
  else Ret (every_nth (length l) (Z.to_nat (- step)) (rev l)).

(** [np.linspace(start, stop, num)] with the end point included. *)
Definition linspace (a b : Q) (num : Z) : result (list Q) :=
  if (num <? 0)%Z
  then Raise (NumpyValueError "Number of samples must be non-negative")
  else if (num =? 1)%Z then Ret [a]
  else
    let step := (b - a) / inject_Z (num - 1) in
    let n := Z.to_nat num in
    Ret (map (fun i => if (S i =? n)%nat then b
                       else a + inject_Z (Z.of_nat i) * step) (seq 0 n)).

(** ** Lagrange coefficients *)

(** Modelled from the spec: [colour.algebra.lagrange_coefficients] is not
    part of the sources.  Section 4.1 describes it as the Lagrange basis
    coefficients at the point [r] over integer node positions starting at 0.
    The number of nodes is the second argument [n]: the doctest of
    [lagrange_coefficients_ASTME202211] in the source prints four columns
    for [d = 4] and three for [d = 3], and the weighting factor builder reads
    columns 0..3 of the inner and 0..2 of the boundary matrix. *)
Definition lagrange_basis (r : Q) (n j : nat) : list Q :=
  map (fun i => (r - inject_Z (Z.of_nat i))
                / (inject_Z (Z.of_nat j) - inject_Z (Z.of_nat i)))
      (filter (fun i => i <> j) (seq 0 n)).

Definition lagrange_coefficients (r : Q) (n : nat) : list Q :=
  map (fun j => fold_right Qmult 1 (lagrange_basis r n j)) (seq 0 n).

(** ** The two caches *)

(** Both module globals start as [None] and become a
    [CaseInsensitiveMapping] on first use.  Modelled from the spec: the
    case-insensitive dictionary is a collaborator; it is a finite map whose
    keys are compared after lower-casing. *)
Record caches : Type := mk_caches {
  TRISTIMULUS_WEIGHTING_FACTORS_CACHE : option (gmap string xmatrix);
  LAGRANGE_INTERPOLATING_COEFFICIENTS_CACHE : option (gmap string matrix)
}.

Definition initial_caches : caches := mk_caches None None.

Definition ci_lookup {V} (m : gmap string V) (key : string) : option V :=
  m !! lower key.

Definition ci_insert {V} (key : string) (v : V) (m : gmap string V)
    : gmap string V :=
  <[lower key := v]> m.

Definition set_lagrange (c : gmap string matrix) (st : caches) : caches :=
  mk_caches (TRISTIMULUS_WEIGHTING_FACTORS_CACHE st) (Some c).

Definition set_twf (c : gmap string xmatrix) (st : caches) : caches :=
  mk_caches (Some c) (LAGRANGE_INTERPOLATING_COEFFICIENTS_CACHE st).

Definition name_lica (interval : Z) (interval_type : string) : string :=
  join_comma [str_int interval; interval_type].

(** The computation on a cache miss (lines 118-125). *)
Definition lagrange_compute (interval : Z) (interval_type : string)
    : result matrix :=
  if (interval =? 0)%Z then Raise ZeroDivisionError
  else
    let i := inject_Z interval in
    r_n <- linspace (1 / i) (1 - 1 / i) (interval - 1) ;;
    let '(r_n, d) :=
      if String.eqb (lower interval_type) "inner"
      then (map (fun r => r + 1) r_n, 4%nat)
      else (r_n, 3%nat) in
    Ret (map (fun r => lagrange_coefficients r d) r_n).

Definition lagrange_coefficients_ASTME202211
    (interval : Z) (interval_type : string) (st : caches)
    : result matrix * caches :=
  let cache := default ∅ (LAGRANGE_INTERPOLATING_COEFFICIENTS_CACHE st) in
  let st := set_lagrange cache st in
  let key := name_lica interval interval_type in
  match ci_lookup cache key with
  | Some lica => (Ret lica, st)
  | None =>
      match lagrange_compute interval interval_type with
      | Raise e => (Raise e, st)
      | Ret lica => (Ret lica, set_lagrange (ci_insert key lica cache) st)
      end
  end.

(** ** The cache monad *)

(** A computation over the two caches.  A raised exception leaves the caches
    as they were when it was raised. *)
Definition M (A : Type) : Type := caches -> result A * caches.

Definition mret {A} (a : A) : M A := fun st => (Ret a, st).

Definition mbind {A B} (m : M A) (k : A -> M B) : M B :=
  fun st =>
    match m st with
    | (Ret a, st') => k a st'
    | (Raise e, st') => (Raise e, st')
    end.

Definition lift {A} (r : result A) : M A := fun st => (r, st).

Notation "x <~ m ;;; k" := (mbind m (fun x => k))
  (at level 100, m at next level, right associativity).

(** ** Tristimulus weighting factors *)

(** A Python number used as an index or a slice step has to be an integer. *)
Definition as_integer (q : Q) : result Z :=
  if Qeq_bool q (inject_Z (Qfloor q)) then Ret (Qfloor q)
  else Raise (NumpyTypeError "slice indices must be integers").

(** [s[:, np.newaxis] * y]: an (a, 1) array times a (b, 3) array, with
    numpy's broadcasting of an axis of length one. *)
Definition np_multiply_rows (s : list Q) (y : matrix) : result matrix :=
  if (length s =? length y)%nat
  then Ret (zip_with (fun a row => map (Qmult a) row) s y)
  else
    match s, y with
    | [a], _ => Ret (map (map (Qmult a)) y)
    | _, [row] => Ret (map (fun a => map (Qmult a) row) s)
    | _, _ => Raise (NumpyValueError "operands could not be broadcast together")
    end.

(** [c[cj, ck] * S[w] * Y[w, i]] *)
Definition weighted_product (c : matrix) (cj ck : Z) (S : list Q) (Y : matrix)
    (w i : Z) : result Q :=
  a <- get2 c cj ck ;;
  s <- get1 S w ;;
  y <- get2 Y w i ;;
  Ret (a * s * y).

(** [W[k, i] = W[k, i] + x] *)
Definition add_at (W : matrix) (k i : Z) (x : result Q) : result matrix :=
  w <- get2 W k i ;;
  v <- x ;;
  set2 W k i (w + v).

(** Lines 254-288: the interval corrections accumulated into [W]. *)
Definition weighting_loops (c_c c_b : matrix) (S : list Q) (Y : matrix)
    (interval : Z) (W : matrix) : result matrix :=
  let w_c := Z.of_nat (length Y) in
  let r_c := Z.of_nat (length c_b) in
  let w_lif := (w_c - (w_c - 1) mod interval - 1 - r_c)%Z in
  let i_c := Z.of_nat (length W) in
  let i_cm := (i_c - 1)%Z in
  foldM (fun W i =>
    (* First interval. *)
    W <- foldM (fun W j =>
           foldM (fun W k =>
             add_at W k i (weighted_product c_c j k S Y (j + 1) i))
           (zrange 0 3) W)
         (zrange 0 r_c) W ;;
    (* Last interval. *)
    W <- foldM (fun W j =>
           foldM (fun W k =>
             add_at W k i
               (weighted_product c_c (r_c - j - 1) (i_cm - k) S Y (j + w_lif) i))
           (zrange_down i_cm (i_cm - 3)) W)
         (zrange 0 r_c) W ;;
    (* Intermediate intervals. *)
    W <- foldM (fun W j =>
           foldM (fun W k =>
             let w_i := ((r_c + 1) * (j + 1) + 1 + k)%Z in
             W <- add_at W j i (weighted_product c_b k 0 S Y w_i i) ;;
             W <- add_at W (j + 1) i (weighted_product c_b k 1 S Y w_i i) ;;
             W <- add_at W (j + 2) i (weighted_product c_b k 2 S Y w_i i) ;;
             add_at W (j + 3) i (weighted_product c_b k 3 S Y w_i i))
           (zrange 0 r_c) W)
         (zrange 0 (i_c - 3)) W ;;
    (* Extrapolation of incomplete interval. *)
    foldM (fun W j =>
      add_at W i_cm i (s <- get1 S j ;; y <- get2 Y j i ;; Ret (s * y)))
    (zrange (w_c - (w_c - 1) mod interval) w_c) W)
  (zrange 0 3) W.

(** [np.sum(W, axis=0)[c]] for a table with at least [c + 1] columns. *)
Definition column_sum (W : matrix) (c : Z) : result Q :=
  col <- mapM (fun row => get1 row c) W ;;
  Ret (Qsum col).

(** [100 / s] for a numpy float [s]: a zero divisor gives [inf]. *)
Definition np_divide (a s : Q) : option Q :=
  if Qeq_bool s 0 then None else Some (a / s).

(** [W *= f] *)
Definition scale (f : option Q) (W : matrix) : xmatrix :=
  map (map (fun w => option_map (fun f => w * f) f)) W.

(** Line 290: [W *= 100 / np.sum(W, axis=0)[1]] *)
Definition normalise (W : matrix) : result xmatrix :=
  s <- column_sum W 1 ;;
  Ret (scale (np_divide 100 s) W).

(** Sum of an array that may hold [inf]/[nan]: finite only when all
    entries are. *)
Definition xsum (l : list (option Q)) : option Q :=
  fold_right (fun x acc =>
    match x, acc with
    | Some a, Some b => Some (a + b)
    | _, _ => None
    end) (Some 0) l.

(** Column [c] of a table. *)
Definition xcolumn (T : xmatrix) (c : nat) : list (option Q) :=
  map (fun row => default None (row !! c)) T.

Section Builders.

(** [str(shape)] is provided by the spectral shape class. *)
Variable str_shape : SpectralShape -> string.

Definition name_twf (cmfs : XYZ_ColourMatchingFunctions)
    (illuminant : SpectralPowerDistribution) (shape : SpectralShape) : string :=
  join_comma [cmfs_name cmfs; spd_name illuminant; str_shape shape].

(** Lines 244-288: the table before its normalisation. *)
Definition twf_table (cmfs : XYZ_ColourMatchingFunctions)
    (illuminant : SpectralPowerDistribution) (shape : SpectralShape)
    : M matrix :=
  let Y := cmfs_values cmfs in
  let S := spd_values illuminant in
  step <~ lift (as_integer (interval shape)) ;;;
  W <~ lift (s <- np_slice_step S step ;;
             y <- np_slice_step Y step ;;
             np_multiply_rows s y) ;;;
  c_c <~ lagrange_coefficients_ASTME202211 step "boundary" ;;;
  c_b <~ lagrange_coefficients_ASTME202211 step "inner" ;;;
  lift (weighting_loops c_c c_b S Y step W).

(** Lines 244-290: the table built on a cache miss. *)
Definition twf_build (cmfs : XYZ_ColourMatchingFunctions)
    (illuminant : SpectralPowerDistribution) (shape : SpectralShape)
    : M xmatrix :=
  W <~ twf_table cmfs illuminant shape ;;;
  lift (normalise W).

Definition tristimulus_weighting_factors_ASTME202211
    (cmfs : XYZ_ColourMatchingFunctions)
    (illuminant : SpectralPowerDistribution) (shape : SpectralShape)
    : M xmatrix :=
  fun st =>
    if negb (Qeq_bool (interval (cmfs_shape cmfs)) 1)
    then (Raise (IntervalMismatch (OperandCMFS cmfs)), st)
    else if negb (Qeq_bool (interval (spd_shape illuminant)) 1)
    then (Raise (IntervalMismatch (OperandSPD illuminant)), st)
    else
      let cache := default ∅ (TRISTIMULUS_WEIGHTING_FACTORS_CACHE st) in
      let st := set_twf cache st in
      let key := name_twf cmfs illuminant shape in
      match ci_lookup cache key with
      | Some W => (Ret W, st)
      | None =>
          match twf_build cmfs illuminant shape st with
          | (Raise e, st') => (Raise e, st')
          | (Ret W, st') => (Ret W, set_twf (ci_insert key W cache) st')
          end
      end.

(** *** Histories of calls *)

(** The two builders are the only code that touches the caches. *)
Inductive call : Type :=
| CallLagrange (interval : Z) (interval_type : string)
| CallWeightingFactors (cmfs : XYZ_ColourMatchingFunctions)
    (illuminant : SpectralPowerDistribution) (shape : SpectralShape).

Definition run_call (c : call) (st : caches) : caches :=
  match c with
  | CallLagrange n t => snd (lagrange_coefficients_ASTME202211 n t st)
  | CallWeightingFactors c i s =>
      snd (tristimulus_weighting_factors_ASTME202211 c i s st)
  end.


(** The caches a process can be in: it starts with both globals unset and
    only the two builders write to them.  The builders hand out the cached
    arrays themselves; callers are taken not to write into them. *)
Inductive reachable : caches -> Prop :=
| reachable_initial : reachable initial_caches
| reachable_call st c : reachable st -> reachable (run_call c st).

(** Zero or more calls of the Lagrange builder. *)
Inductive lagrange_steps : caches -> caches -> Prop :=
| lagrange_steps_refl st : lagrange_steps st st
| lagrange_steps_call st n t st' :
    lagrange_steps (snd (lagrange_coefficients_ASTME202211 n t st)) st' ->
    lagrange_steps st st'.

End Builders.

(** ** Collaborators of the integrator and of the dispatcher *)

Definition Qlt_bool (a b : Q) : bool := negb (Qle_bool b a).

(** [shape_a != shape_b]: the shapes are compared as numbers. *)
Definition shape_eqb (a b : SpectralShape) : bool :=
  Qeq_bool (start a) (start b) && Qeq_bool (end_ a) (end_ b)
  && Qeq_bool (interval a) (interval b).

(** Modelled from the spec: the wavelength grid of a shape (section 3),
    [start, start + interval, ..., end]. *)
Definition shape_range (sh : SpectralShape) : list Q :=
  if Qlt_bool 0 (interval sh) && Qle_bool (start sh) (end_ sh)
  then map (fun i => start sh + inject_Z (Z.of_nat i) * interval sh)
           (seq 0 (S (Z.to_nat (Qfloor ((end_ sh - start sh) / interval sh)))))
  else [].

(** Value stored for a wavelength, compared as a number. *)
Fixpoint lookup_wavelength {V} (data : list (Q * V)) (w : Q) : option V :=
  match data with
  | [] => None
  | (w', v) :: data' =>
      if Qeq_bool w' w then Some v else lookup_wavelength data' w
  end.

(** Modelled from the spec: [spd.clone().zeros(shape)] (section 3), a new SPD
    with values on the requested shape, zero-filled where the original has no
    value. *)
Definition zeros (shape : SpectralShape) (s : SpectralPowerDistribution)
    : SpectralPowerDistribution :=
  mk_spd (spd_name s) shape
    (map (fun w => (w, default 0 (lookup_wavelength (spd_data s) w)))
         (shape_range shape)).

(** Modelled from the spec: [ones_spd(shape)] (section 3), the uniform
    all-ones SPD over the shape.  Its name is of no consequence here. *)
Definition ones_spd (shape : SpectralShape) : SpectralPowerDistribution :=
  mk_spd "1 Constant" shape (map (fun w => (w, 1)) (shape_range shape)).

(** [a * b] on 1-D arrays, with numpy's broadcasting of a length one. *)
Definition np_multiply (a b : list Q) : result (list Q) :=
  if (length a =? length b)%nat then Ret (zip_with Qmult a b)
  else
    match a, b with
    | [x], _ => Ret (map (Qmult x) b)
    | _, [y] => Ret (map (fun x => x * y) a)
    | _, _ => Raise (NumpyValueError "operands could not be broadcast together")
    end.

(** [f * x] for a factor that may be [inf]. *)
Definition xmul (f : option Q) (x : Q) : option Q :=
  option_map (fun f => f * x) f.

(** ** Spectral integrator *)

Definition spectral_to_XYZ (spd : SpectralPowerDistribution)
    (cmfs : XYZ_ColourMatchingFunctions)
    (illuminant : option SpectralPowerDistribution)
    : result (list (option Q)) :=
  let shape := cmfs_shape cmfs in
  let spd := if negb (shape_eqb (spd_shape spd) (cmfs_shape cmfs))
             then zeros shape spd else spd in
  let illuminant :=
    match illuminant with
    | None => ones_spd shape
    | Some illuminant =>
        if negb (shape_eqb (spd_shape illuminant) (cmfs_shape cmfs))
        then zeros shape illuminant else illuminant
    end in
  let spd := spd_values spd in
  let x_bar := x_bar_values cmfs in
  let y_bar := y_bar_values cmfs in
  let z_bar := z_bar_values cmfs in
  let illuminant := spd_values illuminant in
  x_products <- (p <- np_multiply spd x_bar ;; np_multiply p illuminant) ;;
  y_products <- (p <- np_multiply spd y_bar ;; np_multiply p illuminant) ;;
  z_products <- (p <- np_multiply spd z_bar ;; np_multiply p illuminant) ;;
  yi <- np_multiply y_bar illuminant ;;
  let normalising_factor := np_divide 100 (Qsum yi) in
  Ret [xmul normalising_factor (Qsum x_products);
       xmul normalising_factor (Qsum y_products);
       xmul normalising_factor (Qsum z_products)].

(** ** Wavelength dispatcher *)

Inductive interpolator : Type :=
| CubicSplineInterpolator
| LinearInterpolator
| PchipInterpolator
| SpragueInterpolator.

Definition Qmin' (a b : Q) : Q := if Qle_bool a b then a else b.
Definition Qmax' (a b : Q) : Q := if Qle_bool a b then b else a.

Definition np_min (l : list Q) : result Q :=
  match l with
  | [] => Raise (NumpyValueError "zero-size array to reduction operation minimum")
  | x :: l' => Ret (fold_left Qmin' l' x)
  end.

Definition np_max (l : list Q) : result Q :=
  match l with
  | [] => Raise (NumpyValueError "zero-size array to reduction operation maximum")
  | x :: l' => Ret (fold_left Qmax' l' x)
  end.

(** [np.reshape(a, shape)] on flat data. *)
Definition np_reshape (data : list Q) (shape : list nat) : result ndarray :=
  if (length data =? nd_size shape)%nat then Ret (mk_ndarray shape data)
  else Raise (NumpyValueError "cannot reshape array").

(** [np.dstack([x, y, z])] of three 1-D arrays, as flat data. *)
Definition np_dstack3 (x y z : list Q) : result (list Q) :=
  if ((length x =? length y) && (length y =? length z))%nat
  then Ret (concat (zip_with (fun a bc => [a; fst bc; snd bc]) x (zip y z)))
  else Raise (NumpyValueError "all the input array dimensions must match").

(** Modelled from the spec: [wavelength in cmfs] (section 4.4, step 2), every
    requested wavelength is a grid point present in the CMFS. *)
Definition cmfs_contains (cmfs : XYZ_ColourMatchingFunctions)
    (wavelength : ndarray) : bool :=
  forallb (fun w => existsb (fun w' => Qeq_bool w' w) (cmfs_wavelengths cmfs))
          (nd_data wavelength).

(** Modelled from the spec: [cmfs.get(wavelength)] (section 4.4, step 2), the
    stored values of each requested wavelength.  A wavelength without a
    stored value has no finite value; the dispatcher never asks for one. *)
Definition cmfs_get (cmfs : XYZ_ColourMatchingFunctions)
    (wavelength : ndarray) : result (list Q) :=
  rows <- mapM (fun w =>
            match lookup_wavelength (cmfs_data cmfs) w with
            | Some v => Ret (xyz_row v)
            | None => Raise (NumpyValueError "no stored value")
            end) (nd_data wavelength) ;;
  Ret (concat rows).

(** Modelled from the spec: [cmfs.is_uniform()] (section 3), constant
    sample spacing. *)
Fixpoint uniform_from (d : Q) (l : list Q) : bool :=
  match l with
  | a :: (b :: _) as l' => Qeq_bool (b - a) d && uniform_from d l'
  | _ => true
  end.

Definition is_uniform (cmfs : XYZ_ColourMatchingFunctions) : bool :=
  match cmfs_wavelengths cmfs with
  | a :: b :: _ => uniform_from (b - a) (cmfs_wavelengths cmfs)
  | _ => true
  end.

(** Lines 476-497: the interpolator class chosen for a method that has
    already been lower-cased. *)
Definition select_interpolator (method : option string) (is_uniform : bool)
    : result interpolator :=
  match method with
  | None => if is_uniform then Ret SpragueInterpolator
            else Ret CubicSplineInterpolator
  | Some method =>
      if String.eqb method "cubic spline" then Ret CubicSplineInterpolator
      else if String.eqb method "linear" then Ret LinearInterpolator
      else if String.eqb method "pchip" then Ret PchipInterpolator
      else if String.eqb method "sprague" then
        if is_uniform then Ret SpragueInterpolator
        else Raise UnsupportedSpragueSpacing
      else Raise (UndefinedMethod method)
  end.

Section Dispatcher.

(** The interpolator classes are collaborators: fitting one to nodes and
    values gives an evaluator, and both steps can fail with an error of the
    interpolator's own. *)
Variable fit : interpolator -> list Q -> list Q ->
               string + (list Q -> string + list Q).

Definition of_sum {A} (r : string + A) : result A :=
  match r with
  | inl msg => Raise (InterpolatorError msg)
  | inr a => Ret a
  end.

(** Lines 499-502: one interpolator per channel, all evaluated on the
    flattened wavelengths and stacked. *)
Definition interpolate_channels (k : interpolator)
    (cmfs : XYZ_ColourMatchingFunctions) (wavelength : ndarray)
    : result (list Q) :=
  let wavelengths := cmfs_wavelengths cmfs in
  ix <- of_sum (fit k wavelengths (x_bar_values cmfs)) ;;
  iy <- of_sum (fit k wavelengths (y_bar_values cmfs)) ;;
  iz <- of_sum (fit k wavelengths (z_bar_values cmfs)) ;;
  x <- of_sum (ix (nd_data wavelength)) ;;
  y <- of_sum (iy (nd_data wavelength)) ;;
  z <- of_sum (iz (nd_data wavelength)) ;;
  np_dstack3 x y z.

Definition wavelength_to_XYZ (wavelength : ndarray)
    (cmfs : XYZ_ColourMatchingFunctions) (method : option string)
    : result ndarray :=
  let cmfs_shape := cmfs_shape cmfs in
  lo <- np_min (nd_data wavelength) ;;
  out_of_domain <-
    (if Qlt_bool lo (start cmfs_shape) then Ret true
     else hi <- np_max (nd_data wavelength) ;;
          Ret (Qlt_bool (end_ cmfs_shape) hi)) ;;
  if out_of_domain : bool
  then Raise (DomainRangeError wavelength (start cmfs_shape) (end_ cmfs_shape))
  else
    XYZ <-
      (if negb (cmfs_contains cmfs wavelength)
       then
         let method := option_map lower method in
         let is_uniform := is_uniform cmfs in
         interpolator <- select_interpolator method is_uniform ;;
         interpolate_channels interpolator cmfs wavelength
       else cmfs_get cmfs wavelength) ;;
    np_reshape XYZ (nd_shape wavelength ++ [3%nat]).

(** The domain check of lines 462-463 as a proposition. *)
Definition outside_domain (cmfs : XYZ_ColourMatchingFunctions) (w : Q) : Prop :=
  w < start (cmfs_shape cmfs) \/ end_ (cmfs_shape cmfs) < w.

(** What lines 468-506 do once the domain check has passed. *)
Definition after_domain_check (wavelength : ndarray)
    (cmfs : XYZ_ColourMatchingFunctions) (method : option string)
    : result ndarray :=
  XYZ <-
    (if negb (cmfs_contains cmfs wavelength)
     then
       interpolator <- select_interpolator (option_map lower method)
                         (is_uniform cmfs) ;;
       interpolate_channels interpolator cmfs wavelength
     else cmfs_get cmfs wavelength) ;;
  np_reshape XYZ (nd_shape wavelength ++ [3%nat]).

(** Lines 499-506 for a chosen interpolator class. *)
Definition interpolated (k : interpolator) (wavelength : ndarray)
    (cmfs : XYZ_ColourMatchingFunctions) : result ndarray :=
  XYZ <- interpolate_channels k cmfs wavelength ;;
  np_reshape XYZ (nd_shape wavelength ++ [3%nat]).

End Dispatcher.

(** ** Auxiliary notions used in the statements *)

(** A character of the decimal rendering of an integer. *)
Definition sign_or_digit (c : ascii) : bool :=
  Ascii.eqb c "-" || ((48 <=? nat_of_ascii c) && (nat_of_ascii c <=? 57))%nat.

Fixpoint numeral (s : string) : bool :=
  match s with
  | EmptyString => true
  | String c s' => sign_or_digit c && numeral s'
  end.

(** The degree argument handed to [lagrange_coefficients]. *)
Definition degree (interval_type : string) : nat :=
  if String.eqb (lower interval_type) "inner" then 4%nat else 3%nat.

(** Every entry of the Lagrange cache is the matrix computed for an
    (interval, interval type) pair that has this key. *)
Definition lagrange_cache_ok (st : caches) : Prop :=
  forall c key lica,
    LAGRANGE_INTERPOLATING_COEFFICIENTS_CACHE st = Some c ->
    c !! key = Some lica ->
    exists n t, key = lower (name_lica n t) /\ lagrange_compute n t = Ret lica.

(** The Y column of a table sums to 100. *)
Definition Y_sums_to_100 (T : xmatrix) : Prop :=
  exists q, xsum (xcolumn T 1) = Some q /\ q == 100.

(** No entry of a table is a finite number. *)
Definition nowhere_finite (T : xmatrix) : Prop :=
  Forall (Forall (fun x => x = None)) T.

(** A table of [rows] rows with [cols] entries each. *)
Definition table_shape (rows cols : nat) (W : matrix) : Prop :=
  length W = rows /\ Forall (fun row => length row = cols) W.

(** The exceptions of Python and numpy themselves, as opposed to the ones
    the module raises with a message of its own. *)
Definition library_error (e : exception) : Prop :=
  match e with
  | ZeroDivisionError | IndexError | NumpyValueError _ | NumpyTypeError _ => True
  | _ => False
  end.

Definition raises_only {A} (P : exception -> Prop) (r : result A) : Prop :=
  match r with
  | Ret _ => True
  | Raise e => P e
  end.

(** The precondition of the weighting factor builder. *)
Definition intervals_ok (cmfs : XYZ_ColourMatchingFunctions)
    (illuminant : SpectralPowerDistribution) : Prop :=
  interval (cmfs_shape cmfs) == 1 /\ interval (spd_shape illuminant) == 1.

Definition twf_cache_ok (st : caches) : Prop :=
  forall c key T,
    TRISTIMULUS_WEIGHTING_FACTORS_CACHE st = Some c ->
    c !! key = Some T ->
    Y_sums_to_100 T \/ nowhere_finite T.

(** [x] agrees with the quoted decimal [y] up to [eps]. *)
Definition close_to (eps x y : Q) : Prop := Qabs (x - y) <= eps.

(** The value of a result, [d] when it raised. *)
Definition returned {A} (d : A) (r : result A) : A :=
  match r with
  | Ret a => a
  | Raise _ => d
  end.

(** The data of an SPD or of a CMFS is sampled on the grid of its shape. *)
Definition spd_on_grid (s : SpectralPowerDistribution) : Prop :=
  length (spd_data s) = length (shape_range (spd_shape s)).

Definition cmfs_on_grid (c : XYZ_ColourMatchingFunctions) : Prop :=
  length (cmfs_data c) = length (shape_range (cmfs_shape c)).

(** In the words of section 4.3: the SPD resampled/zero-extended to the
    shape if the shapes differ. *)
Definition aligned (shape : SpectralShape) (s : SpectralPowerDistribution)
    : SpectralPowerDistribution :=
  if shape_eqb (spd_shape s) shape then s else zeros shape s.

(** In the words of section 4.3: the sum over the wavelength grid of an
    elementwise product, the grid having [n] points. *)
Definition grid_sum2 (n : nat) (a b : list Q) : Q :=
  Qsum (map (fun k => nth k a 0 * nth k b 0) (seq 0 n)).

Definition grid_sum3 (n : nat) (a b c : list Q) : Q :=
  Qsum (map (fun k => nth k a 0 * nth k b 0 * nth k c 0) (seq 0 n)).

Definition not_domain_error (e : exception) : Prop :=
  match e with
  | DomainRangeError _ _ _ => False
  | _ => True
  end.

(** [row] holds the values the CMFS stores for the wavelength [w]. *)
Definition stored_at (cmfs : XYZ_ColourMatchingFunctions) (w : Q) (row : list Q)
    : Prop :=
  exists w' v, In (w', v) (cmfs_data cmfs) /\ w' == w /\ row = xyz_row v.

(** The wavelengths of the CMFS lie within the bounds of its shape. *)
Definition cmfs_within_shape (cmfs : XYZ_ColourMatchingFunctions) : Prop :=
  Forall (fun w => start (cmfs_shape cmfs) <= w /\ w <= end_ (cmfs_shape cmfs))
         (cmfs_wavelengths cmfs).

(** ** Notions used by the further properties *)

(** Equality of numbers that may be [inf]/[nan]. *)
Definition xQeq (a b : option Q) : Prop :=
  match a, b with
  | Some x, Some y => x == y
  | None, None => True
  | _, _ => False
  end.

(** The SPD with every value multiplied by [c]. *)
Definition scale_spd (c : Q) (s : SpectralPowerDistribution)
    : SpectralPowerDistribution :=
  mk_spd (spd_name s) (spd_shape s)
    (map (fun p => (fst p, c * snd p)) (spd_data s)).

(** [np.sum(a * b)] for arrays of the same length. *)
Definition dot (a b : list Q) : Q := Qsum (zip_with Qmult a b).

(** The values [spectral_to_XYZ] integrates: those of the SPD and of the
    illuminant after lines 345-353. *)
Definition integrated_spd (cmfs : XYZ_ColourMatchingFunctions)
    (spd : SpectralPowerDistribution) : list Q :=
  spd_values (aligned (cmfs_shape cmfs) spd).

Definition integrated_illuminant (cmfs : XYZ_ColourMatchingFunctions)
    (illuminant : option SpectralPowerDistribution) : list Q :=
  match illuminant with
  | None => spd_values (ones_spd (cmfs_shape cmfs))
  | Some i => spd_values (aligned (cmfs_shape cmfs) i)
  end.

(** Column [c] of a table, and the products [S[w] * Y[w, c]] over all
    wavelengths [w]: what direct summation adds up for channel [c]. *)
Definition column (W : matrix) (c : nat) : list Q :=
  map (fun row => nth c row 0) W.

Definition products (S : list Q) (Y : matrix) (c : nat) : list Q :=
  zip_with (fun s row => s * nth c row 0) S Y.

(** [sum (f j for j in range(a, b))] *)
Definition rsum (f : Z -> Q) (a b : Z) : Q := Qsum (map f (zrange a b)).

(** A coefficient matrix of the given shape whose rows sum to 1. *)
Definition unit_rows (rows cols : nat) (c : matrix) : Prop :=
  table_shape rows cols c /\ Forall (fun row => Qsum row == 1) c.

(** [S[w] * Y[w, c]], zero outside the arrays. *)
Definition channel_product (S : list Q) (Y : matrix) (c : nat) (w : Z) : Q :=
  nth (Z.to_nat w) S 0 * nth c (nth (Z.to_nat w) Y []) 0.

(** 1 when the loop variable [i] of line 265 is the channel [c], else 0. *)
Definition on_channel (c : nat) (i : Z) : Q :=
  if (Z.to_nat i =? c)%nat then 1 else 0.

(** What lines 265-288 add to a column: the products at the interpolated
    wavelengths of the first, of the last and of the intermediate intervals
    and at the wavelengths after the last measured one. *)
Definition distributed (S : list Q) (Y : matrix) (c : nat) (k : Z) : Q :=
  let n := Z.of_nat (length Y) in
  let m := ((n - 1) / k)%Z in
  let f := channel_product S Y c in
  rsum (fun j => f (j + 1)%Z) 0 (k - 1)
  + rsum (fun j => f (j + (n - (n - 1) mod k - 1 - (k - 1)))%Z) 0 (k - 1)
  + rsum (fun j => rsum (fun t => f ((k - 1 + 1) * (j + 1) + 1 + t)%Z)
                     0 (k - 1)) 0 (m + 1 - 3)
  + rsum f (n - (n - 1) mod k) n.

(** ** Example data *)

(** A rendering of shapes with integer fields, in the manner of
    [str(shape)]. *)
Definition shape_repr (sh : SpectralShape) : string :=
  ("(" ++ str_int (Qfloor (start sh)) ++ ", " ++ str_int (Qfloor (end_ sh))
   ++ ", " ++ str_int (Qfloor (interval sh)) ++ ")")%string.

Definition example_data : list (Q * (Q * Q * Q)) :=
  [(1, (1, 2, 3)); (2, (2, 3, 4)); (3, (3, 4, 5)); (4, (4, 5, 6));
   (5, (5, 6, 7))].

(** Five samples at unit spacing. *)
Definition example_cmfs : XYZ_ColourMatchingFunctions :=
  mk_cmfs "observer" (mk_shape 1 5 1) example_data.

(** The same name, but a shape of interval 2. *)
Definition coarse_cmfs : XYZ_ColourMatchingFunctions :=
  mk_cmfs "observer" (mk_shape 1 5 2) example_data.

Definition example_illuminant : SpectralPowerDistribution :=
  mk_spd "E" (mk_shape 1 5 1) [(1, 1); (2, 1); (3, 1); (4, 1); (5, 1)].

(** An illuminant without any power. *)
Definition dark_illuminant : SpectralPowerDistribution :=
  mk_spd "dark" (mk_shape 1 5 1) [(1, 0); (2, 0); (3, 0); (4, 0); (5, 0)].

(** An illuminant without any power that carries the name of
    [example_illuminant]. *)
Definition unlit_E : SpectralPowerDistribution :=
  mk_spd "E" (mk_shape 1 5 1) [(1, 0); (2, 0); (3, 0); (4, 0); (5, 0)].

Definition example_shape : SpectralShape := mk_shape 1 5 2.

(** An SPD with the shape of [example_cmfs] that lacks the sample at 3. *)
Definition gap_spd : SpectralPowerDistribution :=
  mk_spd "gap" (mk_shape 1 5 1) [(1, 1); (2, 1); (4, 1); (5, 1)].

Definition example_spd : SpectralPowerDistribution :=
  mk_spd "Custom" (mk_shape 2 3 1) [(2, 0.06); (3, 0.06)].

(** The first call of a process. *)
Definition first_call : result xmatrix * caches :=
  tristimulus_weighting_factors_ASTME202211 shape_repr
    example_cmfs example_illuminant example_shape initial_caches.

(** A stand-in for the interpolator classes: whatever the class, it
    interpolates linearly between the two nodes around the query. *)
Fixpoint linear_at (ws vs : list Q) (q : Q) : option Q :=
  match ws, vs with
  | w0 :: ((w1 :: _) as ws'), v0 :: ((v1 :: _) as vs') =>
      if Qle_bool q w1 then Some (v0 + (v1 - v0) * (q - w0) / (w1 - w0))
      else linear_at ws' vs' q
  | _, _ => None
  end.

Definition example_fit (k : interpolator) (ws vs : list Q)
    : string + (list Q -> string + list Q) :=
  if (length ws <? 2)%nat then inl "at least two nodes are needed"%string
  else inr (fun qs =>
    fold_right (fun q acc =>
      match linear_at ws vs q, acc with
      | Some v, inr l => inr (v :: l)
      | _, _ => inl "query outside the nodes"%string
      end) (inr []) qs).

(** * Properties *)

(** ** Cache keys *)

Lemma lower_app (a b : string) : lower (a ++ b) = (lower a ++ lower b)%string.
Proof. induction a as [|c a IH]; simpl; [reflexivity | now rewrite IH]. Qed.

Lemma numeral_string_of_uint d : numeral (NilEmpty.string_of_uint d) = true.
Proof. induction d; simpl; auto. Qed.

Lemma numeral_str_int n : numeral (str_int n) = true.
Proof.
  unfold str_int. destruct (Z.to_int n); simpl; apply numeral_string_of_uint.
Qed.

Lemma sign_or_digit_lower c : sign_or_digit c = true -> lower_ascii c = c.
Proof.
  unfold sign_or_digit, lower_ascii. intros H.
  destruct (Ascii.eqb c "-") eqn:E1.
  { apply Ascii.eqb_eq in E1. subst c. reflexivity. }
  simpl in H. apply andb_true_iff in H as [_ H]. apply Nat.leb_le in H.
  destruct (65 <=? nat_of_ascii c)%nat eqn:E; [|reflexivity].
  apply Nat.leb_le in E. lia.
Qed.

Lemma sign_or_digit_not_comma c : sign_or_digit c = true -> c <> ","%char.
Proof. intros H E. subst c. discriminate H. Qed.

Lemma numeral_lower s : numeral s = true -> lower s = s.
Proof.
  induction s as [|c s IH]; simpl; [reflexivity|].
  intros H. apply andb_true_iff in H as [Hc Hs].
  now rewrite (sign_or_digit_lower c Hc), IH.
Qed.

Lemma append_nil (s : string) : ("" ++ s)%string = s.
Proof. reflexivity. Qed.

Lemma append_cons c (a s : string) : (String c a ++ s)%string = String c (a ++ s).
Proof. reflexivity. Qed.

(** A numeral followed by [", "] is a prefix that can be read back. *)
Lemma numeral_prefix_inj (a b x y : string) :
  numeral a = true -> numeral b = true ->
  (a ++ ", " ++ x = b ++ ", " ++ y)%string -> a = b /\ x = y.
Proof.
  revert b. induction a as [|c a IH]; intros [|c' b] Ha Hb; simpl in *;
    repeat (rewrite append_cons || rewrite append_nil).
  - intros H. injection H as H. subst y. auto.
  - intros H. injection H as H _. subst c'.
    apply andb_true_iff in Hb as [Hb _]. discriminate Hb.
  - intros H. injection H as H _. subst c.
    apply andb_true_iff in Ha as [Ha _]. discriminate Ha.
  - intros H. injection H as Hc H. subst c'.
    apply andb_true_iff in Ha as [_ Ha].
    apply andb_true_iff in Hb as [_ Hb].
    destruct (IH b Ha Hb H) as [Hab Hxy]. subst. auto.
Qed.

Lemma str_int_inj n m : str_int n = str_int m -> n = m.
Proof.
  unfold str_int. intros H.
  apply (f_equal NilEmpty.int_of_string) in H.
  rewrite !NilEmpty.isi in H. injection H as H.
  apply (f_equal Z.of_int) in H. now rewrite !DecimalZ.of_to in H.
Qed.

Lemma lower_name_lica n t :
  lower (name_lica n t) = (str_int n ++ ", " ++ lower t)%string.
Proof.
  unfold name_lica, join_comma. rewrite !lower_app.
  now rewrite (numeral_lower _ (numeral_str_int n)).
Qed.

(** Equal keys of the Lagrange cache name the same interval and, up to
    case, the same interval type. *)
Lemma name_lica_inj n t n' t' :
  lower (name_lica n t) = lower (name_lica n' t') ->
  n = n' /\ lower t = lower t'.
Proof.
  rewrite !lower_name_lica. intros H.
  apply numeral_prefix_inj in H as [H1 H2]; try apply numeral_str_int.
  split; [now apply str_int_inj | assumption].
Qed.

(** ** The Lagrange coefficients *)

Lemma lagrange_coefficients_length r n :
  length (lagrange_coefficients r n) = n.
Proof. unfold lagrange_coefficients. now rewrite length_map, length_seq. Qed.

Lemma lagrange_coefficients_3 r :
  lagrange_coefficients r 3 =
  [ (r - 1) / (0 - 1) * ((r - 2) / (0 - 2) * 1);
    (r - 0) / (1 - 0) * ((r - 2) / (1 - 2) * 1);
    (r - 0) / (2 - 0) * ((r - 1) / (2 - 1) * 1) ].
Proof. reflexivity. Qed.

Lemma lagrange_coefficients_4 r :
  lagrange_coefficients r 4 =
  [ (r - 1) / (0 - 1) * ((r - 2) / (0 - 2) * ((r - 3) / (0 - 3) * 1));
    (r - 0) / (1 - 0) * ((r - 2) / (1 - 2) * ((r - 3) / (1 - 3) * 1));
    (r - 0) / (2 - 0) * ((r - 1) / (2 - 1) * ((r - 3) / (2 - 3) * 1));
    (r - 0) / (3 - 0) * ((r - 1) / (3 - 1) * ((r - 2) / (3 - 2) * 1)) ].
Proof. reflexivity. Qed.

(** Partition of unity of the Lagrange basis on the nodes the builder uses. *)
Lemma lagrange_coefficients_sum r n :
  (n = 3 \/ n = 4)%nat -> Qsum (lagrange_coefficients r n) == 1.
Proof.
  intros [-> | ->].
  - rewrite lagrange_coefficients_3. unfold Qsum; simpl. field.
  - rewrite lagrange_coefficients_4. unfold Qsum; simpl. field.
Qed.

Lemma linspace_length a b num l :
  linspace a b num = Ret l -> length l = Z.to_nat num.
Proof.
  unfold linspace. destruct (num <? 0)%Z; [discriminate|].
  destruct (num =? 1)%Z eqn:E.
  - intros [= <-]. apply Z.eqb_eq in E. now subst.
  - intros [= <-]. now rewrite length_map, length_seq.
Qed.

Lemma linspace_returns a b num :
  (0 <= num)%Z -> exists l, linspace a b num = Ret l.
Proof.
  intros H. unfold linspace.
  destruct (num <? 0)%Z eqn:E; [apply Z.ltb_lt in E; lia|].
  destruct (num =? 1)%Z; eauto.
Qed.

Lemma lagrange_compute_rows interval interval_type lica :
  lagrange_compute interval interval_type = Ret lica ->
  length lica = Z.to_nat (interval - 1) /\
  Forall (fun row =>
            exists r, row = lagrange_coefficients r (degree interval_type))
         lica.
Proof.
  unfold lagrange_compute, degree.
  destruct (interval =? 0)%Z; [discriminate|].
  destruct (linspace _ _ _) as [r_n|e] eqn:E; simpl; [|discriminate].
  apply linspace_length in E.
  destruct (String.eqb (lower interval_type) "inner"); intros [= <-];
    rewrite ?length_map; (split; [assumption|]);
    apply Forall_forall; intros row Hrow;
    apply list_elem_of_In, in_map_iff in Hrow as (r & <- & _); eauto.
Qed.

Lemma lagrange_compute_returns interval interval_type :
  (1 <= interval)%Z ->
  exists lica, lagrange_compute interval interval_type = Ret lica.
Proof.
  intros H. unfold lagrange_compute.
  destruct (interval =? 0)%Z eqn:E; [apply Z.eqb_eq in E; lia|].
  destruct (linspace_returns (1 / inject_Z interval) (1 - 1 / inject_Z interval)
              (interval - 1)) as [r_n ->]; [lia|]. simpl.
  destruct (String.eqb (lower interval_type) "inner"); eauto.
Qed.

(** The computation looks at the interval type only through its lower-cased
    form. *)
Lemma lagrange_compute_lower interval t t' :
  lower t = lower t' ->
  lagrange_compute interval t = lagrange_compute interval t'.
Proof. unfold lagrange_compute. now intros ->. Qed.

(** ** Which exceptions the builders raise *)

Section RaisesOnly.

Context {P : exception -> Prop}.

Lemma raises_bind {A B} (r : result A) (k : A -> result B) :
  raises_only P r -> (forall a, raises_only P (k a)) -> raises_only P (rbind r k).
Proof. destruct r; simpl; auto. Qed.

Lemma raises_foldM {A S} (f : S -> A -> result S) l s :
  (forall s a, raises_only P (f s a)) -> raises_only P (foldM f l s).
Proof.
  intros Hf. revert s. induction l as [|a l IH]; intros s; simpl; [exact I|].
  apply raises_bind; auto.
Qed.

Lemma raises_mapM {A B} (f : A -> result B) l :
  (forall a, raises_only P (f a)) -> raises_only P (mapM f l).
Proof.
  intros Hf. induction l as [|a l IH]; simpl; [exact I|].
  apply raises_bind; [auto|]. intros b.
  apply raises_bind; [auto|]. intros bs. exact I.
Qed.

End RaisesOnly.

Lemma raises_np_index n k : raises_only library_error (np_index n k).
Proof. unfold np_index. repeat case_match; exact I. Qed.

Lemma raises_get1 {A} (a : list A) k : raises_only library_error (get1 a k).
Proof.
  unfold get1. apply raises_bind; [apply raises_np_index|].
  intros i. destruct (a !! i); exact I.
Qed.

Lemma raises_get2 a k i : raises_only library_error (get2 a k i).
Proof.
  unfold get2. apply raises_bind; [apply raises_get1|]. intros. apply raises_get1.
Qed.

Lemma raises_set2 a k i x : raises_only library_error (set2 a k i x).
Proof.
  unfold set2. apply raises_bind; [apply raises_np_index|]. intros r.
  destruct (a !! r); [|exact I].
  apply raises_bind; [apply raises_np_index|]. intros; exact I.
Qed.

Lemma raises_weighted_product c cj ck S Y w i :
  raises_only library_error (weighted_product c cj ck S Y w i).
Proof.
  unfold weighted_product.
  apply raises_bind; [apply raises_get2|]. intros.
  apply raises_bind; [apply raises_get1|]. intros.
  apply raises_bind; [apply raises_get2|]. intros. exact I.
Qed.

Lemma raises_add_at W k i x :
  raises_only library_error x -> raises_only library_error (add_at W k i x).
Proof.
  intros Hx. unfold add_at.
  apply raises_bind; [apply raises_get2|]. intros.
  apply raises_bind; [assumption|]. intros. apply raises_set2.
Qed.

Lemma raises_weighting_loops c_c c_b S Y k W :
  raises_only library_error (weighting_loops c_c c_b S Y k W).
Proof.
  unfold weighting_loops.
  apply raises_foldM. intros W0 i.
  apply raises_bind.
  { apply raises_foldM; intros. apply raises_foldM; intros.
    apply raises_add_at, raises_weighted_product. }
  intros W1. apply raises_bind.
  { apply raises_foldM; intros. apply raises_foldM; intros.
    apply raises_add_at, raises_weighted_product. }
  intros W2. apply raises_bind.
  { apply raises_foldM; intros. apply raises_foldM; intros.
    repeat (apply raises_bind;
            [apply raises_add_at, raises_weighted_product | intros]).
    apply raises_add_at, raises_weighted_product. }
  intros W3. apply raises_foldM; intros. apply raises_add_at.
  apply raises_bind; [apply raises_get1|]. intros.
  apply raises_bind; [apply raises_get2|]. intros. exact I.
Qed.

Lemma raises_normalise W : raises_only library_error (normalise W).
Proof.
  unfold normalise, column_sum.
  apply raises_bind; [|intros; exact I].
  apply raises_bind; [|intros; exact I].
  apply raises_mapM. intros. apply raises_get1.
Qed.

Lemma raises_as_integer q : raises_only library_error (as_integer q).
Proof. unfold as_integer. case_match; exact I. Qed.

Lemma raises_np_slice_step {A} (l : list A) k :
  raises_only library_error (np_slice_step l k).
Proof. unfold np_slice_step. repeat case_match; exact I. Qed.

Lemma raises_np_multiply_rows s y :
  raises_only library_error (np_multiply_rows s y).
Proof. unfold np_multiply_rows. repeat case_match; exact I. Qed.

Lemma raises_linspace a b n : raises_only library_error (linspace a b n).
Proof. unfold linspace. repeat case_match; exact I. Qed.

Lemma raises_lagrange_compute n t :
  raises_only library_error (lagrange_compute n t).
Proof.
  unfold lagrange_compute. case_match; [exact I|].
  apply raises_bind; [apply raises_linspace|]. intros. case_match; exact I.
Qed.

Lemma raises_lagrange n t st :
  raises_only library_error (fst (lagrange_coefficients_ASTME202211 n t st)).
Proof.
  unfold lagrange_coefficients_ASTME202211.
  destruct (ci_lookup _ _); [exact I|].
  pose proof (raises_lagrange_compute n t) as H.
  destruct (lagrange_compute n t); exact H.
Qed.

Lemma raises_mbind {A B} (m : M A) (k : A -> M B) st :
  raises_only library_error (fst (m st)) ->
  (forall a st', raises_only library_error (fst (k a st'))) ->
  raises_only library_error (fst (mbind m k st)).
Proof.
  unfold mbind. destruct (m st) as [[a|e] st']; simpl; auto.
Qed.

Lemma raises_twf_build cmfs illuminant shape st :
  raises_only library_error (fst (twf_build cmfs illuminant shape st)).
Proof.
  unfold twf_build, twf_table.
  apply raises_mbind; [|intros; apply raises_normalise].
  apply raises_mbind; [apply raises_as_integer|]. intros step ?.
  apply raises_mbind.
  { simpl. apply raises_bind; [apply raises_np_slice_step|]. intros.
    apply raises_bind; [apply raises_np_slice_step|]. intros.
    apply raises_np_multiply_rows. }
  intros W ?.
  apply raises_mbind; [apply raises_lagrange|]. intros c_c ?.
  apply raises_mbind; [apply raises_lagrange|]. intros c_b ?.
  apply raises_weighting_loops.
Qed.

(** ** The weighting loops on data that is long enough *)

Lemma zrange_In a b j : In j (zrange a b) <-> (a <= j < b)%Z.
Proof.
  unfold zrange. rewrite in_map_iff. split.
  - intros (i & <- & Hi). apply in_seq in Hi. lia.
  - intros H. exists (Z.to_nat (j - a)). split; [lia|]. apply in_seq. lia.
Qed.

Lemma zrange_down_In a b j : In j (zrange_down a b) <-> (b < j <= a)%Z.
Proof.
  unfold zrange_down. rewrite in_map_iff. split.
  - intros (i & <- & Hi). apply in_seq in Hi. lia.
  - intros H. exists (Z.to_nat (a - j)). split; [lia|]. apply in_seq. lia.
Qed.

Lemma np_index_in_range n k :
  (0 <= k < Z.of_nat n)%Z -> np_index n k = Ret (Z.to_nat k).
Proof.
  intros H. unfold np_index.
  destruct (0 <=? k)%Z eqn:E1; [|apply Z.leb_gt in E1; lia].
  destruct (k <? Z.of_nat n)%Z eqn:E2; [|apply Z.ltb_ge in E2; lia].
  reflexivity.
Qed.

Lemma get1_in_range {A} (a : list A) k :
  (0 <= k < Z.of_nat (length a))%Z -> exists x, get1 a k = Ret x.
Proof.
  intros H. unfold get1. rewrite np_index_in_range by assumption. simpl.
  destruct (lookup_lt_is_Some_2 a (Z.to_nat k)) as [x ->]; [lia|]. eauto.
Qed.

Lemma get2_in_range rows cols a k i :
  table_shape rows cols a ->
  (0 <= k < Z.of_nat rows)%Z -> (0 <= i < Z.of_nat cols)%Z ->
  exists x, get2 a k i = Ret x.
Proof.
  intros [Hlen Hrows] Hk Hi. unfold get2, get1 at 1.
  rewrite np_index_in_range by lia. simpl.
  destruct (lookup_lt_is_Some_2 a (Z.to_nat k)) as [row Hrow]; [lia|].
  rewrite Hrow. apply get1_in_range.
  rewrite (Forall_lookup_1 _ _ _ _ Hrows Hrow). assumption.
Qed.

Lemma set2_in_range rows cols a k i x :
  table_shape rows cols a ->
  (0 <= k < Z.of_nat rows)%Z -> (0 <= i < Z.of_nat cols)%Z ->
  exists a', set2 a k i x = Ret a' /\ table_shape rows cols a'.
Proof.
  intros [Hlen Hrows] Hk Hi. unfold set2.
  rewrite np_index_in_range by lia. simpl.
  destruct (lookup_lt_is_Some_2 a (Z.to_nat k)) as [row Hrow]; [lia|].
  rewrite Hrow.
  pose proof (Forall_lookup_1 _ _ _ _ Hrows Hrow) as Hc. simpl in Hc.
  rewrite np_index_in_range by lia. simpl.
  eexists; split; [reflexivity|]. split.
  - now rewrite length_insert.
  - apply Forall_insert; [assumption|]. now rewrite length_insert.
Qed.

Lemma add_at_in_range rows cols W k i v :
  table_shape rows cols W ->
  (0 <= k < Z.of_nat rows)%Z -> (0 <= i < Z.of_nat cols)%Z ->
  exists W', add_at W k i (Ret v) = Ret W' /\ table_shape rows cols W'.
Proof.
  intros HW Hk Hi. unfold add_at.
  destruct (get2_in_range rows cols W k i HW Hk Hi) as [w ->]. simpl.
  now apply set2_in_range.
Qed.

Lemma weighted_product_in_range rc cc n c cj ck S Y w i :
  table_shape rc cc c -> length S = n -> table_shape n 3 Y ->
  (0 <= cj < Z.of_nat rc)%Z -> (0 <= ck < Z.of_nat cc)%Z ->
  (0 <= w < Z.of_nat n)%Z -> (0 <= i < 3)%Z ->
  exists v, weighted_product c cj ck S Y w i = Ret v.
Proof.
  intros Hc HS HY Hcj Hck Hw Hi. unfold weighted_product.
  destruct (get2_in_range rc cc c cj ck Hc Hcj Hck) as [a ->]. simpl.
  destruct (get1_in_range S w) as [s ->]; [lia|]. simpl.
  destruct (get2_in_range n 3 Y w i HY Hw) as [y ->]; [lia|]. simpl. eauto.
Qed.

(** A loop whose body keeps an invariant and never raises on the values it
    ranges over returns, in a state that satisfies the invariant. *)
Lemma foldM_invariant {A S} (I : S -> Prop) (f : S -> A -> result S) l s :
  (forall s a, In a l -> I s -> exists s', f s a = Ret s' /\ I s') ->
  I s -> exists s', foldM f l s = Ret s' /\ I s'.
Proof.
  revert s. induction l as [|a l IH]; intros s Hf Hs; simpl; [eauto|].
  destruct (Hf s a) as (s1 & -> & Hs1); [now left | assumption|]. simpl.
  apply IH; [|assumption]. intros s0 a0 Ha0. apply Hf. now right.
Qed.

Lemma rbind_returns {A B} (I : A -> Prop) (J : B -> Prop)
    (r : result A) (k : A -> result B) :
  (exists a, r = Ret a /\ I a) ->
  (forall a, I a -> exists b, k a = Ret b /\ J b) ->
  exists b, rbind r k = Ret b /\ J b.
Proof. intros (a & -> & Ha) Hk. simpl. now apply Hk. Qed.

(** With at least three rows in the table (or an interval of 1, for which
    there is nothing to distribute) every index of lines 265-288 is in
    range. *)
Lemma weighting_loops_in_range c_c c_b S Y k W n :
  (1 <= k)%Z ->
  table_shape (Z.to_nat (k - 1)) 3 c_c -> table_shape (Z.to_nat (k - 1)) 4 c_b ->
  length S = n -> table_shape n 3 Y ->
  table_shape (Z.to_nat ((Z.of_nat n - 1) / k + 1)) 3 W ->
  (2 <= k -> 2 * k + 1 <= Z.of_nat n)%Z ->
  exists W', weighting_loops c_c c_b S Y k W = Ret W' /\
             table_shape (Z.to_nat ((Z.of_nat n - 1) / k + 1)) 3 W'.
Proof.
  intros Hk Hcc Hcb HS HY HW Hsize.
  set (m := ((Z.of_nat n - 1) / k)%Z) in *.
  assert (Hdm : (Z.of_nat n - 1 = k * m + (Z.of_nat n - 1) mod k)%Z)
    by (apply Z.div_mod; lia).
  assert (Hmod : (0 <= (Z.of_nat n - 1) mod k < k)%Z)
    by (apply Z.mod_pos_bound; lia).
  assert (Hm : (-1 <= m)%Z) by nia.
  assert (Hm2 : (2 <= k -> 2 <= m)%Z) by (intros H2; specialize (Hsize H2); nia).
  unfold weighting_loops.
  rewrite (proj1 HY), (proj1 Hcb), (proj1 HW).
  replace (Z.of_nat (Z.to_nat (k - 1))) with (k - 1)%Z by lia.
  replace (Z.of_nat (Z.to_nat (m + 1))) with (m + 1)%Z by lia.
  set (I := table_shape (Z.to_nat (m + 1)) 3).
  apply (foldM_invariant I); [|assumption].
  intros W0 i Hi HW0. apply zrange_In in Hi.
  (* First interval. *)
  apply (rbind_returns I I).
  { apply (foldM_invariant I); [|assumption].
    intros W' j Hj HW'. apply zrange_In in Hj.
    apply (foldM_invariant I); [|assumption].
    intros W'' k0 Hk0 HW''. apply zrange_In in Hk0.
    specialize (Hm2 ltac:(lia)).
    destruct (weighted_product_in_range (Z.to_nat (k - 1)) 3 n
                c_c j k0 S Y (j + 1) i) as [v ->]; try assumption; try lia.
    apply add_at_in_range; [assumption | lia | lia]. }
  intros W1 HW1.
  (* Last interval. *)
  apply (rbind_returns I I).
  { apply (foldM_invariant I); [|assumption].
    intros W' j Hj HW'. apply zrange_In in Hj.
    apply (foldM_invariant I); [|assumption].
    intros W'' k0 Hk0 HW''. apply zrange_down_In in Hk0.
    specialize (Hm2 ltac:(lia)).
    destruct (weighted_product_in_range (Z.to_nat (k - 1)) 3 n
                c_c (k - 1 - j - 1) (m + 1 - 1 - k0) S Y
                (j + (Z.of_nat n - (Z.of_nat n - 1) mod k - 1 - (k - 1))) i)
      as [v ->]; try assumption; try lia; try nia.
    apply add_at_in_range; [assumption | lia | lia]. }
  intros W2 HW2.
  (* Intermediate intervals. *)
  apply (rbind_returns I I).
  { apply (foldM_invariant I); [|assumption].
    intros W' j Hj HW'. apply zrange_In in Hj.
    apply (foldM_invariant I); [|assumption].
    intros W'' k0 Hk0 HW''. apply zrange_In in Hk0. cbv zeta.
    assert (Hw : (0 <= (k - 1 + 1) * (j + 1) + 1 + k0 < Z.of_nat n)%Z) by nia.
    apply (rbind_returns I I).
    { destruct (weighted_product_in_range (Z.to_nat (k - 1)) 4 n c_b k0 0 S Y
                  ((k - 1 + 1) * (j + 1) + 1 + k0) i) as [v ->];
        try assumption; try lia.
      apply add_at_in_range; [assumption | lia | lia]. }
    intros Wa HWa. apply (rbind_returns I I).
    { destruct (weighted_product_in_range (Z.to_nat (k - 1)) 4 n c_b k0 1 S Y
                  ((k - 1 + 1) * (j + 1) + 1 + k0) i) as [v ->];
        try assumption; try lia.
      apply add_at_in_range; [assumption | lia | lia]. }
    intros Wb HWb. apply (rbind_returns I I).
    { destruct (weighted_product_in_range (Z.to_nat (k - 1)) 4 n c_b k0 2 S Y
                  ((k - 1 + 1) * (j + 1) + 1 + k0) i) as [v ->];
        try assumption; try lia.
      apply add_at_in_range; [assumption | lia | lia]. }
    intros Wc HWc.
    destruct (weighted_product_in_range (Z.to_nat (k - 1)) 4 n c_b k0 3 S Y
                ((k - 1 + 1) * (j + 1) + 1 + k0) i) as [v ->];
      try assumption; try lia.
    apply add_at_in_range; [assumption | lia | lia]. }
  intros W3 HW3.
  (* Extrapolation of incomplete interval. *)
  apply (foldM_invariant I); [|assumption].
  intros W' j Hj HW'. apply zrange_In in Hj.
  destruct (get1_in_range S j) as [s ->]; [lia|]. simpl.
  destruct (get2_in_range n 3 Y j i HY) as [y ->]; [lia | lia|]. simpl.
  apply add_at_in_range; [assumption | lia | lia].
Qed.

(** ** The Lagrange builder and its cache *)

Section BuilderProperties.

Variable str_shape : SpectralShape -> string.

Local Abbreviation weighting_factors :=
  (tristimulus_weighting_factors_ASTME202211 str_shape).
Local Abbreviation LAG := LAGRANGE_INTERPOLATING_COEFFICIENTS_CACHE.
Local Abbreviation TWF := TRISTIMULUS_WEIGHTING_FACTORS_CACHE.




Lemma lagrange_twf_cache n t st :
  TWF (snd (lagrange_coefficients_ASTME202211 n t st)) = TWF st.
Proof.
  unfold lagrange_coefficients_ASTME202211.
  destruct (ci_lookup _ _); [reflexivity|].
  destruct (lagrange_compute n t); reflexivity.
Qed.



Lemma lagrange_preserves_ok n t st :
  lagrange_cache_ok st ->
  lagrange_cache_ok (snd (lagrange_coefficients_ASTME202211 n t st)).
Proof.
  intros Hok. unfold lagrange_coefficients_ASTME202211, ci_lookup, ci_insert.
  assert (Hd : forall key lica, default ∅ (LAG st) !! key = Some lica ->
            exists n t, key = lower (name_lica n t) /\ lagrange_compute n t = Ret lica).
  { intros key lica. destruct (LAG st) as [c|] eqn:E; simpl.
    - apply (Hok c key lica E).
    - rewrite lookup_empty. discriminate. }
  destruct (default ∅ (LAG st) !! lower (name_lica n t)) eqn:E; simpl.
  - intros c key lica [= <-]. apply Hd.
  - destruct (lagrange_compute n t) as [lica0|e] eqn:Ec; simpl.
    + intros c key lica [= <-] Hk.
      destruct (decide (lower (name_lica n t) = key)) as [<-|Hne].
      * rewrite lookup_insert_eq in Hk. injection Hk as <-. eauto.
      * rewrite lookup_insert_ne in Hk by assumption. now apply Hd.
    + intros c key lica [= <-]. apply Hd.
Qed.

(** With a consistent cache, whatever the builder returns is the matrix
    computed from its arguments, on a hit as well as on a miss. *)
Lemma lagrange_returns_computed n t st lica st' :
  lagrange_cache_ok st ->
  lagrange_coefficients_ASTME202211 n t st = (Ret lica, st') ->
  lagrange_compute n t = Ret lica.
Proof.
  intros Hok. unfold lagrange_coefficients_ASTME202211, ci_lookup.
  destruct (default ∅ (LAG st) !! lower (name_lica n t)) as [m|] eqn:E.
  - intros [= <- _].
    destruct (LAG st) as [c|] eqn:Ec; simpl in E;
      [|rewrite lookup_empty in E; discriminate].
    destruct (Hok c _ m Ec E) as (n' & t' & Hkey & Hm).
    apply name_lica_inj in Hkey as [-> Ht].
    now rewrite (lagrange_compute_lower n' t t' Ht).
  - destruct (lagrange_compute n t); intros [= <- _]; reflexivity.
Qed.

(** For a positive interval the builder always returns. *)
Lemma lagrange_total n t st :
  (1 <= n)%Z ->
  exists lica, fst (lagrange_coefficients_ASTME202211 n t st) = Ret lica.
Proof.
  intros Hn. unfold lagrange_coefficients_ASTME202211.
  destruct (ci_lookup _ _); simpl; [eauto|].
  destruct (lagrange_compute_returns n t Hn) as [lica ->]. simpl. eauto.
Qed.

(** *** Sequences of Lagrange calls *)

Lemma lagrange_steps_twf_cache st st' :
  lagrange_steps st st' -> TWF st' = TWF st.
Proof.
  induction 1 as [|st n t st' _ IH]; [reflexivity|].
  now rewrite IH, lagrange_twf_cache.
Qed.

Lemma lagrange_steps_ok st st' :
  lagrange_steps st st' -> lagrange_cache_ok st -> lagrange_cache_ok st'.
Proof.
  induction 1 as [|st n t st' _ IH]; [auto|].
  intros Hok. apply IH. now apply lagrange_preserves_ok.
Qed.


Lemma lagrange_steps_trans st1 st2 st3 :
  lagrange_steps st1 st2 -> lagrange_steps st2 st3 -> lagrange_steps st1 st3.
Proof.
  induction 1 as [|st n t st' _ IH]; [auto|].
  intros H. eapply lagrange_steps_call. now apply IH.
Qed.

Lemma every_nth_length {A} fuel s (l : list A) :
  (1 <= s)%nat -> (length l <= fuel)%nat ->
  length (every_nth fuel s l) = ((length l + s - 1) / s)%nat.
Proof.
  intros Hs. revert l. induction fuel as [|fuel IH]; intros l Hl.
  - destruct l; simpl in *; [|lia].
    symmetry. apply Nat.div_small. lia.
  - destruct l as [|x l].
    + symmetry. apply Nat.div_small. simpl. lia.
    + assert (Hn : (1 <= length (x :: l) <= S fuel)%nat) by (simpl in *; lia).
      change (every_nth (S fuel) s (x :: l))
        with (x :: every_nth fuel s (drop s (x :: l))).
      change (length (x :: every_nth fuel s (drop s (x :: l))))
        with (S (length (every_nth fuel s (drop s (x :: l))))).
      rewrite IH by (rewrite length_drop; lia).
      rewrite length_drop. revert Hn. generalize (length (x :: l)) as n.
      intros n Hn.
      destruct (le_lt_dec s n) as [Hle|Hlt].
      * replace (n + s - 1)%nat with ((n - s + s - 1) + 1 * s)%nat by lia.
        rewrite Nat.div_add by lia. lia.
      * replace (n - s + s - 1)%nat with (s - 1)%nat by lia.
        rewrite (Nat.div_small (s - 1) s) by lia.
        apply (Nat.div_unique _ _ _ (n - 1)); lia.
Qed.

Lemma every_nth_Forall {A} (P : A -> Prop) fuel s (l : list A) :
  Forall P l -> Forall P (every_nth fuel s l).
Proof.
  revert l. induction fuel as [|fuel IH]; intros l Hl; simpl; [constructor|].
  destruct l as [|x l]; [constructor|].
  constructor; [now inversion Hl|]. apply IH. now apply Forall_drop.
Qed.

(** The number of rows of a table sliced with a positive step. *)
Lemma np_slice_step_rows {A} (l : list A) k :
  (1 <= k)%Z ->
  exists l', np_slice_step l k = Ret l' /\
    length l' = Z.to_nat ((Z.of_nat (length l) - 1) / k + 1) /\
    forall P, Forall P l -> Forall P l'.
Proof.
  intros Hk. unfold np_slice_step.
  destruct (k =? 0)%Z eqn:E0; [apply Z.eqb_eq in E0; lia|].
  destruct (0 <? k)%Z eqn:E1; [|apply Z.ltb_ge in E1; lia].
  eexists; split; [reflexivity|]. split; [|intros P; apply every_nth_Forall].
  rewrite every_nth_length by lia.
  apply Nat2Z.inj. rewrite Nat2Z.inj_div.
  assert (Hpos : (0 <= (Z.of_nat (length l) - 1) / k + 1)%Z).
  { assert (-1 <= (Z.of_nat (length l) - 1) / k)%Z; [|lia].
    apply Z.div_le_lower_bound; lia. }
  rewrite (Z2Nat.id ((Z.of_nat (length l) - 1) / k + 1)) by assumption.
  rewrite (Z2Nat.id k) by lia.
  replace (Z.of_nat (length l + Z.to_nat k - 1))
    with ((Z.of_nat (length l) - 1) + 1 * k)%Z by lia.
  apply Z.div_add. lia.
Qed.

Lemma cmfs_values_shape cmfs :
  table_shape (length (cmfs_data cmfs)) 3 (cmfs_values cmfs).
Proof.
  unfold cmfs_values. split; [apply length_map|].
  apply Forall_forall. intros row Hrow.
  apply list_elem_of_fmap in Hrow as (p & -> & _). reflexivity.
Qed.

Lemma np_multiply_rows_shape s y n :
  length s = n -> table_shape n 3 y ->
  exists W, np_multiply_rows s y = Ret W /\ table_shape n 3 W.
Proof.
  intros Hs [Hy Hrows]. unfold np_multiply_rows.
  rewrite Hs, Hy, Nat.eqb_refl.
  eexists; split; [reflexivity|]. split.
  - rewrite length_zip_with. lia.
  - clear Hy. revert s n Hs. induction y as [|row y IH]; intros [|a s] n Hs;
      simpl; try constructor.
    + rewrite length_map. now inversion Hrows.
    + apply (IH ltac:(now inversion Hrows) s (length s) eq_refl).
Qed.

Lemma column_sum_in_range rows W c :
  (c < 3)%nat -> table_shape rows 3 W ->
  exists s, column_sum W (Z.of_nat c) = Ret s.
Proof.
  intros Hc [_ Hrows]. unfold column_sum.
  assert (H : exists col, mapM (fun row => get1 row (Z.of_nat c)) W = Ret col).
  { induction Hrows as [|row W Hrow _ [col IH]]; simpl; [eauto|].
    destruct (get1_in_range row (Z.of_nat c)) as [x ->]; [lia|]. simpl.
    rewrite IH. simpl. eauto. }
  destruct H as [col ->]. simpl. eauto.
Qed.

Lemma as_integer_of_Z q k : q == inject_Z k -> as_integer q = Ret k.
Proof.
  intros H. unfold as_integer.
  rewrite (Qfloor_comp _ _ H), Qfloor_Z.
  now rewrite (proj2 (Qeq_bool_iff q (inject_Z k)) H).
Qed.

(** For a positive interval and a consistent cache the builder returns a
    matrix of [interval - 1] rows and [degree] columns, and the cache stays
    consistent. *)
Lemma lagrange_call_shape n t st :
  lagrange_cache_ok st -> (1 <= n)%Z ->
  exists lica st',
    lagrange_coefficients_ASTME202211 n t st = (Ret lica, st') /\
    lagrange_cache_ok st' /\
    table_shape (Z.to_nat (n - 1)) (degree t) lica.
Proof.
  intros Hok Hn.
  destruct (lagrange_coefficients_ASTME202211 n t st) as [r st'] eqn:E.
  assert (Hok' : lagrange_cache_ok st').
  { change st' with (snd (r, st')). rewrite <- E.
    now apply lagrange_preserves_ok. }
  destruct (lagrange_total n t st Hn) as [lica Hl].
  rewrite E in Hl. simpl in Hl. subst r.
  exists lica, st'. split; [reflexivity|]. split; [assumption|].
  apply (lagrange_returns_computed n t st lica st' Hok) in E.
  apply lagrange_compute_rows in E as [Hlen Hrows]. split; [assumption|].
  eapply Forall_impl; [exact Hrows|].
  intros row [r ->]. apply lagrange_coefficients_length.
Qed.

(** Lines 244-288 complete when the CMFS and the illuminant have the same
    number of samples and, for an interval above 1, the samples span at
    least two full intervals. *)
Lemma twf_table_returns cmfs illuminant shape st k :
  lagrange_cache_ok st ->
  interval shape == inject_Z k -> (1 <= k)%Z ->
  length (spd_data illuminant) = length (cmfs_data cmfs) ->
  (2 <= k -> 2 * k + 1 <= Z.of_nat (length (cmfs_data cmfs)))%Z ->
  exists W st' rows,
    twf_table cmfs illuminant shape st = (Ret W, st') /\ table_shape rows 3 W.
Proof.
  intros Hok Hint Hk Hlen Hsize.
  set (n := length (cmfs_data cmfs)) in *.
  assert (HS : length (spd_values illuminant) = n)
    by (unfold spd_values; now rewrite length_map).
  pose proof (cmfs_values_shape cmfs) as HY. fold n in HY.
  unfold twf_table, mbind, lift.
  rewrite (as_integer_of_Z _ _ Hint).
  destruct (np_slice_step_rows (spd_values illuminant) k Hk)
    as (s & -> & Hs & _).
  destruct (np_slice_step_rows (cmfs_values cmfs) k Hk) as (y & -> & Hy & HyP).
  simpl. rewrite HS in Hs. rewrite (proj1 HY) in Hy.
  destruct (np_multiply_rows_shape s y _ Hs) as (W & -> & HW).
  { split; [assumption|]. apply HyP, HY. }
  destruct (lagrange_call_shape k "boundary" st Hok Hk)
    as (c_c & st1 & -> & Hok1 & Hcc).
  destruct (lagrange_call_shape k "inner" st1 Hok1 Hk)
    as (c_b & st2 & -> & Hok2 & Hcb).
  destruct (weighting_loops_in_range c_c c_b (spd_values illuminant)
              (cmfs_values cmfs) k W n Hk Hcc Hcb HS HY HW Hsize)
    as (W' & -> & HW').
  eauto.
Qed.

(** ** The weighting factor builder *)

Lemma mbind_lift_steps {A B} (r : result A) (k : A -> M B) st res st' :
  (forall a st0 res0 st0', k a st0 = (res0, st0') -> lagrange_steps st0 st0') ->
  mbind (lift r) k st = (res, st') -> lagrange_steps st st'.
Proof.
  intros Hk. unfold mbind, lift. destruct r as [a|e].
  - apply Hk.
  - intros [= _ <-]. constructor.
Qed.

Lemma mbind_lagrange_steps {B} n t (k : matrix -> M B) st res st' :
  (forall a st0 res0 st0', k a st0 = (res0, st0') -> lagrange_steps st0 st0') ->
  mbind (lagrange_coefficients_ASTME202211 n t) k st = (res, st') ->
  lagrange_steps st st'.
Proof.
  intros Hk. unfold mbind.
  destruct (lagrange_coefficients_ASTME202211 n t st) as [[a|e] st1] eqn:E.
  - intros H. apply Hk in H. eapply lagrange_steps_call. now rewrite E.
  - intros [= _ <-]. eapply lagrange_steps_call. rewrite E. constructor.
Qed.

(** Building a table only touches the caches through the Lagrange builder. *)
Lemma twf_table_steps cmfs illuminant shape st res st' :
  twf_table cmfs illuminant shape st = (res, st') -> lagrange_steps st st'.
Proof.
  unfold twf_table.
  apply mbind_lift_steps; intros step ? ? ?.
  apply mbind_lift_steps; intros W ? ? ?.
  apply mbind_lagrange_steps; intros c_c ? ? ?.
  apply mbind_lagrange_steps; intros c_b ? ? ?.
  unfold lift. intros [= _ <-]. constructor.
Qed.

Lemma twf_build_steps cmfs illuminant shape st res st' :
  twf_build cmfs illuminant shape st = (res, st') -> lagrange_steps st st'.
Proof.
  unfold twf_build, mbind.
  destruct (twf_table cmfs illuminant shape st) as [[W|e] st1] eqn:E;
    apply twf_table_steps in E.
  - unfold lift. now intros [= _ <-].
  - now intros [= _ <-].
Qed.

Lemma get1_lookup {A} (a : list A) (k : nat) x :
  get1 a (Z.of_nat k) = Ret x -> a !! k = Some x.
Proof.
  unfold get1, np_index.
  destruct ((0 <=? Z.of_nat k) && (Z.of_nat k <? Z.of_nat (length a)))%Z eqn:E; simpl.
  - rewrite Nat2Z.id. destruct (a !! k); [now intros [= ->] | discriminate].
  - destruct ((- Z.of_nat (length a) <=? Z.of_nat k) && (Z.of_nat k <? 0))%Z eqn:E';
      [|discriminate].
    apply andb_true_iff in E' as [_ E']. apply Z.ltb_lt in E'. lia.
Qed.

Lemma xsum_scaled (col : list Q) (f : Q) :
  exists q, xsum (map (fun x => Some (x * f)) col) = Some q /\ q == Qsum col * f.
Proof.
  induction col as [|x col (q & Hq & Heq)]; simpl.
  - exists 0. split; [reflexivity|]. unfold Qsum; simpl. ring.
  - rewrite Hq. eexists; split; [reflexivity|].
    unfold Qsum in *; simpl. rewrite Heq. ring.
Qed.

Lemma xcolumn_scaled (W : matrix) (f : Q) col :
  mapM (fun row => get1 row 1%Z) W = Ret col ->
  xcolumn (scale (Some f) W) 1 = map (fun x => Some (x * f)) col.
Proof.
  revert col. induction W as [|row W IH]; intros col; simpl.
  - now intros [= <-].
  - destruct (get1 row 1%Z) as [x|] eqn:Ex; simpl; [|discriminate].
    destruct (mapM _ W) as [col'|] eqn:Ec; simpl; [|discriminate].
    intros [= <-]. simpl. rewrite (IH col' eq_refl). f_equal.
    apply (get1_lookup row 1%nat) in Ex.
    rewrite list_lookup_fmap, Ex. reflexivity.
Qed.

Lemma scale_inf_nowhere_finite (W : matrix) : nowhere_finite (scale None W).
Proof.
  unfold nowhere_finite, scale.
  apply Forall_forall. intros row Hrow.
  apply list_elem_of_fmap in Hrow as (r & -> & _).
  apply Forall_forall. intros x Hx.
  apply list_elem_of_fmap in Hx as (y & -> & _). reflexivity.
Qed.

(** Line 290 does what it is there for: after the scaling the Y column sums
    to 100, unless the sum it divides by is zero. *)
Lemma normalise_spec (W : matrix) (T : xmatrix) :
  normalise W = Ret T ->
  exists s, column_sum W 1 = Ret s /\
    (~ s == 0 -> Y_sums_to_100 T) /\ (s == 0 -> nowhere_finite T).
Proof.
  unfold normalise, column_sum.
  destruct (mapM _ W) as [col|] eqn:Ec; simpl; [|discriminate].
  intros [= <-]. exists (Qsum col). split; [reflexivity|].
  unfold np_divide. destruct (Qeq_bool (Qsum col) 0) eqn:E.
  - apply Qeq_bool_iff in E. split; [contradiction|].
    intros _. apply scale_inf_nowhere_finite.
  - apply Qeq_bool_neq in E. split; [|contradiction].
    intros _. unfold Y_sums_to_100.
    rewrite (xcolumn_scaled W _ col Ec).
    destruct (xsum_scaled col (100 / Qsum col)) as (q & Hq & Heq).
    exists q. split; [assumption|]. rewrite Heq. now field.
Qed.

Lemma normalise_normalised (W : matrix) (T : xmatrix) :
  normalise W = Ret T -> Y_sums_to_100 T \/ nowhere_finite T.
Proof.
  intros H. destruct (normalise_spec W T H) as (s & _ & Hnz & Hz).
  destruct (Qeq_dec s 0); [right | left]; auto.
Qed.

(** The build returns exactly when the table could be computed, and then
    its normalisation. *)
Lemma twf_build_normalised cmfs illuminant shape st T st' :
  twf_build cmfs illuminant shape st = (Ret T, st') <->
  exists W, twf_table cmfs illuminant shape st = (Ret W, st')
            /\ normalise W = Ret T.
Proof.
  unfold twf_build, mbind, lift.
  destruct (twf_table cmfs illuminant shape st) as [[W|e] st1]; split.
  - destruct (normalise W) eqn:E; intros [= <- <-]. eauto.
  - intros (W' & [= <- <-] & ->). reflexivity.
  - discriminate.
  - intros (W' & [=] & _).
Qed.

(** *** One call of the weighting factor builder *)

Lemma intervals_ok_checks cmfs illuminant :
  intervals_ok cmfs illuminant ->
  negb (Qeq_bool (interval (cmfs_shape cmfs)) 1) = false /\
  negb (Qeq_bool (interval (spd_shape illuminant)) 1) = false.
Proof.
  intros [H1 H2]. apply Qeq_bool_iff in H1, H2. now rewrite H1, H2.
Qed.


Lemma twf_build_twf_cache cmfs illuminant shape st res st' :
  twf_build cmfs illuminant shape st = (res, st') -> TWF st' = TWF st.
Proof. intros H. apply twf_build_steps in H. now apply lagrange_steps_twf_cache. Qed.

(** The shape of a call of the builder: it raises on an interval check and
    leaves the caches alone, or it goes through Lagrange calls only and then
    possibly writes one table under its key. *)
Lemma twf_call_cases cmfs illuminant shape st :
  let res := weighting_factors cmfs illuminant shape st in
  let key := lower (name_twf str_shape cmfs illuminant shape) in
  let cache := default ∅ (TWF st) in
  (exists who, res = (Raise (IntervalMismatch who), st)
               /\ ~ intervals_ok cmfs illuminant)
  \/ (intervals_ok cmfs illuminant /\
      exists T, cache !! key = Some T /\ res = (Ret T, set_twf cache st))
  \/ (intervals_ok cmfs illuminant /\ cache !! key = None /\
      exists e st1, twf_build cmfs illuminant shape (set_twf cache st)
                      = (Raise e, st1) /\ res = (Raise e, st1))
  \/ (intervals_ok cmfs illuminant /\ cache !! key = None /\
      exists T st1, twf_build cmfs illuminant shape (set_twf cache st)
                      = (Ret T, st1) /\
                    res = (Ret T, set_twf (<[key := T]> cache) st1)).
Proof.
  simpl. unfold tristimulus_weighting_factors_ASTME202211, ci_lookup, ci_insert,
    intervals_ok.
  destruct (Qeq_bool (interval (cmfs_shape cmfs)) 1) eqn:E1; simpl.
  2:{ left. eexists; split; [reflexivity|]. apply Qeq_bool_neq in E1. tauto. }
  destruct (Qeq_bool (interval (spd_shape illuminant)) 1) eqn:E2; simpl.
  2:{ left. eexists; split; [reflexivity|]. apply Qeq_bool_neq in E2. tauto. }
  apply Qeq_bool_iff in E1, E2. right.
  destruct (default ∅ (TWF st) !! _) as [T|] eqn:Ek.
  - left. eauto.
  - right. destruct (twf_build _ _ _ _) as [[T|e] st1] eqn:Eb.
    + right. eauto 10.
    + left. eauto 10.
Qed.

Lemma set_twf_lagrange c st : LAG (set_twf c st) = LAG st.
Proof. reflexivity. Qed.

Lemma set_twf_twf c st : TWF (set_twf c st) = Some c.
Proof. reflexivity. Qed.

Lemma default_cache_lookup {V} (o : option (gmap string V)) c key v :
  o = Some c -> c !! key = Some v -> default ∅ o !! key = Some v.
Proof. now intros ->. Qed.

Lemma twf_stores cmfs illuminant shape st T st' :
  weighting_factors cmfs illuminant shape st = (Ret T, st') ->
  exists c, TWF st' = Some c /\
            c !! lower (name_twf str_shape cmfs illuminant shape) = Some T.
Proof.
  intros H.
  destruct (twf_call_cases cmfs illuminant shape st)
    as [(who & Hr & _) | [(_ & T0 & Hk & Hr) | [(_ & _ & e & st1 & _ & Hr)
       | (_ & _ & T0 & st1 & _ & Hr)]]]; rewrite H in Hr; simplify_eq.
  - eexists; split; [apply set_twf_twf | assumption].
  - eexists; split; [apply set_twf_twf | apply lookup_insert_eq].
Qed.


Lemma lagrange_cache_ok_ext st st' :
  LAG st' = LAG st -> lagrange_cache_ok st -> lagrange_cache_ok st'.
Proof. unfold lagrange_cache_ok. intros ->. auto. Qed.

Lemma twf_preserves_lagrange_ok cmfs illuminant shape st :
  lagrange_cache_ok st ->
  lagrange_cache_ok (snd (weighting_factors cmfs illuminant shape st)).
Proof.
  intros Hok.
  assert (Hok' : lagrange_cache_ok (set_twf (default ∅ (TWF st)) st))
    by (eapply lagrange_cache_ok_ext; [apply set_twf_lagrange | assumption]).
  destruct (twf_call_cases cmfs illuminant shape st)
    as [(who & Hr & _) | [(_ & T0 & Hk0 & Hr) | [(_ & Hn & e & st1 & Hb & Hr)
       | (_ & Hn & T0 & st1 & Hb & Hr)]]]; rewrite Hr; simpl; auto.
  - apply twf_build_steps in Hb. now apply (lagrange_steps_ok _ _ Hb).
  - apply twf_build_steps in Hb.
    eapply lagrange_cache_ok_ext; [apply set_twf_lagrange|].
    now apply (lagrange_steps_ok _ _ Hb).
Qed.


Lemma twf_preserves_twf_ok cmfs illuminant shape st :
  twf_cache_ok st ->
  twf_cache_ok (snd (weighting_factors cmfs illuminant shape st)).
Proof.
  intros Hok.
  assert (Hd : forall key T, default ∅ (TWF st) !! key = Some T ->
                 Y_sums_to_100 T \/ nowhere_finite T).
  { intros key T. destruct (TWF st) as [c|] eqn:E; simpl.
    - apply (Hok c key T E).
    - rewrite lookup_empty. discriminate. }
  destruct (twf_call_cases cmfs illuminant shape st)
    as [(who & Hr & _) | [(_ & T0 & Hk0 & Hr) | [(_ & Hn & e & st1 & Hb & Hr)
       | (_ & Hn & T0 & st1 & Hb & Hr)]]]; rewrite Hr; simpl; auto.
  - intros c key T [= <-]. apply Hd.
  - intros c key T. rewrite (twf_build_twf_cache _ _ _ _ _ _ Hb).
    intros [= <-]. apply Hd.
  - intros c key T [= <-] Hk.
    destruct (decide (lower (name_twf str_shape cmfs illuminant shape) = key))
      as [<-|Hne].
    + rewrite lookup_insert_eq in Hk. injection Hk as <-.
      apply twf_build_normalised in Hb as (W & _ & HW).
      now apply (normalise_normalised W).
    + rewrite lookup_insert_ne in Hk by assumption. now apply (Hd key).
Qed.

(** *** Histories *)





(** Both cache invariants hold in every state a process can reach. *)
Lemma reachable_ok st :
  reachable str_shape st -> lagrange_cache_ok st /\ twf_cache_ok st.
Proof.
  induction 1 as [|st c0 _ [IH1 IH2]].
  - split; intros c key v; discriminate.
  - destruct c0; simpl; split.
    + now apply lagrange_preserves_ok.
    + intros c key T. rewrite lagrange_twf_cache. apply IH2.
    + now apply twf_preserves_lagrange_ok.
    + now apply twf_preserves_twf_ok.
Qed.

(** ** Claims about the two builders *)

(** C5.  The weighting factor builder raises its interval error exactly when
    the interval of the CMFS or of the illuminant is not 1; the error names
    the first operand that fails the check, and the caches are then exactly
    what they were before the call: no entry is added. *)
Theorem interval_mismatch_iff cmfs illuminant shape st :
  let res := tristimulus_weighting_factors_ASTME202211 str_shape
               cmfs illuminant shape st in
  ((exists who, fst res = Raise (IntervalMismatch who)) <->
   (~ interval (cmfs_shape cmfs) == 1
    \/ ~ interval (spd_shape illuminant) == 1))
  /\ (forall who, fst res = Raise (IntervalMismatch who) ->
        snd res = st /\
        who = (if Qeq_bool (interval (cmfs_shape cmfs)) 1
               then OperandSPD illuminant else OperandCMFS cmfs)).
Proof.
  simpl.
  destruct (twf_call_cases cmfs illuminant shape st)
    as [(who & Hr & Hn) | [(Hi & T0 & Hk0 & Hr) | [(Hi & Hk & e & st1 & Hb & Hr)
       | (Hi & Hk & T0 & st1 & Hb & Hr)]]].
  - (* an interval check fails *)
    split.
    + split; [|intros _; rewrite Hr; simpl; eauto].
      intros _. unfold intervals_ok in Hn.
      destruct (Qeq_dec (interval (cmfs_shape cmfs)) 1); [right|left]; tauto.
    + intros who' Hw. split; [now rewrite Hr|].
      revert Hw. unfold tristimulus_weighting_factors_ASTME202211.
      destruct (Qeq_bool (interval (cmfs_shape cmfs)) 1) eqn:E1; simpl.
      * destruct (Qeq_bool (interval (spd_shape illuminant)) 1) eqn:E2; simpl.
        -- exfalso. apply Hn. split; now apply Qeq_bool_iff.
        -- now intros [= <-].
      * now intros [= <-].
  - (* hit *)
    rewrite Hr; simpl. destruct Hi as [H1 H2].
    split; [split|]; [intros [who [=]] | tauto | intros who [=]].
  - (* the build raises: a library exception *)
    pose proof (raises_twf_build cmfs illuminant shape
                  (set_twf (default ∅ (TWF st)) st)) as Hl.
    rewrite Hb in Hl. simpl in Hl. rewrite Hr; simpl. destruct Hi as [H1 H2].
    split; [split|]; [intros [who [= ->]]; destruct Hl | tauto
                     | intros who [= ->]; destruct Hl].
  - rewrite Hr; simpl. destruct Hi as [H1 H2].
    split; [split|]; [intros [who [=]] | tauto | intros who [=]].
Qed.

(** Whatever table the builder returns in a reachable state, built or
    cached, is normalised or holds no finite number. *)
Lemma returned_table_normalised cmfs illuminant shape st T st' :
  reachable str_shape st ->
  tristimulus_weighting_factors_ASTME202211 str_shape cmfs illuminant shape st
  = (Ret T, st') ->
  Y_sums_to_100 T \/ nowhere_finite T.
Proof.
  intros Hreach Hcall.
  destruct (twf_stores _ _ _ _ _ _ Hcall) as (c & Hc & Hk).
  assert (Hok : twf_cache_ok st').
  { change st' with (snd (Ret T, st')). rewrite <- Hcall.
    apply twf_preserves_twf_ok. now apply reachable_ok. }
  exact (Hok c _ T Hc Hk).
Qed.

(** On a miss, the builder returns the normalisation of the table of lines
    244-288 whenever that table could be computed. *)
Lemma weighting_factors_miss cmfs illuminant shape st W st1 :
  intervals_ok cmfs illuminant ->
  default ∅ (TWF st) !! lower (name_twf str_shape cmfs illuminant shape)
  = None ->
  twf_table cmfs illuminant shape (set_twf (default ∅ (TWF st)) st)
  = (Ret W, st1) ->
  fst (tristimulus_weighting_factors_ASTME202211 str_shape
         cmfs illuminant shape st)
  = normalise W.
Proof.
  intros Hi Hmiss Htable.
  apply intervals_ok_checks in Hi as [H1 H2].
  unfold tristimulus_weighting_factors_ASTME202211, ci_lookup.
  rewrite H1, H2, Hmiss.
  unfold twf_build, mbind, lift. rewrite Htable.
  destruct (normalise W); reflexivity.
Qed.

(** C1 (as amended).  For a CMFS and an illuminant that pass the two
    interval checks, in every reachable state of the caches:
    - on a hit the table stored under the key is returned as it is; its Y
      column sums to 100 or it holds no finite number, according to the data
      it was built from, which need not be the data of this call;
    - on a miss on which lines 244-288 complete with a table [W] whose Y
      column sums to [s], the builder returns [W] with every entry
      multiplied by [100 / s], a table whose Y column sums to 100, when [s]
      is not zero, and a table of the size of [W] without any finite entry
      when [s] is zero;
    - lines 244-288 complete when the CMFS and the illuminant have the same
      number of samples, the interval of the shape is an integer [k >= 1]
      and, for [k >= 2], there are at least [2 k + 1] samples; the builder
      then returns a table, on a hit as on a miss. *)
Theorem weighting_factors_Y_column cmfs illuminant shape st :
  reachable str_shape st ->
  intervals_ok cmfs illuminant ->
  let key := lower (name_twf str_shape cmfs illuminant shape) in
  let cache := default ∅ (TRISTIMULUS_WEIGHTING_FACTORS_CACHE st) in
  let res := fst (tristimulus_weighting_factors_ASTME202211 str_shape
                    cmfs illuminant shape st) in
  (forall T0,
     cache !! key = Some T0 ->
     res = Ret T0 /\ (Y_sums_to_100 T0 \/ nowhere_finite T0))
  /\
  (forall W st1 s,
     cache !! key = None ->
     twf_table cmfs illuminant shape (set_twf cache st) = (Ret W, st1) ->
     column_sum W 1 = Ret s ->
     (~ s == 0 ->
      res = Ret (map (map (fun w => Some (w * (100 / s)))) W) /\
      Y_sums_to_100 (map (map (fun w => Some (w * (100 / s)))) W))
     /\
     (s == 0 ->
      res = Ret (map (map (fun _ => None)) W) /\
      nowhere_finite (map (map (fun _ : Q => @None Q)) W)))
  /\
  (forall k,
     interval shape == inject_Z k -> (1 <= k)%Z ->
     length (spd_data illuminant) = length (cmfs_data cmfs) ->
     (2 <= k -> 2 * k + 1 <= Z.of_nat (length (cmfs_data cmfs)))%Z ->
     (exists W st1 s,
        twf_table cmfs illuminant shape (set_twf cache st) = (Ret W, st1) /\
        column_sum W 1 = Ret s)
     /\
     exists T, res = Ret T /\ (Y_sums_to_100 T \/ nowhere_finite T)).
Proof.
  intros Hreach Hi key cache res. split; [|split].
  - intros T0 Hhit.
    destruct (twf_call_cases cmfs illuminant shape st)
      as [(who & _ & Hno) | [(_ & T & Hk & Hr) | [(_ & Hn & _)
         | (_ & Hn & _)]]].
    + contradiction.
    + fold key cache in Hk. rewrite Hhit in Hk. injection Hk as <-.
      split; [unfold res; now rewrite Hr|].
      exact (returned_table_normalised _ _ _ _ _ _ Hreach Hr).
    + fold key cache in Hn. congruence.
    + fold key cache in Hn. congruence.
  - intros W st1 s Hmiss Htable Hs.
    pose proof (weighting_factors_miss _ _ _ _ W st1 Hi Hmiss Htable) as Hres.
    fold res in Hres. unfold normalise in Hres. rewrite Hs in Hres.
    simpl in Hres. unfold np_divide in Hres.
    split; intros Hz.
    + destruct (Qeq_bool s 0) eqn:E; [apply Qeq_bool_iff in E; contradiction|].
      split; [exact Hres|].
      destruct (normalise_spec W (map (map (fun w => Some (w * (100 / s)))) W))
        as (s' & Hs' & Hsum & _).
      { unfold normalise. rewrite Hs. simpl. unfold np_divide. now rewrite E. }
      rewrite Hs in Hs'. injection Hs' as <-. now apply Hsum.
    + rewrite (proj2 (Qeq_bool_iff s 0) Hz) in Hres.
      split; [exact Hres|]. exact (scale_inf_nowhere_finite W).
  - intros k Hint Hk Hlen Hsize.
    destruct (twf_table_returns cmfs illuminant shape (set_twf cache st) k)
      as (W & st1 & rows & Htable & HW); try assumption.
    { eapply lagrange_cache_ok_ext; [apply set_twf_lagrange|].
      now apply reachable_ok. }
    destruct (column_sum_in_range rows W 1 ltac:(lia) HW) as [s Hs].
    change (Z.of_nat 1) with 1%Z in Hs.
    split; [now exists W, st1, s|].
    assert (Hret : exists T, res = Ret T).
    { destruct (cache !! key) as [T|] eqn:Hkey.
      - exists T. apply intervals_ok_checks in Hi as [H1 H2].
        unfold res, tristimulus_weighting_factors_ASTME202211, ci_lookup.
        fold cache key. now rewrite H1, H2, Hkey.
      - unfold res.
        rewrite (weighting_factors_miss _ _ _ _ W st1 Hi Hkey Htable).
        unfold normalise. rewrite Hs. simpl. eauto. }
    destruct Hret as [T HT]. exists T. split; [assumption|].
    unfold res in HT.
    destruct (tristimulus_weighting_factors_ASTME202211 str_shape
                cmfs illuminant shape st) as [r st'] eqn:E.
    simpl in HT. subst r.
    now apply (returned_table_normalised _ _ _ _ _ _ Hreach E).
Qed.


(** Equal names and an equal rendering of the shape give the same key. *)
Lemma name_twf_components cmfs illuminant shape cmfs' illuminant' shape' :
  cmfs_name cmfs' = cmfs_name cmfs ->
  spd_name illuminant' = spd_name illuminant ->
  str_shape shape' = str_shape shape ->
  name_twf str_shape cmfs' illuminant' shape'
  = name_twf str_shape cmfs illuminant shape.
Proof. unfold name_twf. now intros -> -> ->. Qed.

(** What the Lagrange builder returns in a reachable state, for an interval
    of at least 1. *)
Lemma lagrange_reachable n t st :
  reachable str_shape st -> (1 <= n)%Z ->
  exists lica, fst (lagrange_coefficients_ASTME202211 n t st) = Ret lica /\
               lagrange_compute n t = Ret lica.
Proof.
  intros Hreach Hn.
  destruct (lagrange_total n t st Hn) as [lica Hl].
  exists lica. split; [assumption|].
  destruct (lagrange_coefficients_ASTME202211 n t st) as [r st'] eqn:E.
  simpl in Hl. subst r.
  apply (lagrange_returns_computed n t st lica st'); [|assumption].
  now apply reachable_ok.
Qed.

(** C10 (as amended).  For every interval of at least 2 the builder returns a
    matrix of [interval - 1] rows, each holding [d] coefficients, where
    [d = 4] for the inner and [d = 3] for the boundary type: four and three
    columns. *)
Theorem lagrange_matrix_shape n t st :
  reachable str_shape st -> (2 <= n)%Z ->
  exists lica,
    fst (lagrange_coefficients_ASTME202211 n t st) = Ret lica /\
    length lica = Z.to_nat (n - 1) /\
    Forall (fun row => length row = degree t) lica /\
    degree "inner" = 4%nat /\ degree "boundary" = 3%nat.
Proof.
  intros Hreach Hn.
  destruct (lagrange_reachable n t st Hreach) as (lica & Hl & Hc); [lia|].
  exists lica. split; [assumption|].
  apply lagrange_compute_rows in Hc as [Hlen Hrows].
  split; [assumption|]. split; [|split; reflexivity].
  eapply Forall_impl; [exact Hrows|].
  intros row [r ->]. apply lagrange_coefficients_length.
Qed.

(** C9.  For every interval of at least 2, each row of the inner matrix sums
    to 1. *)
Theorem lagrange_inner_rows_sum_to_one n st :
  reachable str_shape st -> (2 <= n)%Z ->
  exists lica,
    fst (lagrange_coefficients_ASTME202211 n "inner" st) = Ret lica /\
    length lica = Z.to_nat (n - 1) /\
    Forall (fun row => Qsum row == 1) lica.
Proof.
  intros Hreach Hn.
  destruct (lagrange_reachable n "inner" st Hreach) as (lica & Hl & Hc); [lia|].
  exists lica. split; [assumption|].
  apply lagrange_compute_rows in Hc as [Hlen Hrows].
  split; [assumption|].
  eapply Forall_impl; [exact Hrows|].
  intros row [r ->]. apply lagrange_coefficients_sum. now right.
Qed.

(** C3 (as amended).  In every reachable state,
    [lagrange_coefficients_ASTME202211(10, 'inner')] is a 9 x 4 matrix whose
    first row is [-0.0285, 0.9405, 0.1045, -0.0165], and for ['boundary'] it
    is a 9 x 3 matrix whose first row is [0.855, 0.19, -0.045]. *)
Theorem lagrange_reference_values st :
  reachable str_shape st ->
  (exists row rest,
     fst (lagrange_coefficients_ASTME202211 10 "inner" st)
     = Ret (row :: rest) /\
     length (row :: rest) = 9%nat /\
     Forall (fun r => length r = 4%nat) (row :: rest) /\
     Forall2 Qeq row [-0.0285; 0.9405; 0.1045; -0.0165])
  /\
  (exists row rest,
     fst (lagrange_coefficients_ASTME202211 10 "boundary" st)
     = Ret (row :: rest) /\
     length (row :: rest) = 9%nat /\
     Forall (fun r => length r = 3%nat) (row :: rest) /\
     Forall2 Qeq row [0.855; 0.19; -0.045]).
Proof.
  intros Hreach. split.
  - destruct (lagrange_reachable 10 "inner" st Hreach) as (lica & Hl & Hc); [lia|].
    vm_compute in Hc. injection Hc as <-.
    eexists; eexists. split; [exact Hl|].
    split; [reflexivity|].
    split; repeat constructor; apply Qeq_bool_iff; vm_compute; reflexivity.
  - destruct (lagrange_reachable 10 "boundary" st Hreach) as (lica & Hl & Hc); [lia|].
    vm_compute in Hc. injection Hc as <-.
    eexists; eexists. split; [exact Hl|].
    split; [reflexivity|].
    split; repeat constructor; apply Qeq_bool_iff; vm_compute; reflexivity.
Qed.

End BuilderProperties.

(** ** The spectral integrator *)

Lemma Qle_bool_comp a a' b b' :
  a == a' -> b == b' -> Qle_bool a b = Qle_bool a' b'.
Proof.
  intros Ha Hb. apply eq_true_iff_eq. rewrite !Qle_bool_iff.
  now rewrite Ha, Hb.
Qed.

(** Shapes that compare equal have grids of the same size. *)
Lemma shape_range_length_eqb a b :
  shape_eqb a b = true -> length (shape_range a) = length (shape_range b).
Proof.
  unfold shape_eqb. intros H.
  apply andb_true_iff in H as [H H3]. apply andb_true_iff in H as [H1 H2].
  apply Qeq_bool_iff in H1, H2, H3.
  unfold shape_range, Qlt_bool.
  rewrite (Qle_bool_comp (interval a) (interval b) 0 0 H3 (Qeq_refl 0)).
  rewrite (Qle_bool_comp (start a) (start b) (end_ a) (end_ b) H1 H2).
  destruct (negb _ && _); [|reflexivity].
  rewrite !length_map, !length_seq. do 2 f_equal.
  apply Qfloor_comp. now rewrite H1, H2, H3.
Qed.

Lemma aligned_length shape s :
  spd_on_grid s ->
  length (spd_values (aligned shape s)) = length (shape_range shape).
Proof.
  unfold aligned, spd_values, spd_on_grid. intros Hs.
  destruct (shape_eqb (spd_shape s) shape) eqn:E.
  - rewrite length_map, Hs. now apply shape_range_length_eqb.
  - unfold zeros; simpl. now rewrite !length_map.
Qed.

Lemma ones_spd_values shape :
  spd_values (ones_spd shape) = repeat 1 (length (shape_range shape)).
Proof.
  unfold spd_values, ones_spd; simpl.
  induction (shape_range shape) as [|w l IH]; simpl; [reflexivity|].
  now rewrite IH.
Qed.

Lemma zip_with_nth (a b : list Q) n :
  length a = n -> length b = n ->
  zip_with Qmult a b = map (fun k => nth k a 0 * nth k b 0) (seq 0 n).
Proof.
  revert b n. induction a as [|x a IH]; intros [|y b] [|n] Ha Hb;
    simpl in *; try discriminate; [reflexivity|].
  injection Ha as Ha. injection Hb as Hb.
  rewrite (IH b n Ha Hb). f_equal.
  rewrite <- seq_shift, map_map. reflexivity.
Qed.

Lemma np_multiply_same_length (a b : list Q) :
  length a = length b -> np_multiply a b = Ret (zip_with Qmult a b).
Proof.
  intros H. unfold np_multiply.
  now rewrite (proj2 (Nat.eqb_eq _ _) H).
Qed.

Lemma products_on_grid (a b c : list Q) n :
  length a = n -> length b = n -> length c = n ->
  (p <- np_multiply a b ;; np_multiply p c)
  = Ret (map (fun k => nth k a 0 * nth k b 0 * nth k c 0) (seq 0 n)).
Proof.
  intros Ha Hb Hc.
  rewrite np_multiply_same_length by congruence. simpl.
  assert (Hp : length (zip_with Qmult a b) = n).
  { rewrite (zip_with_nth a b n Ha Hb). now rewrite length_map, length_seq. }
  rewrite np_multiply_same_length by congruence.
  rewrite (zip_with_nth _ c n Hp Hc). f_equal.
  apply map_ext_in. intros k Hk. apply in_seq in Hk.
  rewrite (zip_with_nth a b n Ha Hb).
  rewrite (nth_indep _ 0 ((fun k => nth k a 0 * nth k b 0) 0%nat))
    by (rewrite length_map, length_seq; lia).
  rewrite (map_nth (fun k => nth k a 0 * nth k b 0)).
  rewrite seq_nth by lia. reflexivity.
Qed.

(** C2 (as amended).  [spectral_to_XYZ] takes, in place of an SPD whose
    shape is not the shape of the CMFS, its zero-extension to that shape,
    likewise for the illuminant if one is given, and the all-ones SPD on the
    shape of the CMFS for a missing illuminant.  Provided the SPD and the
    illuminant so obtained hold one value per sample of the CMFS, it returns
    the three sums of products over the wavelength grid, each multiplied by
    [100 / sum (y_bar * I)], when that sum is not zero, and three components
    that are not finite when it is zero.  The proviso holds for an SPD and
    an illuminant that have the shape of the CMFS when all of them are
    sampled on its grid. *)
Theorem spectral_to_XYZ_formula spd cmfs illuminant :
  let shape := cmfs_shape cmfs in
  let n := length (cmfs_data cmfs) in
  let s := spd_values (aligned shape spd) in
  let I := match illuminant with
           | None => repeat 1 n
           | Some i => spd_values (aligned shape i)
           end in
  let d := grid_sum2 n (y_bar_values cmfs) I in
  let one_value_per_sample :=
    length s = n /\
    match illuminant with
    | None => cmfs_on_grid cmfs
    | Some i => length (spd_values (aligned shape i)) = n
    end in
  (one_value_per_sample ->
   exists X Y Z,
     spectral_to_XYZ spd cmfs illuminant = Ret [X; Y; Z] /\
     (~ d == 0 ->
      exists x y z,
        X = Some x /\ Y = Some y /\ Z = Some z /\
        x == 100 / d * grid_sum3 n s (x_bar_values cmfs) I /\
        y == 100 / d * grid_sum3 n s (y_bar_values cmfs) I /\
        z == 100 / d * grid_sum3 n s (z_bar_values cmfs) I) /\
     (d == 0 -> X = None /\ Y = None /\ Z = None))
  /\
  (cmfs_on_grid cmfs ->
   spd_on_grid spd -> shape_eqb (spd_shape spd) shape = true ->
   (forall i, illuminant = Some i ->
      spd_on_grid i /\ shape_eqb (spd_shape i) shape = true) ->
   one_value_per_sample).
Proof.
  intros shape n s I d one_value_per_sample.
  assert (Hsame : forall a, cmfs_on_grid cmfs -> spd_on_grid a ->
            shape_eqb (spd_shape a) shape = true ->
            length (spd_values (aligned shape a)) = n).
  { intros a Hc Ha Hsh. unfold aligned. rewrite Hsh.
    unfold spd_values. rewrite length_map, Ha.
    rewrite (shape_range_length_eqb _ _ Hsh). symmetry. exact Hc. }
  split.
  2:{ intros Hc Hs Hsh Hi. split; [now apply Hsame|].
      destruct illuminant as [i|]; [|exact Hc].
      destruct (Hi i eq_refl). now apply Hsame. }
  intros [Hsl Hil].
  assert (Hx : length (x_bar_values cmfs) = n)
    by (unfold x_bar_values; apply length_map).
  assert (Hy : length (y_bar_values cmfs) = n)
    by (unfold y_bar_values; apply length_map).
  assert (Hz : length (z_bar_values cmfs) = n)
    by (unfold z_bar_values; apply length_map).
  assert (HI : length I = n).
  { unfold I. destruct illuminant as [i|]; [exact Hil | apply repeat_length]. }
  unfold spectral_to_XYZ.
  replace (spd_values (if negb (shape_eqb (spd_shape spd) (cmfs_shape cmfs))
                       then zeros (cmfs_shape cmfs) spd else spd)) with s
    by (unfold s, aligned, shape; now destruct (shape_eqb _ _)).
  replace (spd_values match illuminant with
                      | Some i => if negb (shape_eqb (spd_shape i) (cmfs_shape cmfs))
                                  then zeros (cmfs_shape cmfs) i else i
                      | None => ones_spd (cmfs_shape cmfs)
                      end) with I.
  2:{ unfold I, aligned, shape. destruct illuminant as [i|].
      - now destruct (shape_eqb _ _).
      - rewrite ones_spd_values. unfold n. now rewrite Hil. }
  rewrite !(products_on_grid _ _ _ n) by assumption. simpl.
  rewrite np_multiply_same_length by congruence. simpl.
  rewrite (zip_with_nth _ _ n Hy HI).
  fold (grid_sum2 n (y_bar_values cmfs) I). fold d.
  fold (grid_sum3 n s (x_bar_values cmfs) I).
  fold (grid_sum3 n s (y_bar_values cmfs) I).
  fold (grid_sum3 n s (z_bar_values cmfs) I).
  do 3 eexists. split; [reflexivity|].
  unfold np_divide. destruct (Qeq_bool d 0) eqn:E.
  - apply Qeq_bool_iff in E. split; [contradiction|]. intros _. now simpl.
  - apply Qeq_bool_neq in E. split; [|contradiction]. intros _. simpl.
    do 3 eexists. repeat split; reflexivity.
Qed.

(** ** The wavelength dispatcher *)

Lemma Qlt_bool_iff a b : Qlt_bool a b = true <-> a < b.
Proof.
  unfold Qlt_bool. rewrite negb_true_iff, <- not_true_iff_false, Qle_bool_iff.
  split; [apply Qnot_le_lt | apply Qlt_not_le].
Qed.

Lemma Qmin'_lt a b x : Qmin' a b < x <-> a < x \/ b < x.
Proof.
  unfold Qmin'. destruct (Qle_bool a b) eqn:E.
  - apply Qle_bool_iff in E. split; [auto|]. intros [H|H]; lra.
  - apply not_true_iff_false in E. rewrite Qle_bool_iff in E.
    split; [auto|]. intros [H|H]; lra.
Qed.

Lemma Qmax'_gt a b x : x < Qmax' a b <-> x < a \/ x < b.
Proof.
  unfold Qmax'. destruct (Qle_bool a b) eqn:E.
  - apply Qle_bool_iff in E. split; [auto|]. intros [H|H]; lra.
  - apply not_true_iff_false in E. rewrite Qle_bool_iff in E.
    split; [auto|]. intros [H|H]; lra.
Qed.

Lemma fold_min_lt l a x :
  fold_left Qmin' l a < x <-> a < x \/ Exists (fun w => w < x) l.
Proof.
  revert a. induction l as [|b l IH]; intros a; simpl.
  - rewrite Exists_nil. tauto.
  - rewrite IH, Qmin'_lt, Exists_cons. tauto.
Qed.

Lemma fold_max_gt l a x :
  x < fold_left Qmax' l a <-> x < a \/ Exists (fun w => x < w) l.
Proof.
  revert a. induction l as [|b l IH]; intros a; simpl.
  - rewrite Exists_nil. tauto.
  - rewrite IH, Qmax'_gt, Exists_cons. tauto.
Qed.

Lemma np_min_lt l m x :
  np_min l = Ret m -> (m < x <-> Exists (fun w => w < x) l).
Proof.
  destruct l as [|a l]; simpl; [discriminate|]. intros [= <-].
  now rewrite fold_min_lt, Exists_cons.
Qed.

Lemma np_max_gt l m x :
  np_max l = Ret m -> (x < m <-> Exists (fun w => x < w) l).
Proof.
  destruct l as [|a l]; simpl; [discriminate|]. intros [= <-].
  now rewrite fold_max_gt, Exists_cons.
Qed.

Lemma nd_size_app sh k : nd_size (sh ++ [k]) = (nd_size sh * k)%nat.
Proof.
  unfold nd_size. induction sh as [|d sh IH]; simpl; [lia|].
  rewrite IH. lia.
Qed.

Lemma lookup_wavelength_Some {V} (data : list (Q * V)) w :
  existsb (fun w' => Qeq_bool w' w) (map fst data) = true ->
  exists w' v, lookup_wavelength data w = Some v /\ In (w', v) data /\ w' == w.
Proof.
  induction data as [|[w0 v0] data IH]; simpl; [discriminate|].
  destruct (Qeq_bool w0 w) eqn:E; simpl.
  - intros _. apply Qeq_bool_iff in E. exists w0, v0. auto.
  - intros H. destruct (IH H) as (w' & v & Hl & Hin & Hw).
    exists w', v. auto.
Qed.

(** The stored rows are found for wavelengths that are in the CMFS. *)
Lemma cmfs_get_contained cmfs wavelength :
  cmfs_contains cmfs wavelength = true ->
  exists rows,
    cmfs_get cmfs wavelength = Ret (concat rows) /\
    Forall2 (stored_at cmfs) (nd_data wavelength) rows /\
    length (concat rows) = (length (nd_data wavelength) * 3)%nat.
Proof.
  unfold cmfs_contains, cmfs_get, cmfs_wavelengths.
  induction (nd_data wavelength) as [|w l IH]; simpl.
  - intros _. exists []. simpl. auto.
  - intros H. apply andb_true_iff in H as [Hw Hl].
    destruct (IH Hl) as (rows & Hget & Hrows & Hlen).
    destruct (lookup_wavelength_Some _ w Hw) as (w' & v & Hv & Hin & Heq).
    rewrite Hv. simpl.
    destruct (mapM _ l) as [rs|] eqn:E; simpl in *; [|discriminate].
    injection Hget as Hget.
    exists (xyz_row v :: rows). simpl. rewrite <- Hget.
    split; [reflexivity|]. split.
    + constructor; [|assumption]. exists w', v. auto.
    + rewrite Hget in *. rewrite Hlen. reflexivity.
Qed.

Lemma contained_within_shape cmfs wavelength :
  cmfs_within_shape cmfs -> cmfs_contains cmfs wavelength = true ->
  Forall (fun w => start (cmfs_shape cmfs) <= w /\ w <= end_ (cmfs_shape cmfs))
         (nd_data wavelength).
Proof.
  unfold cmfs_within_shape, cmfs_contains. intros Hc H.
  apply Forall_forall. intros w Hw.
  rewrite forallb_forall in H. apply list_elem_of_In in Hw.
  specialize (H w Hw). apply existsb_exists in H as (w' & Hin & Heq).
  apply Qeq_bool_iff in Heq.
  rewrite Forall_forall in Hc. apply list_elem_of_In in Hin.
  destruct (Hc w' Hin). rewrite <- Heq. auto.
Qed.

Section DispatcherProperties.

Variable fit : interpolator -> list Q -> list Q ->
               string + (list Q -> string + list Q).

Lemma wavelength_to_XYZ_outside wavelength cmfs method :
  Exists (outside_domain cmfs) (nd_data wavelength) ->
  wavelength_to_XYZ fit wavelength cmfs method =
  Raise (DomainRangeError wavelength (start (cmfs_shape cmfs))
           (end_ (cmfs_shape cmfs))).
Proof.
  intros H. unfold wavelength_to_XYZ.
  destruct (np_min (nd_data wavelength)) as [lo|e] eqn:Emin.
  2:{ destruct (nd_data wavelength); [inversion H | discriminate]. }
  destruct (np_max (nd_data wavelength)) as [hi|e] eqn:Emax.
  2:{ destruct (nd_data wavelength); discriminate. }
  simpl.
  destruct (Qlt_bool lo (start (cmfs_shape cmfs))) eqn:E1; simpl; [reflexivity|].
  destruct (Qlt_bool (end_ (cmfs_shape cmfs)) hi) eqn:E2; simpl; [reflexivity|].
  exfalso.
  apply not_true_iff_false in E1, E2. rewrite Qlt_bool_iff in E1, E2.
  rewrite (np_min_lt _ _ _ Emin) in E1. rewrite (np_max_gt _ _ _ Emax) in E2.
  apply Exists_exists in H as (w & Hw & [Hlo|Hhi]).
  - apply E1. apply Exists_exists. eauto.
  - apply E2. apply Exists_exists. eauto.
Qed.

Lemma wavelength_to_XYZ_inside wavelength cmfs method :
  nd_data wavelength <> [] ->
  ~ Exists (outside_domain cmfs) (nd_data wavelength) ->
  wavelength_to_XYZ fit wavelength cmfs method =
  after_domain_check fit wavelength cmfs method.
Proof.
  intros Hne H. unfold wavelength_to_XYZ.
  destruct (np_min (nd_data wavelength)) as [lo|e] eqn:Emin.
  2:{ destruct (nd_data wavelength); [contradiction | discriminate]. }
  destruct (np_max (nd_data wavelength)) as [hi|e] eqn:Emax.
  2:{ destruct (nd_data wavelength); discriminate. }
  simpl.
  destruct (Qlt_bool lo (start (cmfs_shape cmfs))) eqn:E1; simpl.
  { exfalso. apply H. apply Qlt_bool_iff in E1.
    rewrite (np_min_lt _ _ _ Emin) in E1.
    eapply Exists_impl; [exact E1|]. intros w Hw. now left. }
  destruct (Qlt_bool (end_ (cmfs_shape cmfs)) hi) eqn:E2; simpl.
  { exfalso. apply H. apply Qlt_bool_iff in E2.
    rewrite (np_max_gt _ _ _ Emax) in E2.
    eapply Exists_impl; [exact E2|]. intros w Hw. now right. }
  reflexivity.
Qed.

Lemma raises_after_domain_check wavelength cmfs method :
  raises_only not_domain_error (after_domain_check fit wavelength cmfs method).
Proof.
  unfold after_domain_check.
  apply raises_bind; [|intros; unfold np_reshape; case_match; exact I].
  destruct (negb (cmfs_contains cmfs wavelength)).
  - apply raises_bind.
    { unfold select_interpolator. repeat case_match; exact I. }
    intros k. unfold interpolate_channels.
    repeat (apply raises_bind; [unfold of_sum; case_match; exact I | intros]).
    unfold np_dstack3. case_match; exact I.
  - unfold cmfs_get. apply raises_bind; [|intros; exact I].
    apply raises_mapM. intros. case_match; exact I.
Qed.

(** C7.  [wavelength_to_XYZ] raises its domain error exactly when some
    requested wavelength is strictly below [cmfs.shape.start] or strictly
    above [cmfs.shape.end]; the error reports the wavelengths and the two
    bounds.  Wavelengths at the end points are accepted. *)
Theorem domain_range_error_iff wavelength cmfs method :
  let res := wavelength_to_XYZ fit wavelength cmfs method in
  ((exists w lo hi, res = Raise (DomainRangeError w lo hi)) <->
   Exists (outside_domain cmfs) (nd_data wavelength))
  /\ (forall w lo hi, res = Raise (DomainRangeError w lo hi) ->
        w = wavelength /\ lo = start (cmfs_shape cmfs)
        /\ hi = end_ (cmfs_shape cmfs)).
Proof.
  simpl.
  assert (Hdec : forall w, {outside_domain cmfs w} + {~ outside_domain cmfs w}).
  { intros w. unfold outside_domain.
    destruct (Qlt_le_dec w (start (cmfs_shape cmfs))); [left; now left|].
    destruct (Qlt_le_dec (end_ (cmfs_shape cmfs)) w); [left; now right|].
    right. intros [?|?]; lra. }
  destruct (List.Exists_dec _ (nd_data wavelength) Hdec) as [H|H].
  - rewrite (wavelength_to_XYZ_outside _ _ _ H).
    split; [split; eauto|]. now intros w lo hi [= <- <- <-].
  - assert (Hno : forall w lo hi,
              wavelength_to_XYZ fit wavelength cmfs method
              <> Raise (DomainRangeError w lo hi)).
    { intros w lo hi Hr.
      assert (He : nd_data wavelength = [] \/ nd_data wavelength <> [])
        by (destruct (nd_data wavelength); [left | right]; congruence).
      destruct He as [He|He].
      - unfold wavelength_to_XYZ in Hr. rewrite He in Hr. discriminate Hr.
      - rewrite (wavelength_to_XYZ_inside _ _ _ He H) in Hr.
        pose proof (raises_after_domain_check wavelength cmfs method) as Hl.
        rewrite Hr in Hl. exact Hl. }
    split.
    + split; [|contradiction]. intros (w & lo & hi & Hr). now apply Hno in Hr.
    + intros w lo hi Hr. now apply Hno in Hr.
Qed.

(** C8.  When every requested wavelength is a grid point of the CMFS, the
    dispatcher returns the stored values of each of them, in the shape of
    the input with a trailing axis of size 3.  The values come from the
    lookup alone: neither the interpolators nor the method argument, be it
    a known name or not, take part. *)
Theorem grid_points_are_looked_up wavelength cmfs method :
  nd_wf wavelength -> nd_data wavelength <> [] ->
  cmfs_within_shape cmfs -> cmfs_contains cmfs wavelength = true ->
  exists rows,
    cmfs_get cmfs wavelength = Ret (concat rows) /\
    Forall2 (stored_at cmfs) (nd_data wavelength) rows /\
    wavelength_to_XYZ fit wavelength cmfs method =
    Ret (mk_ndarray (nd_shape wavelength ++ [3%nat]) (concat rows)).
Proof.
  intros Hwf Hne Hin Hc.
  destruct (cmfs_get_contained cmfs wavelength Hc) as (rows & Hget & Hrows & Hlen).
  exists rows. split; [assumption|]. split; [assumption|].
  rewrite wavelength_to_XYZ_inside; [|assumption|].
  - unfold after_domain_check. rewrite Hc, Hget. simpl.
    unfold np_reshape. rewrite nd_size_app, Hlen, Hwf.
    now rewrite Nat.eqb_refl.
  - pose proof (contained_within_shape cmfs wavelength Hin Hc) as Hd.
    intros He. apply Exists_exists in He as (w & Hw & Ho).
    rewrite Forall_forall in Hd. destruct (Hd w Hw). destruct Ho; lra.
Qed.

(** C6.  When interpolation is required, an explicit method selects, after
    lower-casing, among cubic spline, linear, pchip and sprague; no method
    selects Sprague for a uniformly spaced CMFS and cubic spline otherwise;
    'sprague' forced on a CMFS that is not uniformly spaced raises the
    unsupported-spacing error, and any other name the undefined-method
    error. *)
Theorem interpolation_method_selection wavelength cmfs method :
  nd_data wavelength <> [] ->
  ~ Exists (outside_domain cmfs) (nd_data wavelength) ->
  cmfs_contains cmfs wavelength = false ->
  let res := wavelength_to_XYZ fit wavelength cmfs method in
  match method with
  | None =>
      res = interpolated fit (if is_uniform cmfs then SpragueInterpolator
                              else CubicSplineInterpolator) wavelength cmfs
  | Some m =>
      (lower m = "cubic spline" ->
       res = interpolated fit CubicSplineInterpolator wavelength cmfs) /\
      (lower m = "linear" ->
       res = interpolated fit LinearInterpolator wavelength cmfs) /\
      (lower m = "pchip" ->
       res = interpolated fit PchipInterpolator wavelength cmfs) /\
      (lower m = "sprague" -> is_uniform cmfs = true ->
       res = interpolated fit SpragueInterpolator wavelength cmfs) /\
      (lower m = "sprague" -> is_uniform cmfs = false ->
       res = Raise UnsupportedSpragueSpacing) /\
      (lower m <> "cubic spline" -> lower m <> "linear" ->
       lower m <> "pchip" -> lower m <> "sprague" ->
       res = Raise (UndefinedMethod (lower m)))
  end.
Proof.
  intros Hne Hd Hc. simpl.
  rewrite (wavelength_to_XYZ_inside _ _ _ Hne Hd).
  unfold after_domain_check, interpolated. rewrite Hc. simpl.
  destruct method as [m|]; simpl.
  - repeat split.
    + intros ->. reflexivity.
    + intros ->. reflexivity.
    + intros ->. reflexivity.
    + intros -> ->. reflexivity.
    + intros -> ->. reflexivity.
    + intros H1 H2 H3 H4.
      apply String.eqb_neq in H1, H2, H3, H4. now rewrite H1, H2, H3, H4.
  - destruct (is_uniform cmfs); reflexivity.
Qed.

End DispatcherProperties.

(** ** The claims on concrete data *)

Lemma weighting_factors_Y_column_witness :
  (exists T, fst first_call = Ret T /\ Y_sums_to_100 T) /\
  (exists T,
     fst (tristimulus_weighting_factors_ASTME202211 shape_repr
            example_cmfs dark_illuminant example_shape initial_caches) = Ret T
     /\ nowhere_finite T).
Proof.
  split.
  - set (p := twf_table example_cmfs example_illuminant example_shape
                (set_twf ∅ initial_caches)).
    destruct (weighting_factors_Y_column shape_repr example_cmfs
                example_illuminant example_shape initial_caches
                (reachable_initial shape_repr) (conj eq_refl eq_refl))
      as (_ & Hmiss & _).
    destruct (Hmiss (returned [] (fst p)) (snd p)
                (returned 0 (column_sum (returned [] (fst p)) 1)))
      as [Hnz _].
    + reflexivity.
    + vm_compute. reflexivity.
    + vm_compute. reflexivity.
    + eexists. apply Hnz. intros H. vm_compute in H. discriminate H.
  - set (p := twf_table example_cmfs dark_illuminant example_shape
                (set_twf ∅ initial_caches)).
    destruct (weighting_factors_Y_column shape_repr example_cmfs
                dark_illuminant example_shape initial_caches
                (reachable_initial shape_repr) (conj eq_refl eq_refl))
      as (_ & Hmiss & _).
    destruct (Hmiss (returned [] (fst p)) (snd p)
                (returned 0 (column_sum (returned [] (fst p)) 1)))
      as [_ Hz].
    + reflexivity.
    + vm_compute. reflexivity.
    + vm_compute. reflexivity.
    + eexists. apply Hz. vm_compute. reflexivity.
Defined.

(** The example table is the one computed by hand from the source: the Y
    column [2, 4, 6] of the sliced product receives [3 c] from the first and
    [5 c] from the last interval, [c = (0.375, 0.75, -0.125)], and is scaled
    by [100 / 20]. *)
Example first_call_Y_column :
  Forall2 (fun x q => exists y, x = Some y /\ y == q)
    (xcolumn (returned [] (fst first_call)) 1) [12.5; 50; 37.5].
Proof.
  vm_compute. repeat constructor; eexists; (split; [reflexivity|]); reflexivity.
Qed.

(** With an illuminant without power the Y column of the table before
    line 290 sums to zero; the division gives [inf] and the returned table
    holds no finite number, so its Y column does not sum to 100. *)
Lemma dark_illuminant_table :
  intervals_ok example_cmfs dark_illuminant /\
  fst (tristimulus_weighting_factors_ASTME202211 shape_repr
         example_cmfs dark_illuminant example_shape initial_caches)
  = Ret [[None; None; None]; [None; None; None]; [None; None; None]] /\
  xsum (xcolumn [[None; None; None]; [None; None; None]; [None; None; None]] 1)
  = None.
Proof.
  split; [split; reflexivity|]. split; vm_compute; reflexivity.
Qed.

(** A hit returns what is stored under the key, whatever the data of the
    call: once the table of an illuminant without power has been stored
    under the names "observer" and "E", the call with [example_illuminant],
    which has the same name, gets that table back, although the Y column of
    its own table would sum to 20 before line 290. *)
Example aliased_key_returns_cached_table :
  let st1 := snd (tristimulus_weighting_factors_ASTME202211 shape_repr
                    example_cmfs unlit_E example_shape initial_caches) in
  fst (tristimulus_weighting_factors_ASTME202211 shape_repr
         example_cmfs example_illuminant example_shape st1)
  = Ret [[None; None; None]; [None; None; None]; [None; None; None]] /\
  exists W st2 s,
    twf_table example_cmfs example_illuminant example_shape st1
    = (Ret W, st2) /\
    column_sum W 1 = Ret s /\ s == 20.
Proof.
  split; [vm_compute; reflexivity|].
  do 3 eexists. split; [vm_compute; reflexivity|].
  split; vm_compute; reflexivity.
Qed.

(** Data too short for the three rows the first interval writes to makes
    the builder raise. *)
Example short_data_raises :
  fst (tristimulus_weighting_factors_ASTME202211 shape_repr
         example_cmfs example_illuminant (mk_shape 1 5 3) initial_caches)
  = Raise IndexError.
Proof. vm_compute. reflexivity. Qed.



Lemma interval_mismatch_iff_witness :
  snd (tristimulus_weighting_factors_ASTME202211 shape_repr
         coarse_cmfs example_illuminant example_shape (snd first_call))
  = snd first_call.
Proof.
  apply (proj2 (interval_mismatch_iff shape_repr coarse_cmfs example_illuminant
                  example_shape (snd first_call)) (OperandCMFS coarse_cmfs)).
  vm_compute. reflexivity.
Defined.

Lemma lagrange_reference_values_witness :
  exists row rest,
    fst (lagrange_coefficients_ASTME202211 10 "inner" initial_caches)
    = Ret (row :: rest) /\
    length (row :: rest) = 9%nat /\
    Forall (fun r => length r = 4%nat) (row :: rest) /\
    Forall2 Qeq row [-0.0285; 0.9405; 0.1045; -0.0165].
Proof.
  apply (proj1 (lagrange_reference_values shape_repr initial_caches
                  (reachable_initial shape_repr))).
Defined.

(** The quoted first rows are not the first rows of the matrices: the
    first entry of the inner row is further than 0.0001 from the quoted
    -0.0280, and the first entry of the boundary row further than 0.001 from
    the quoted 0.8517. *)
Lemma quoted_first_rows_are_off :
  exists inner rest boundary rest',
    fst (lagrange_coefficients_ASTME202211 10 "inner" initial_caches)
    = Ret (inner :: rest) /\
    fst (lagrange_coefficients_ASTME202211 10 "boundary" initial_caches)
    = Ret (boundary :: rest') /\
    ~ Forall2 (close_to 0.0001) inner [-0.0280; 0.9400; 0.1043; -0.0164] /\
    ~ Forall2 (close_to 0.001) boundary [0.8517; 0.1968; -0.0486].
Proof.
  do 4 eexists. split; [vm_compute; reflexivity|].
  split; [vm_compute; reflexivity|].
  split; intros H; inversion H as [|x y l l' Hc _]; subst;
    unfold close_to in Hc; apply Qle_bool_iff in Hc; vm_compute in Hc;
    discriminate Hc.
Qed.

Lemma lagrange_inner_rows_sum_to_one_witness :
  exists lica,
    fst (lagrange_coefficients_ASTME202211 10 "inner" (snd first_call)) = Ret lica /\
    length lica = Z.to_nat (10 - 1) /\
    Forall (fun row => Qsum row == 1) lica.
Proof.
  apply (lagrange_inner_rows_sum_to_one shape_repr 10 (snd first_call)).
  - apply (reachable_call shape_repr initial_caches
             (CallWeightingFactors example_cmfs example_illuminant example_shape)).
    apply reachable_initial.
  - lia.
Defined.

Lemma lagrange_matrix_shape_witness :
  exists lica,
    fst (lagrange_coefficients_ASTME202211 10 "boundary" initial_caches) = Ret lica /\
    length lica = Z.to_nat (10 - 1) /\
    Forall (fun row => length row = degree "boundary") lica /\
    degree "inner" = 4%nat /\ degree "boundary" = 3%nat.
Proof.
  apply (lagrange_matrix_shape shape_repr 10 "boundary" initial_caches).
  - apply reachable_initial.
  - lia.
Defined.

(** The rows of the inner matrix hold four coefficients, not five. *)
Lemma inner_rows_hold_four_coefficients :
  exists lica,
    fst (lagrange_coefficients_ASTME202211 10 "inner" initial_caches) = Ret lica /\
    map length lica = [4; 4; 4; 4; 4; 4; 4; 4; 4]%nat /\
    ~ Forall (fun row => length row = (4 + 1)%nat) lica.
Proof.
  eexists. split; [vm_compute; reflexivity|]. split; [reflexivity|].
  intros H. inversion H as [|? ? Hrow _]. discriminate Hrow.
Qed.

(** The SPD [{2: 0.06, 3: 0.06}] is zero-extended to the five samples of the
    example CMFS; under the equal-energy illuminant the three components
    are [100 / 20] times [0.06 (2 + 3)], [0.06 (3 + 4)] and [0.06 (4 + 5)]. *)
Lemma spectral_to_XYZ_formula_witness :
  exists x y z,
    spectral_to_XYZ example_spd example_cmfs (Some example_illuminant)
    = Ret [Some x; Some y; Some z] /\
    x == 1.5 /\ y == 2.1 /\ z == 2.7.
Proof.
  destruct (proj1 (spectral_to_XYZ_formula example_spd example_cmfs
                     (Some example_illuminant)) (conj eq_refl eq_refl))
    as (X & Y & Z & Hret & Hnz & _).
  destruct Hnz as (x & y & z & -> & -> & -> & Hx & Hy & Hz).
  { intros H. vm_compute in H. discriminate H. }
  exists x, y, z. split; [exact Hret|].
  split; [|split].
  - rewrite Hx. vm_compute. reflexivity.
  - rewrite Hy. vm_compute. reflexivity.
  - rewrite Hz. vm_compute. reflexivity.
Defined.

(** An SPD that has the shape of the CMFS but not a value for each of its
    samples makes the integrator raise: numpy cannot multiply four values
    by five. *)
Lemma gap_spd_raises :
  shape_eqb (spd_shape gap_spd) (cmfs_shape example_cmfs) = true /\
  spectral_to_XYZ gap_spd example_cmfs None
  = Raise (NumpyValueError "operands could not be broadcast together").
Proof. split; vm_compute; reflexivity. Qed.

Lemma domain_range_error_iff_witness :
  exists w lo hi,
    wavelength_to_XYZ example_fit (nd_vector [3; 7]) example_cmfs None
    = Raise (DomainRangeError w lo hi).
Proof.
  apply (proj2 (proj1 (domain_range_error_iff example_fit (nd_vector [3; 7])
                         example_cmfs None))).
  apply Exists_cons_tl, Exists_cons_hd. right. reflexivity.
Defined.

Lemma grid_points_are_looked_up_witness :
  exists rows,
    cmfs_get example_cmfs (nd_vector [3; 1]) = Ret (concat rows) /\
    Forall2 (stored_at example_cmfs) [3; 1] rows /\
    wavelength_to_XYZ example_fit (nd_vector [3; 1]) example_cmfs
      (Some "no such method"%string)
    = Ret (mk_ndarray [2; 3]%nat (concat rows)).
Proof.
  apply (grid_points_are_looked_up example_fit (nd_vector [3; 1]) example_cmfs
           (Some "no such method"%string)).
  - reflexivity.
  - discriminate.
  - unfold cmfs_within_shape. vm_compute.
    repeat constructor; discriminate.
  - vm_compute. reflexivity.
Defined.

Lemma interpolation_method_selection_witness :
  wavelength_to_XYZ example_fit (nd_scalar 2.5) example_cmfs (Some "Linear"%string)
  = interpolated example_fit LinearInterpolator (nd_scalar 2.5) example_cmfs.
Proof.
  refine (proj1 (proj2 (interpolation_method_selection example_fit (nd_scalar 2.5)
                          example_cmfs (Some "Linear"%string) _ _ _)) _).
  - discriminate.
  - intros H. apply Exists_exists in H as (w & Hw & Ho).
    apply list_elem_of_In in Hw. destruct Hw as [<-|[]].
    unfold outside_domain in Ho. simpl in Ho. lra.
  - vm_compute. reflexivity.
  - reflexivity.
Defined.

Example interpolated_value :
  wavelength_to_XYZ example_fit (nd_scalar 2.5) example_cmfs (Some "Linear"%string)
  = Ret (mk_ndarray [3%nat] [2 + (3 - 2) * (2.5 - 2) / (3 - 2);
                              3 + (4 - 3) * (2.5 - 2) / (3 - 2);
                              4 + (5 - 4) * (2.5 - 2) / (3 - 2)]).
Proof. reflexivity. Qed.

(** * Further properties of the builders *)

Lemma foldM_unchanged {A S} (f : S -> A -> result S) l s :
  (forall s a, In a l -> f s a = Ret s) -> foldM f l s = Ret s.
Proof.
  induction l as [|a l IH]; intros Hf; simpl; [reflexivity|].
  rewrite Hf by now left. simpl. apply IH. intros s0 a0 H. apply Hf. now right.
Qed.

Lemma every_nth_one {A} fuel (l : list A) :
  (length l <= fuel)%nat -> every_nth fuel 1 l = l.
Proof.
  revert l. induction fuel as [|fuel IH]; intros [|x l] Hl; simpl in *;
    try reflexivity; [lia|].
  rewrite drop_0. f_equal. apply IH. lia.
Qed.

(** With an interval of 1 there are no interpolated wavelengths and lines
    265-288 leave the table as it is, whatever its size. *)
Lemma zrange_empty a b : (b <= a)%Z -> zrange a b = [].
Proof.
  intros H. unfold zrange. now replace (Z.to_nat (b - a)) with 0%nat by lia.
Qed.

Lemma weighting_loops_unit c_c S Y W :
  weighting_loops c_c [] S Y 1 W = Ret W.
Proof.
  unfold weighting_loops.
  apply foldM_unchanged. intros W0 i _.
  rewrite (zrange_empty 0 (Z.of_nat (length (@nil (list Q))))) by (simpl; lia).
  rewrite (zrange_empty (Z.of_nat (length Y) - (Z.of_nat (length Y) - 1) mod 1))
    by (rewrite Z.mod_1_r; lia).
  simpl. now rewrite foldM_unchanged by reflexivity.
Qed.

Section BuilderExtras.

Variable str_shape : SpectralShape -> string.

Local Abbreviation LAG := LAGRANGE_INTERPOLATING_COEFFICIENTS_CACHE.
Local Abbreviation TWF := TRISTIMULUS_WEIGHTING_FACTORS_CACHE.

(** With a consistent cache a call gives what the computation of lines
    118-125 gives for its arguments, whether it returns or raises and
    whether the key was cached or not. *)
Lemma lagrange_call_computes n t st :
  lagrange_cache_ok st ->
  fst (lagrange_coefficients_ASTME202211 n t st) = lagrange_compute n t.
Proof.
  intros Hok. unfold lagrange_coefficients_ASTME202211, ci_lookup.
  destruct (default ∅ (LAG st) !! lower (name_lica n t)) as [m|] eqn:E; simpl.
  - destruct (LAG st) as [c|] eqn:Ec; simpl in E;
      [|rewrite lookup_empty in E; discriminate].
    destruct (Hok c _ m Ec E) as (n' & t' & Hkey & Hm).
    apply name_lica_inj in Hkey as [-> Ht].
    now rewrite (lagrange_compute_lower n' t t' Ht).
  - destruct (lagrange_compute n t); reflexivity.
Qed.

(** X1.  The Lagrange cache is transparent: in every reachable state a call
    of the builder gives exactly what a fresh computation for its arguments
    gives, be it a matrix or an exception, on a hit as on a miss. *)
Theorem lagrange_cache_transparent n t st :
  reachable str_shape st ->
  fst (lagrange_coefficients_ASTME202211 n t st) = lagrange_compute n t.
Proof.
  intros Hreach. apply lagrange_call_computes.
  now apply (reachable_ok str_shape).
Qed.

(** X2.  The interval type is not validated: in every reachable state a
    type that is not 'inner' up to case gives what 'boundary' gives, and a
    type that is 'inner' up to case gives what 'inner' gives. *)
Theorem interval_type_is_inner_or_not n t st :
  reachable str_shape st ->
  fst (lagrange_coefficients_ASTME202211 n t st)
  = lagrange_compute n (if String.eqb (lower t) "inner" then "inner"
                        else "boundary").
Proof.
  intros Hreach.
  rewrite (lagrange_call_computes n t st)
    by now apply (reachable_ok str_shape).
  unfold lagrange_compute.
  destruct (String.eqb (lower t) "inner") eqn:E; simpl; now rewrite ?E.
Qed.

(** X3.  A build that fails adds nothing: when the Lagrange builder raises,
    its cache holds the entries it held before and the other cache is
    untouched; when the weighting factor builder raises, whatever the
    exception, its cache holds the entries it held before. *)
Theorem failed_build_adds_nothing :
  (forall n t st e st',
     lagrange_coefficients_ASTME202211 n t st = (Raise e, st') ->
     default ∅ (LAG st') = default ∅ (LAG st) /\ TWF st' = TWF st)
  /\
  (forall cmfs illuminant shape st e st',
     tristimulus_weighting_factors_ASTME202211 str_shape
       cmfs illuminant shape st = (Raise e, st') ->
     default ∅ (TWF st') = default ∅ (TWF st)).
Proof.
  split.
  - intros n t st e st'. unfold lagrange_coefficients_ASTME202211.
    destruct (ci_lookup _ _); [discriminate|].
    destruct (lagrange_compute n t); [discriminate|].
    intros [= _ <-]. split; reflexivity.
  - intros cmfs illuminant shape st e st' Hcall.
    destruct (twf_call_cases str_shape cmfs illuminant shape st)
      as [(who & Hr & _) | [(_ & T0 & Hk0 & Hr) | [(_ & Hn & e1 & st1 & Hb & Hr)
         | (_ & Hn & T0 & st1 & Hb & Hr)]]]; rewrite Hcall in Hr;
      try discriminate.
    + now injection Hr as _ ->.
    + injection Hr as _ ->.
      now rewrite (twf_build_twf_cache _ _ _ _ _ _ Hb).
Qed.

(** X4.  With a shape interval of 1 nothing is interpolated: on a miss, for
    a CMFS and an illuminant with the same number of samples, the builder
    returns the normalisation of the pointwise products [S[w] * Y[w, :]],
    one row per sample, whatever the number of samples. *)
Theorem unit_interval_table cmfs illuminant shape st :
  reachable str_shape st ->
  intervals_ok cmfs illuminant ->
  default ∅ (TWF st) !! lower (name_twf str_shape cmfs illuminant shape) = None ->
  interval shape == 1 ->
  length (spd_data illuminant) = length (cmfs_data cmfs) ->
  fst (tristimulus_weighting_factors_ASTME202211 str_shape
         cmfs illuminant shape st)
  = normalise (zip_with (fun s row => map (Qmult s) row)
                 (spd_values illuminant) (cmfs_values cmfs)).
Proof.
  intros Hreach Hi Hmiss Hint Hlen.
  assert (Hok : lagrange_cache_ok (set_twf (default ∅ (TWF st)) st)).
  { apply (lagrange_cache_ok_ext st); [reflexivity|].
    now apply (reachable_ok str_shape). }
  apply (weighting_factors_miss str_shape _ _ _ _ _
           (snd (twf_table cmfs illuminant shape
                   (set_twf (default ∅ (TWF st)) st))) Hi Hmiss).
  unfold twf_table, mbind, lift.
  rewrite (as_integer_of_Z _ 1 Hint).
  unfold np_slice_step. simpl Z.eqb. simpl Z.ltb. cbv iota.
  change (Z.to_nat 1) with 1%nat. rewrite !every_nth_one by lia. simpl rbind.
  unfold np_multiply_rows.
  replace (length (spd_values illuminant) =? length (cmfs_values cmfs))%nat
    with true
    by (symmetry; apply Nat.eqb_eq; unfold spd_values, cmfs_values;
        now rewrite !length_map).
  set (W := zip_with _ _ _).
  set (st0 := set_twf _ st) in *.
  pose proof (lagrange_call_computes 1 "boundary" st0 Hok) as Hcc.
  destruct (lagrange_coefficients_ASTME202211 1 "boundary" st0)
    as [rcc st1] eqn:Ecc.
  assert (Hok1 : lagrange_cache_ok st1).
  { change st1 with (snd (rcc, st1)). rewrite <- Ecc.
    now apply lagrange_preserves_ok. }
  simpl in Hcc. subst rcc. change (lagrange_compute 1 "boundary") with (@Ret matrix []).
  pose proof (lagrange_call_computes 1 "inner" st1 Hok1) as Hcb.
  destruct (lagrange_coefficients_ASTME202211 1 "inner" st1)
    as [rcb st2] eqn:Ecb.
  simpl in Hcb. subst rcb. change (lagrange_compute 1 "inner") with (@Ret matrix []).
  cbv beta iota. rewrite weighting_loops_unit. reflexivity.
Qed.

End BuilderExtras.

(** * Further properties of the spectral integrator *)

Lemma xQeq_refl a : xQeq a a.
Proof. destruct a; simpl; [reflexivity | exact I]. Qed.

(** What the integrator computes when the three arrays have the length of
    the CMFS. *)
Lemma spectral_to_XYZ_values spd cmfs illuminant :
  let s := integrated_spd cmfs spd in
  let I := integrated_illuminant cmfs illuminant in
  let N := np_divide 100 (dot (y_bar_values cmfs) I) in
  length s = length (cmfs_data cmfs) ->
  length I = length (cmfs_data cmfs) ->
  spectral_to_XYZ spd cmfs illuminant =
  Ret [xmul N (dot (zip_with Qmult s (x_bar_values cmfs)) I);
       xmul N (dot (zip_with Qmult s (y_bar_values cmfs)) I);
       xmul N (dot (zip_with Qmult s (z_bar_values cmfs)) I)].
Proof.
  intros s I N Hs HI.
  assert (Hx : length (x_bar_values cmfs) = length (cmfs_data cmfs))
    by (unfold x_bar_values; now rewrite length_map).
  assert (Hy : length (y_bar_values cmfs) = length (cmfs_data cmfs))
    by (unfold y_bar_values; now rewrite length_map).
  assert (Hz : length (z_bar_values cmfs) = length (cmfs_data cmfs))
    by (unfold z_bar_values; now rewrite length_map).
  unfold spectral_to_XYZ.
  replace (spd_values (if negb (shape_eqb (spd_shape spd) (cmfs_shape cmfs))
                       then zeros (cmfs_shape cmfs) spd else spd)) with s
    by (unfold s, integrated_spd, aligned; now destruct (shape_eqb _ _)).
  replace (spd_values match illuminant with
                      | Some i =>
                          if negb (shape_eqb (spd_shape i) (cmfs_shape cmfs))
                          then zeros (cmfs_shape cmfs) i else i
                      | None => ones_spd (cmfs_shape cmfs)
                      end) with I.
  2:{ unfold I, integrated_illuminant, aligned. destruct illuminant as [i|].
      - now destruct (shape_eqb _ _).
      - reflexivity. }
  assert (Hp : forall v, length v = length (cmfs_data cmfs) ->
            length (zip_with Qmult s v) = length I).
  { intros v Hv. rewrite length_zip_with. lia. }
  rewrite !(np_multiply_same_length s) by congruence. simpl.
  rewrite !np_multiply_same_length by (auto; congruence). simpl.
  reflexivity.
Qed.

Lemma integrated_spd_length spd cmfs :
  cmfs_on_grid cmfs -> spd_on_grid spd ->
  length (integrated_spd cmfs spd) = length (cmfs_data cmfs).
Proof.
  intros Hc Hs. unfold integrated_spd. rewrite aligned_length by assumption.
  now rewrite Hc.
Qed.

Lemma integrated_illuminant_length cmfs illuminant :
  cmfs_on_grid cmfs ->
  (forall i, illuminant = Some i -> spd_on_grid i) ->
  length (integrated_illuminant cmfs illuminant) = length (cmfs_data cmfs).
Proof.
  intros Hc Hi. unfold integrated_illuminant. destruct illuminant as [i|].
  - rewrite aligned_length by now apply Hi. now rewrite Hc.
  - rewrite ones_spd_values, repeat_length. now rewrite Hc.
Qed.

(** X5.  On an SPD and an illuminant that have the shape of the CMFS, all
    of them sampled on its grid, the integrator never raises, division by
    zero included: it returns three components that are all finite when
    [sum (y_bar * I)] is not zero and all non-finite when it is.  No input
    is zero-extended here. *)
Theorem spectral_to_XYZ_finite_iff spd cmfs illuminant :
  cmfs_on_grid cmfs ->
  spd_on_grid spd -> shape_eqb (spd_shape spd) (cmfs_shape cmfs) = true ->
  (forall i, illuminant = Some i ->
     spd_on_grid i /\ shape_eqb (spd_shape i) (cmfs_shape cmfs) = true) ->
  exists X Y Z,
    spectral_to_XYZ spd cmfs illuminant = Ret [X; Y; Z] /\
    let d := dot (y_bar_values cmfs)
               (match illuminant with
                | None => repeat 1 (length (cmfs_data cmfs))
                | Some i => spd_values i
                end) in
    (d == 0 /\ X = None /\ Y = None /\ Z = None) \/
    (~ d == 0 /\ is_Some X /\ is_Some Y /\ is_Some Z).
Proof.
  intros Hc Hs Hsh Hi.
  assert (Hspd : integrated_spd cmfs spd = spd_values spd)
    by (unfold integrated_spd, aligned; now rewrite Hsh).
  assert (Hill : integrated_illuminant cmfs illuminant
                 = match illuminant with
                   | None => repeat 1 (length (cmfs_data cmfs))
                   | Some i => spd_values i
                   end).
  { unfold integrated_illuminant, aligned. destruct illuminant as [i|].
    - destruct (Hi i eq_refl) as [_ Hshi]. now rewrite Hshi.
    - rewrite ones_spd_values. now rewrite Hc. }
  assert (Hlen : forall a, spd_on_grid a ->
            shape_eqb (spd_shape a) (cmfs_shape cmfs) = true ->
            length (spd_values a) = length (cmfs_data cmfs)).
  { intros a Ha Hsa. unfold spd_values. rewrite length_map, Ha.
    rewrite (shape_range_length_eqb _ _ Hsa). symmetry. exact Hc. }
  rewrite spectral_to_XYZ_values.
  2:{ rewrite Hspd. now apply Hlen. }
  2:{ rewrite Hill. destruct illuminant as [i|].
      - destruct (Hi i eq_refl). now apply Hlen.
      - apply repeat_length. }
  rewrite Hill.
  do 3 eexists. split; [reflexivity|]. simpl.
  unfold np_divide.
  destruct (Qeq_bool _ 0) eqn:E.
  - left. apply Qeq_bool_iff in E. simpl. auto.
  - right. apply Qeq_bool_neq in E. simpl. repeat split; eauto.
Qed.

(** [b] is [a] multiplied by [c], entry by entry. *)
Lemma lookup_wavelength_scaled (c : Q) (data : list (Q * Q)) w :
  lookup_wavelength (map (fun p => (fst p, c * snd p)) data) w
  = option_map (Qmult c) (lookup_wavelength data w).
Proof.
  induction data as [|[w0 v0] data IH]; simpl; [reflexivity|].
  destruct (Qeq_bool w0 w); [reflexivity | exact IH].
Qed.

Lemma scaled_values_aligned c shape s :
  Forall2 (fun a b => b == c * a)
    (spd_values (aligned shape s)) (spd_values (aligned shape (scale_spd c s))).
Proof.
  unfold aligned, scale_spd, spd_values; simpl.
  destruct (shape_eqb (spd_shape s) shape); simpl.
  - induction (spd_data s) as [|p l IH]; simpl; constructor;
      [reflexivity | exact IH].
  - induction (shape_range shape) as [|w l IH]; simpl; constructor;
      [|exact IH].
    rewrite lookup_wavelength_scaled.
    destruct (lookup_wavelength (spd_data s) w); simpl; [reflexivity | ring].
Qed.

Lemma zip_with_scaled_l c (a a' b : list Q) :
  Forall2 (fun x y => y == c * x) a a' ->
  Forall2 (fun x y => y == c * x) (zip_with Qmult a b) (zip_with Qmult a' b).
Proof.
  intros H. revert b. induction H as [|x y a a' Hxy _ IH]; intros [|z b];
    simpl; constructor; [|apply IH].
  rewrite Hxy. ring.
Qed.

Lemma dot_scaled_l c (a a' b : list Q) :
  Forall2 (fun x y => y == c * x) a a' -> dot a' b == c * dot a b.
Proof.
  intros H. unfold dot, Qsum. revert b.
  induction H as [|x y a a' Hxy _ IH]; intros [|z b]; simpl; try ring.
  rewrite IH, Hxy. ring.
Qed.

Lemma dot_scaled_r c (a b b' : list Q) :
  Forall2 (fun x y => y == c * x) b b' -> dot a b' == c * dot a b.
Proof.
  intros H. unfold dot, Qsum. revert a.
  induction H as [|x y b b' Hxy _ IH]; intros [|z a]; simpl; try ring.
  rewrite IH, Hxy. ring.
Qed.

Lemma Forall2_length_scaled c (a a' : list Q) :
  Forall2 (fun x y => y == c * x) a a' -> length a' = length a.
Proof. intros H. symmetry. exact (Forall2_length _ _ _ H). Qed.

Lemma np_divide_comp a s s' : s == s' -> xQeq (np_divide a s) (np_divide a s').
Proof.
  intros H. unfold np_divide.
  destruct (Qeq_bool s 0) eqn:E, (Qeq_bool s' 0) eqn:E'; simpl; try exact I.
  - apply Qeq_bool_iff in E. apply Qeq_bool_neq in E'. rewrite <- H in E'.
    contradiction.
  - apply Qeq_bool_iff in E'. apply Qeq_bool_neq in E. rewrite H in E.
    contradiction.
  - now rewrite H.
Qed.

(** X6.  Only the relative power of the illuminant matters: on gridded data,
    multiplying every value of the illuminant by a constant that is not
    zero leaves the three components as they are (up to the equality of
    rationals; a non-finite component stays non-finite). *)
Theorem illuminant_scale_invariance c spd cmfs i :
  ~ c == 0 ->
  cmfs_on_grid cmfs -> spd_on_grid spd -> spd_on_grid i ->
  exists v v',
    spectral_to_XYZ spd cmfs (Some i) = Ret v /\
    spectral_to_XYZ spd cmfs (Some (scale_spd c i)) = Ret v' /\
    Forall2 xQeq v v'.
Proof.
  intros Hc Hg Hs Hi.
  pose proof (scaled_values_aligned c (cmfs_shape cmfs) i) as HI.
  fold (integrated_illuminant cmfs (Some i)) in HI.
  fold (integrated_illuminant cmfs (Some (scale_spd c i))) in HI.
  assert (Hl : length (integrated_illuminant cmfs (Some i))
               = length (cmfs_data cmfs)).
  { apply integrated_illuminant_length; [assumption|]. now intros ? [= <-]. }
  rewrite (spectral_to_XYZ_values spd cmfs (Some i))
    by (assumption || now apply integrated_spd_length).
  rewrite (spectral_to_XYZ_values spd cmfs (Some (scale_spd c i)))
    by (solve [now apply integrated_spd_length]
        || now rewrite (Forall2_length_scaled _ _ _ HI)).
  do 2 eexists. split; [reflexivity|]. split; [reflexivity|].
  set (I := integrated_illuminant cmfs (Some i)) in *.
  set (I' := integrated_illuminant cmfs (Some (scale_spd c i))) in *.
  pose proof (dot_scaled_r c (y_bar_values cmfs) I I' HI) as Hd.
  unfold np_divide.
  destruct (Qeq_bool (dot (y_bar_values cmfs) I) 0) eqn:E;
    destruct (Qeq_bool (dot (y_bar_values cmfs) I') 0) eqn:E'.
  - constructor; [|constructor;
                           [|constructor; [|constructor]]];
      exact Logic.I.
  - exfalso. apply Qeq_bool_iff in E. apply Qeq_bool_neq in E'.
    apply E'. rewrite Hd, E. ring.
  - exfalso. apply Qeq_bool_iff in E'. apply Qeq_bool_neq in E.
    rewrite Hd in E'. apply Qmult_integral in E'. tauto.
  - apply Qeq_bool_neq in E, E'.
    constructor; [|constructor;
                           [|constructor; [|constructor]]];
      simpl; rewrite !(dot_scaled_r c _ I I' HI); field; auto.
Qed.

(** X7.  The integrator is homogeneous in the SPD: on gridded data,
    multiplying every value of the SPD by [c] multiplies the three
    components by [c]. *)
Theorem spd_scale_homogeneity c spd cmfs illuminant :
  cmfs_on_grid cmfs -> spd_on_grid spd ->
  (forall i, illuminant = Some i -> spd_on_grid i) ->
  exists v v',
    spectral_to_XYZ spd cmfs illuminant = Ret v /\
    spectral_to_XYZ (scale_spd c spd) cmfs illuminant = Ret v' /\
    Forall2 (fun a b => xQeq b (option_map (Qmult c) a)) v v'.
Proof.
  intros Hg Hs Hi.
  pose proof (scaled_values_aligned c (cmfs_shape cmfs) spd) as HS.
  fold (integrated_spd cmfs spd) in HS.
  fold (integrated_spd cmfs (scale_spd c spd)) in HS.
  pose proof (integrated_spd_length spd cmfs Hg Hs) as Hl.
  pose proof (integrated_illuminant_length cmfs illuminant Hg Hi) as HIl.
  rewrite (spectral_to_XYZ_values spd cmfs illuminant) by assumption.
  rewrite (spectral_to_XYZ_values (scale_spd c spd) cmfs illuminant)
    by (assumption || now rewrite (Forall2_length_scaled _ _ _ HS)).
  do 2 eexists. split; [reflexivity|]. split; [reflexivity|].
  destruct (np_divide 100 _) as [N|]; simpl;
    (constructor; [|constructor;
                            [|constructor; [|constructor]]]);
    simpl; try exact Logic.I;
    rewrite (dot_scaled_l c _ _ _ (zip_with_scaled_l c _ _ _ HS)); ring.
Qed.

Lemma dot_ones_l n (y I : list Q) :
  length y = n -> dot (zip_with Qmult (repeat 1 n) y) I == dot y I.
Proof.
  intros <-. unfold dot, Qsum. revert I.
  induction y as [|a y IH]; intros [|b I]; simpl; try reflexivity.
  rewrite IH. ring.
Qed.

Lemma shape_eqb_refl a : shape_eqb a a = true.
Proof.
  unfold shape_eqb.
  now rewrite !(proj2 (Qeq_bool_iff _ _) (Qeq_refl _)).
Qed.

(** X8.  The normalisation makes the perfect reflector white: on gridded
    data the all-ones SPD on the shape of the CMFS has [Y = 100] under any
    illuminant for which [sum (y_bar * I)] is not zero. *)
Theorem perfect_reflector_Y_is_100 cmfs illuminant :
  cmfs_on_grid cmfs ->
  (forall i, illuminant = Some i -> spd_on_grid i) ->
  ~ dot (y_bar_values cmfs) (integrated_illuminant cmfs illuminant) == 0 ->
  exists X Y Z,
    spectral_to_XYZ (ones_spd (cmfs_shape cmfs)) cmfs illuminant
    = Ret [X; Some Y; Z] /\ Y == 100.
Proof.
  intros Hg Hi Hd.
  assert (Hones : integrated_spd cmfs (ones_spd (cmfs_shape cmfs))
                  = repeat 1 (length (cmfs_data cmfs))).
  { unfold integrated_spd, aligned. simpl spd_shape.
    rewrite shape_eqb_refl, ones_spd_values. now rewrite Hg. }
  rewrite spectral_to_XYZ_values
    by (rewrite ?Hones, ?repeat_length;
        solve [reflexivity | now apply integrated_illuminant_length]).
  rewrite Hones. unfold np_divide.
  destruct (Qeq_bool _ 0) eqn:E; [apply Qeq_bool_iff in E; contradiction|].
  simpl. do 3 eexists. split; [reflexivity|].
  rewrite dot_ones_l by (unfold y_bar_values; now rewrite length_map).
  now field.
Qed.

(** * Further properties of the wavelength dispatcher *)

Lemma dstack3_layout (x y z : list Q) n :
  length x = n -> length y = n -> length z = n ->
  np_dstack3 x y z =
  Ret (concat (map (fun i => [nth i x 0; nth i y 0; nth i z 0]) (seq 0 n))).
Proof.
  intros Hx Hy Hz. unfold np_dstack3.
  rewrite Hx, Hy, Hz, Nat.eqb_refl. simpl. do 2 f_equal.
  clear - Hx Hy Hz. revert y z n Hx Hy Hz.
  induction x as [|a x IH]; intros [|b y] [|c z] [|n] Hx Hy Hz;
    simpl in *; try discriminate; [reflexivity|].
  f_equal. rewrite <- seq_shift, map_map. apply IH; congruence.
Qed.

Section DispatcherExtras.

Variable fit : interpolator -> list Q -> list Q ->
               string + (list Q -> string + list Q).

(** X9.  What a caller can rely on when the dispatcher returns: the input
    was not empty, every requested wavelength lies within
    [[cmfs.shape.start, cmfs.shape.end]], and the result has the shape of
    the input followed by an axis of size 3, with as many entries as that
    shape holds. *)
Theorem wavelength_to_XYZ_postcondition wavelength cmfs method XYZ :
  wavelength_to_XYZ fit wavelength cmfs method = Ret XYZ ->
  nd_data wavelength <> [] /\
  Forall (fun w => start (cmfs_shape cmfs) <= w /\ w <= end_ (cmfs_shape cmfs))
         (nd_data wavelength) /\
  nd_shape XYZ = nd_shape wavelength ++ [3%nat] /\
  nd_wf XYZ.
Proof.
  intros Hret.
  assert (Hne : nd_data wavelength <> []).
  { intros He. unfold wavelength_to_XYZ in Hret. rewrite He in Hret.
    discriminate Hret. }
  assert (Hin : ~ Exists (outside_domain cmfs) (nd_data wavelength)).
  { intros He. rewrite (wavelength_to_XYZ_outside fit _ _ _ He) in Hret.
    discriminate Hret. }
  split; [assumption|]. split.
  - apply Forall_forall. intros w Hw.
    destruct (Qlt_le_dec w (start (cmfs_shape cmfs))) as [Hlo|Hlo].
    { exfalso. apply Hin. apply Exists_exists. exists w. split; [assumption|].
      now left. }
    destruct (Qlt_le_dec (end_ (cmfs_shape cmfs)) w) as [Hhi|Hhi].
    { exfalso. apply Hin. apply Exists_exists. exists w. split; [assumption|].
      now right. }
    auto.
  - rewrite (wavelength_to_XYZ_inside fit _ _ _ Hne Hin) in Hret.
    unfold after_domain_check in Hret.
    destruct (if negb (cmfs_contains cmfs wavelength) then _ else _)
      as [data|e]; simpl in Hret; [|discriminate].
    unfold np_reshape in Hret.
    destruct (length data =? nd_size (nd_shape wavelength ++ [3%nat]))%nat
      eqn:E; [|discriminate].
    injection Hret as <-. split; [reflexivity|].
    unfold nd_wf. simpl. now apply Nat.eqb_eq.
Qed.

(** X10.  The layout of an interpolated result: when the three fitted
    interpolators each give one value per requested wavelength, the result
    holds, for the i-th requested wavelength in flattened order, the triple
    of the x_bar, y_bar and z_bar interpolants at positions [3 i], [3 i + 1]
    and [3 i + 2]. *)
Theorem interpolated_layout wavelength cmfs method k ix iy iz xs ys zs :
  nd_wf wavelength -> nd_data wavelength <> [] ->
  ~ Exists (outside_domain cmfs) (nd_data wavelength) ->
  cmfs_contains cmfs wavelength = false ->
  select_interpolator (option_map lower method) (is_uniform cmfs) = Ret k ->
  fit k (cmfs_wavelengths cmfs) (x_bar_values cmfs) = inr ix ->
  fit k (cmfs_wavelengths cmfs) (y_bar_values cmfs) = inr iy ->
  fit k (cmfs_wavelengths cmfs) (z_bar_values cmfs) = inr iz ->
  ix (nd_data wavelength) = inr xs ->
  iy (nd_data wavelength) = inr ys ->
  iz (nd_data wavelength) = inr zs ->
  length xs = length (nd_data wavelength) ->
  length ys = length (nd_data wavelength) ->
  length zs = length (nd_data wavelength) ->
  wavelength_to_XYZ fit wavelength cmfs method =
  Ret (mk_ndarray (nd_shape wavelength ++ [3%nat])
         (concat (map (fun i => [nth i xs 0; nth i ys 0; nth i zs 0])
                      (seq 0 (length (nd_data wavelength)))))).
Proof.
  intros Hwf Hne Hin Hc Hk Hfx Hfy Hfz Hx Hy Hz Hlx Hly Hlz.
  rewrite (wavelength_to_XYZ_inside fit _ _ _ Hne Hin).
  unfold after_domain_check. rewrite Hc. simpl negb. cbv iota.
  rewrite Hk. simpl rbind.
  unfold interpolate_channels. rewrite Hfx, Hfy, Hfz. simpl.
  rewrite Hx, Hy, Hz. simpl.
  rewrite (dstack3_layout xs ys zs _ Hlx Hly Hlz). simpl.
  unfold np_reshape. rewrite nd_size_app.
  replace (length (concat _)) with (nd_size (nd_shape wavelength) * 3)%nat.
  - now rewrite Nat.eqb_refl.
  - rewrite <- Hwf. clear. generalize 0%nat at 2.
    induction (length (nd_data wavelength)) as [|n IH]; intros s; simpl;
      [reflexivity|].
    rewrite <- (IH (S s)). lia.
Qed.

End DispatcherExtras.

(** * The weighting table adds up what direct summation adds up *)

(** ** Sums *)

Lemma Qsum_app l l' : Qsum (l ++ l') == Qsum l + Qsum l'.
Proof.
  unfold Qsum. induction l as [|a l IH]; simpl; [ring|]. rewrite IH. ring.
Qed.

Lemma Qsum_insert (l : list Q) r y :
  (r < length l)%nat -> Qsum (<[r := y]> l) == Qsum l - nth r l 0 + y.
Proof.
  unfold Qsum. revert r. induction l as [|a l IH]; intros [|r] Hr; simpl in *;
    try lia; [ring|].
  rewrite IH by lia. ring.
Qed.

Lemma Qsum_map_ext {A} (g h : A -> Q) l :
  (forall a, In a l -> g a == h a) -> Qsum (map g l) == Qsum (map h l).
Proof.
  unfold Qsum. induction l as [|a l IH]; intros H; simpl; [reflexivity|].
  rewrite (H a) by now left. rewrite IH; [reflexivity|].
  intros b Hb. apply H. now right.
Qed.

Lemma Qsum_map_scale {A} (d : Q) (g : A -> Q) l :
  Qsum (map (fun a => d * g a) l) == d * Qsum (map g l).
Proof.
  unfold Qsum. induction l as [|a l IH]; simpl; [ring|]. rewrite IH. ring.
Qed.

Lemma Qsum_map_plus {A} (g h : A -> Q) l :
  Qsum (map (fun a => g a + h a) l) == Qsum (map g l) + Qsum (map h l).
Proof.
  unfold Qsum. induction l as [|a l IH]; simpl; [ring|]. rewrite IH. ring.
Qed.

Lemma Qsum_nth (l : list Q) :
  Qsum l == Qsum (map (fun i => nth i l 0) (seq 0 (length l))).
Proof.
  unfold Qsum. induction l as [|a l IH]; simpl; [reflexivity|].
  rewrite <- seq_shift, map_map. simpl. now rewrite <- IH.
Qed.

Lemma zrange_seq n : zrange 0 (Z.of_nat n) = map Z.of_nat (seq 0 n).
Proof.
  unfold zrange. rewrite Z.sub_0_r, Nat2Z.id. apply map_ext. intros; lia.
Qed.

Lemma zrange_split a b c :
  (a <= b <= c)%Z -> zrange a c = zrange a b ++ zrange b c.
Proof.
  intros H. unfold zrange.
  replace (Z.to_nat (c - a)) with (Z.to_nat (b - a) + Z.to_nat (c - b))%nat
    by lia.
  rewrite seq_app, map_app. f_equal.
  replace (0 + Z.to_nat (b - a))%nat with (Z.to_nat (b - a) + 0)%nat by lia.
  rewrite <- (fmap_add_seq (Z.to_nat (b - a)) 0).
  change (fmap ?f ?l) with (map f l).
  rewrite map_map. apply map_ext. intros i. lia.
Qed.

Lemma rsum_empty f a b : (b <= a)%Z -> rsum f a b == 0.
Proof. intros H. unfold rsum. now rewrite zrange_empty. Qed.

Lemma rsum_split f a b c :
  (a <= b <= c)%Z -> rsum f a c == rsum f a b + rsum f b c.
Proof.
  intros H. unfold rsum. rewrite (zrange_split a b c H), map_app.
  apply Qsum_app.
Qed.

Lemma rsum_one f a : rsum f a (a + 1) == f a.
Proof.
  unfold rsum, zrange. replace (Z.to_nat (a + 1 - a)) with 1%nat by lia.
  unfold Qsum. simpl. rewrite Z.add_0_r. ring.
Qed.

Lemma rsum_ext f g a b :
  (forall j, (a <= j < b)%Z -> f j == g j) -> rsum f a b == rsum g a b.
Proof.
  intros H. unfold rsum. apply Qsum_map_ext.
  intros j Hj. apply H. now apply zrange_In.
Qed.

Lemma rsum_shift f d a b :
  rsum (fun j => f (j + d)%Z) a b == rsum f (a + d) (b + d).
Proof.
  unfold rsum, zrange.
  replace (Z.to_nat (b + d - (a + d))) with (Z.to_nat (b - a)) by lia.
  rewrite !map_map. apply Qsum_map_ext. intros i _.
  now replace (a + Z.of_nat i + d)%Z with (a + d + Z.of_nat i)%Z by lia.
Qed.

Lemma rsum_scale d f a b : rsum (fun j => d * f j) a b == d * rsum f a b.
Proof. unfold rsum. apply Qsum_map_scale. Qed.

Lemma rsum_plus f g a b :
  rsum (fun j => f j + g j) a b == rsum f a b + rsum g a b.
Proof. unfold rsum. apply Qsum_map_plus. Qed.

Lemma rsum_zero a b : rsum (fun _ => 0) a b == 0.
Proof.
  unfold rsum, Qsum. induction (zrange a b) as [|j l IH]; simpl;
    [reflexivity|]. rewrite IH. ring.
Qed.

(** A range of [m] blocks of length [k], summed block by block. *)
Lemma rsum_blocks f k (m : nat) :
  (1 <= k)%Z ->
  rsum f 0 (Z.of_nat m * k)
  == rsum (fun q => rsum f (q * k) (q * k + k)) 0 (Z.of_nat m).
Proof.
  intros Hk. induction m as [|m IH].
  - simpl. rewrite !rsum_empty by lia. reflexivity.
  - rewrite (rsum_split f 0 (Z.of_nat m * k) (Z.of_nat (S m) * k)) by nia.
    rewrite (rsum_split _ 0 (Z.of_nat m) (Z.of_nat (S m))) by lia.
    rewrite IH.
    replace (Z.of_nat (S m)) with (Z.of_nat m + 1)%Z by lia.
    rewrite rsum_one.
    now replace ((Z.of_nat m + 1) * k)%Z with (Z.of_nat m * k + k)%Z by lia.
Qed.

(** The wavelengths [0 .. n - 1] are the measured ones [r k], the
    interpolated ones of the first, of the last and of the intermediate
    intervals, and the ones after the last measured wavelength, each counted
    once. *)
Lemma wavelengths_partition f k n :
  (1 <= k)%Z -> (1 <= n)%Z ->
  let m := ((n - 1) / k)%Z in
  (2 <= k -> 2 <= m)%Z ->
  rsum f 0 n ==
  rsum (fun r => f (r * k)%Z) 0 (m + 1)
  + (rsum (fun j => f (j + 1)%Z) 0 (k - 1)
     + rsum (fun j => f (j + (n - (n - 1) mod k - 1 - (k - 1)))%Z) 0 (k - 1)
     + rsum (fun j => rsum (fun t => f ((k - 1 + 1) * (j + 1) + 1 + t)%Z)
                        0 (k - 1)) 0 (m + 1 - 3)
     + rsum f (n - (n - 1) mod k) n).
Proof.
  intros Hk Hn m Hm.
  assert (Hdm : (n - 1 = k * m + (n - 1) mod k)%Z) by (apply Z.div_mod; lia).
  assert (Hmod : (0 <= (n - 1) mod k < k)%Z) by (apply Z.mod_pos_bound; lia).
  assert (Hm0 : (0 <= m)%Z) by (apply Z.div_pos; lia).
  set (I := fun q => rsum (fun t => f (q * k + 1 + t)%Z) 0 (k - 1)).
  replace (n - (n - 1) mod k)%Z with (m * k + 1)%Z by lia.
  rewrite (rsum_split f 0 (m * k) n) by nia.
  rewrite (rsum_split f (m * k) (m * k + 1) n) by lia.
  rewrite rsum_one.
  rewrite <- (Z2Nat.id m Hm0) at 1. rewrite rsum_blocks by assumption.
  rewrite (Z2Nat.id m Hm0).
  rewrite (rsum_ext _ (fun q => f (q * k)%Z + I q) 0 m).
  2:{ intros q Hq. rewrite (rsum_split f (q * k) (q * k + 1) (q * k + k)) by lia.
      rewrite rsum_one. apply Qplus_comp; [reflexivity|].
      unfold I.
      rewrite (rsum_ext (fun t => f (q * k + 1 + t)%Z)
                 (fun t => f (t + (q * k + 1))%Z) 0 (k - 1))
        by (intros t _; now replace (q * k + 1 + t)%Z
                              with (t + (q * k + 1))%Z by lia).
      rewrite rsum_shift.
      replace (0 + (q * k + 1))%Z with (q * k + 1)%Z by lia.
      now replace (k - 1 + (q * k + 1))%Z with (q * k + k)%Z by lia. }
  rewrite rsum_plus.
  rewrite (rsum_split (fun r => f (r * k)%Z) 0 m (m + 1)) by lia.
  rewrite rsum_one.
  assert (HI : rsum I 0 m ==
               rsum (fun j => f (j + 1)%Z) 0 (k - 1)
               + rsum (fun j => f (j + (m * k + 1 - 1 - (k - 1)))%Z) 0 (k - 1)
               + rsum (fun j => rsum (fun t => f ((k - 1 + 1) * (j + 1) + 1 + t)%Z)
                                  0 (k - 1)) 0 (m + 1 - 3)).
  { destruct (Z.eq_dec k 1%Z) as [->|Hk1].
    - rewrite (rsum_ext I (fun _ => 0)) by (intros; unfold I; apply rsum_empty; lia).
      rewrite (rsum_ext (fun j => rsum _ 0 (1 - 1)) (fun _ => 0))
        by (intros; apply rsum_empty; lia).
      rewrite !rsum_zero, !rsum_empty by lia. ring.
    - specialize (Hm ltac:(lia)).
      rewrite (rsum_split I 0 1 m) by lia.
      rewrite (rsum_split I 1 (m - 1) m) by lia.
      replace 1%Z with (0 + 1)%Z at 1 by lia.
      replace m with (m - 1 + 1)%Z at 3 by lia.
      rewrite !rsum_one.
      assert (H0 : I 0%Z == rsum (fun j => f (j + 1)%Z) 0 (k - 1)).
      { unfold I. apply rsum_ext. intros t _.
        now replace (0 * k + 1 + t)%Z with (t + 1)%Z by lia. }
      assert (H1 : I (m - 1)%Z
                   == rsum (fun j => f (j + (m * k + 1 - 1 - (k - 1)))%Z)
                        0 (k - 1)).
      { unfold I. apply rsum_ext. intros t _.
        now replace ((m - 1) * k + 1 + t)%Z
          with (t + (m * k + 1 - 1 - (k - 1)))%Z by lia. }
      assert (H2 : rsum I 1 (m - 1)
                   == rsum (fun j => rsum (fun t =>
                        f ((k - 1 + 1) * (j + 1) + 1 + t)%Z) 0 (k - 1))
                        0 (m + 1 - 3)).
      { rewrite (rsum_ext _ (fun j => I (j + 1)%Z) 0 (m + 1 - 3)).
        - rewrite rsum_shift.
          now replace (m + 1 - 3 + 1)%Z with (m - 1)%Z by lia.
        - intros j _. unfold I. apply rsum_ext. intros t _.
          now replace ((k - 1 + 1) * (j + 1) + 1 + t)%Z
            with ((j + 1) * k + 1 + t)%Z by lia. }
      rewrite H0, H1, H2. ring. }
  rewrite HI. ring.
Qed.

(** ** What one assignment of the loops does to a column sum *)

Lemma get1_value {A} (a : list A) k d :
  (0 <= k < Z.of_nat (length a))%Z -> get1 a k = Ret (nth (Z.to_nat k) a d).
Proof.
  intros H. unfold get1. rewrite np_index_in_range by assumption. simpl.
  destruct (lookup_lt_is_Some_2 a (Z.to_nat k)) as [x Hx]; [lia|].
  rewrite Hx. f_equal. now rewrite nth_lookup, Hx.
Qed.

Lemma table_row rows cols a k :
  table_shape rows cols a -> (0 <= k < Z.of_nat rows)%Z ->
  length (nth (Z.to_nat k) a []) = cols /\ In (nth (Z.to_nat k) a []) a.
Proof.
  intros [Hlen Hrows] Hk.
  assert (Hin : In (nth (Z.to_nat k) a []) a) by (apply nth_In; lia).
  split; [|assumption].
  rewrite Forall_forall in Hrows. apply Hrows. now apply list_elem_of_In.
Qed.

Lemma get2_value rows cols a k i :
  table_shape rows cols a ->
  (0 <= k < Z.of_nat rows)%Z -> (0 <= i < Z.of_nat cols)%Z ->
  get2 a k i = Ret (nth (Z.to_nat i) (nth (Z.to_nat k) a []) 0).
Proof.
  intros Ha Hk Hi. unfold get2.
  rewrite (get1_value a k []) by (rewrite (proj1 Ha); assumption). simpl.
  apply get1_value. now rewrite (proj1 (table_row rows cols a k Ha Hk)).
Qed.

Lemma weighted_product_value rc cc n cm cj ck S Y w i :
  table_shape rc cc cm -> length S = n -> table_shape n 3 Y ->
  (0 <= cj < Z.of_nat rc)%Z -> (0 <= ck < Z.of_nat cc)%Z ->
  (0 <= w < Z.of_nat n)%Z -> (0 <= i < 3)%Z ->
  weighted_product cm cj ck S Y w i
  = Ret (nth (Z.to_nat ck) (nth (Z.to_nat cj) cm []) 0
         * nth (Z.to_nat w) S 0
         * nth (Z.to_nat i) (nth (Z.to_nat w) Y []) 0).
Proof.
  intros Hc HS HY Hcj Hck Hw Hi. unfold weighted_product.
  rewrite (get2_value rc cc cm cj ck Hc Hcj Hck). simpl.
  rewrite (get1_value S w 0) by lia. simpl.
  rewrite (get2_value n 3 Y w i HY Hw) by lia. reflexivity.
Qed.

Lemma nth_insert_Q (row : list Q) ci c x :
  (ci < length row)%nat ->
  nth c (<[ci := x]> row) 0 = if (ci =? c)%nat then x else nth c row 0.
Proof.
  intros H. rewrite !nth_lookup.
  destruct (ci =? c)%nat eqn:E.
  - apply Nat.eqb_eq in E. subst. now rewrite list_lookup_insert_eq.
  - apply Nat.eqb_neq in E. now rewrite list_lookup_insert_ne.
Qed.

Lemma column_nth W c r : nth r (column W c) 0 = nth c (nth r W []) 0.
Proof.
  unfold column.
  rewrite <- (map_nth (fun row : list Q => nth c row 0) W [] r).
  now destruct c.
Qed.

(** [W[k, i] = W[k, i] + v] adds [v] to the sum of column [i] and leaves
    the sums of the other columns alone. *)
Lemma add_at_column rows cols W k i v c :
  table_shape rows cols W ->
  (0 <= k < Z.of_nat rows)%Z -> (0 <= i < Z.of_nat cols)%Z ->
  exists W', add_at W k i (Ret v) = Ret W' /\ table_shape rows cols W' /\
    Qsum (column W' c) == Qsum (column W c) + on_channel c i * v.
Proof.
  intros HW Hk Hi. unfold add_at.
  rewrite (get2_value rows cols W k i HW Hk Hi). simpl.
  destruct (table_row rows cols W k HW Hk) as [Hrow _].
  set (row := nth (Z.to_nat k) W []) in *.
  assert (Hlook : W !! Z.to_nat k = Some row).
  { destruct (lookup_lt_is_Some_2 W (Z.to_nat k)) as [x Hx];
      [rewrite (proj1 HW); lia|].
    rewrite Hx. f_equal. unfold row. now rewrite nth_lookup, Hx. }
  unfold set2. rewrite np_index_in_range by (rewrite (proj1 HW); assumption).
  simpl. rewrite Hlook. rewrite np_index_in_range by (rewrite Hrow; assumption).
  simpl. eexists. split; [reflexivity|]. split.
  - split; [now rewrite length_insert, (proj1 HW)|].
    apply Forall_insert; [exact (proj2 HW)|]. now rewrite length_insert.
  - unfold column at 1. change (map ?f ?l) with (fmap f l).
    rewrite list_fmap_insert. change (fmap ?f ?l) with (map f l).
    fold (column W c).
    rewrite Qsum_insert
      by (unfold column; rewrite length_map, (proj1 HW); lia).
    rewrite column_nth. fold row.
    rewrite nth_insert_Q by lia. unfold on_channel.
    destruct (Z.to_nat i =? c)%nat eqn:E.
    + apply Nat.eqb_eq in E. subst c. ring.
    + ring.
Qed.

Lemma on_channel_product S Y c w i :
  (0 <= i)%Z ->
  on_channel c i * (nth (Z.to_nat w) S 0 * nth (Z.to_nat i) (nth (Z.to_nat w) Y []) 0)
  == on_channel c i * channel_product S Y c w.
Proof.
  intros Hi. unfold on_channel, channel_product.
  destruct (Z.to_nat i =? c)%nat eqn:E; [|ring].
  apply Nat.eqb_eq in E. subst c. reflexivity.
Qed.

(** One assignment of the loops: [W[r, i] += cm[cj, ck] * S[w] * Y[w, i]]. *)
Lemma add_product_step rows rc cc n cm cj ck S Y w i c r W :
  table_shape rc cc cm -> length S = n -> table_shape n 3 Y ->
  table_shape rows 3 W ->
  (0 <= cj < Z.of_nat rc)%Z -> (0 <= ck < Z.of_nat cc)%Z ->
  (0 <= w < Z.of_nat n)%Z -> (0 <= i < 3)%Z -> (0 <= r < Z.of_nat rows)%Z ->
  exists W', add_at W r i (weighted_product cm cj ck S Y w i) = Ret W' /\
    table_shape rows 3 W' /\
    Qsum (column W' c) ==
    Qsum (column W c)
    + on_channel c i * (nth (Z.to_nat ck) (nth (Z.to_nat cj) cm []) 0
                        * channel_product S Y c w).
Proof.
  intros Hcm HS HY HW Hcj Hck Hw Hi Hr.
  rewrite (weighted_product_value rc cc n cm cj ck S Y w i) by assumption.
  destruct (add_at_column rows 3 W r i
              (nth (Z.to_nat ck) (nth (Z.to_nat cj) cm []) 0
               * nth (Z.to_nat w) S 0
               * nth (Z.to_nat i) (nth (Z.to_nat w) Y []) 0) c HW Hr)
    as (W' & -> & HW' & Hsum); [lia|].
  exists W'. split; [reflexivity|]. split; [assumption|].
  rewrite Hsum. apply Qplus_comp; [reflexivity|].
  rewrite <- Qmult_assoc, (Qmult_comm (on_channel c i)), <- Qmult_assoc.
  rewrite (Qmult_comm _ (on_channel c i)).
  rewrite (on_channel_product S Y c w i) by lia. ring.
Qed.

(** A loop whose steps each add a known amount to a measure adds the sum of
    the amounts. *)
Lemma foldM_measure {A St} (I : St -> Prop) (mu : St -> Q) (g : A -> Q)
    (f : St -> A -> result St) l s :
  (forall s a, In a l -> I s ->
     exists s', f s a = Ret s' /\ I s' /\ mu s' == mu s + g a) ->
  I s ->
  exists s', foldM f l s = Ret s' /\ I s' /\ mu s' == mu s + Qsum (map g l).
Proof.
  revert s. induction l as [|a l IH]; intros s Hf Hs; simpl.
  - exists s. split; [reflexivity|]. split; [assumption|]. unfold Qsum; simpl. ring.
  - destruct (Hf s a) as (s1 & -> & Hs1 & Hm1); [now left | assumption|]. simpl.
    destruct (IH s1) as (s2 & -> & Hs2 & Hm2); [|assumption|].
    { intros s0 a0 Ha0. apply Hf. now right. }
    exists s2. split; [reflexivity|]. split; [assumption|].
    rewrite Hm2, Hm1. unfold Qsum; simpl. ring.
Qed.

(** ** What the four loops of lines 265-288 add to a column *)

Lemma rbind_measure {St} (I : St -> Prop) (mu : St -> Q) (r : result St)
    (k : St -> result St) s a b t :
  t == a + b ->
  (exists s1, r = Ret s1 /\ I s1 /\ mu s1 == mu s + a) ->
  (forall s1, I s1 -> exists s2, k s1 = Ret s2 /\ I s2 /\ mu s2 == mu s1 + b) ->
  exists s2, rbind r k = Ret s2 /\ I s2 /\ mu s2 == mu s + t.
Proof.
  intros Ht (s1 & -> & Hs1 & Hm1) Hk. simpl.
  destruct (Hk s1 Hs1) as (s2 & -> & Hs2 & Hm2).
  exists s2. split; [reflexivity|]. split; [assumption|].
  rewrite Hm2, Hm1, Ht. ring.
Qed.

Lemma unit_row rows cols cm j :
  unit_rows rows cols cm -> (0 <= j < Z.of_nat rows)%Z ->
  length (nth (Z.to_nat j) cm []) = cols /\ Qsum (nth (Z.to_nat j) cm []) == 1.
Proof.
  intros [Hshape Hsum] Hj.
  destruct (table_row rows cols cm j Hshape Hj) as [Hlen Hin].
  split; [assumption|].
  rewrite Forall_forall in Hsum. apply Hsum. now apply list_elem_of_In.
Qed.

(** The assignments of one inner loop over a row of coefficients. *)
Lemma distribute_row rows rc cc n cm cj S Y w i c (rho kappa : Z -> Z) L W :
  table_shape rc cc cm -> length S = n -> table_shape n 3 Y ->
  table_shape rows 3 W ->
  (0 <= cj < Z.of_nat rc)%Z -> (0 <= w < Z.of_nat n)%Z -> (0 <= i < 3)%Z ->
  (forall t, In t L ->
     (0 <= rho t < Z.of_nat rows)%Z /\ (0 <= kappa t < Z.of_nat cc)%Z) ->
  exists W',
    foldM (fun W t =>
             add_at W (rho t) i (weighted_product cm cj (kappa t) S Y w i))
          L W = Ret W' /\
    table_shape rows 3 W' /\
    Qsum (column W' c) ==
    Qsum (column W c)
    + Qsum (map (fun t => on_channel c i
                          * (nth (Z.to_nat (kappa t)) (nth (Z.to_nat cj) cm []) 0
                             * channel_product S Y c w)) L).
Proof.
  intros Hcm HS HY HW Hcj Hw Hi HL.
  apply (foldM_measure (table_shape rows 3) (fun W => Qsum (column W c)));
    [|assumption].
  intros W0 t Ht HW0. destruct (HL t Ht) as [Hr Hk].
  now apply (add_product_step rows rc cc n).
Qed.

Lemma three_coefficients (row : list Q) d x :
  length row = 3%nat -> Qsum row == 1 ->
  Qsum (map (fun t => d * (nth (Z.to_nat t) row 0 * x)) (zrange 0 3)) == d * x.
Proof.
  intros Hlen Hsum.
  destruct row as [|a [|b [|e [|? ?]]]]; try discriminate Hlen.
  change (zrange 0 3) with [0; 1; 2]%Z. unfold Qsum in *. simpl in *.
  transitivity (d * x * (a + (b + (e + 0)))); [ring|].
  rewrite Hsum. ring.
Qed.

Lemma zrange_down_three M :
  zrange_down M (M - 3) = [(M - 0)%Z; (M - 1)%Z; (M - 2)%Z].
Proof.
  unfold zrange_down. now replace (Z.to_nat (M - (M - 3))) with 3%nat by lia.
Qed.

Lemma three_coefficients_down (row : list Q) d x M :
  length row = 3%nat -> Qsum row == 1 ->
  Qsum (map (fun t => d * (nth (Z.to_nat (M - t)) row 0 * x))
            (zrange_down M (M - 3))) == d * x.
Proof.
  intros Hlen Hsum. rewrite zrange_down_three.
  destruct row as [|a [|b [|e [|? ?]]]]; try discriminate Hlen.
  cbn [map].
  replace (Z.to_nat (M - (M - 0))) with 0%nat by lia.
  replace (Z.to_nat (M - (M - 1))) with 1%nat by lia.
  replace (Z.to_nat (M - (M - 2))) with 2%nat by lia.
  unfold Qsum in *. simpl in *.
  transitivity (d * x * (a + (b + (e + 0)))); [ring|].
  rewrite Hsum. ring.
Qed.

Lemma four_coefficients (row : list Q) d x :
  length row = 4%nat -> Qsum row == 1 ->
  d * (nth 0 row 0 * x)
  + (d * (nth 1 row 0 * x) + (d * (nth 2 row 0 * x) + d * (nth 3 row 0 * x)))
  == d * x.
Proof.
  intros Hlen Hsum.
  destruct row as [|a [|b [|e [|g [|? ?]]]]]; try discriminate Hlen.
  unfold Qsum in *. simpl in *.
  transitivity (d * x * (a + (b + (e + (g + 0))))); [ring|].
  rewrite Hsum. ring.
Qed.

Lemma on_channel_total (c : nat) x :
  (c < 3)%nat -> Qsum (map (fun i => on_channel c i * x) (zrange 0 3)) == x.
Proof.
  intros Hc. change (zrange 0 3) with [0; 1; 2]%Z.
  destruct c as [|[|[|c]]]; try lia; unfold Qsum, on_channel; simpl; ring.
Qed.

(** With coefficient rows that each sum to one, the loops add to column [c]
    exactly the products [S[w] * Y[w, c]] of the wavelengths they visit,
    however the coefficients spread each product over the rows. *)
Lemma weighting_loops_column_sum c_c c_b S Y k W n c :
  (1 <= k)%Z ->
  unit_rows (Z.to_nat (k - 1)) 3 c_c -> unit_rows (Z.to_nat (k - 1)) 4 c_b ->
  length S = n -> table_shape n 3 Y ->
  table_shape (Z.to_nat ((Z.of_nat n - 1) / k + 1)) 3 W ->
  (2 <= k -> 2 * k + 1 <= Z.of_nat n)%Z ->
  (c < 3)%nat ->
  exists W', weighting_loops c_c c_b S Y k W = Ret W' /\
             table_shape (Z.to_nat ((Z.of_nat n - 1) / k + 1)) 3 W' /\
             Qsum (column W' c) == Qsum (column W c) + distributed S Y c k.
Proof.
  intros Hk Ucc Ucb HS HY HW Hsize Hc.
  pose proof (proj1 Ucc) as Hcc. pose proof (proj1 Ucb) as Hcb.
  unfold distributed. rewrite (proj1 HY). cbv zeta.
  set (m := ((Z.of_nat n - 1) / k)%Z) in *.
  set (f := channel_product S Y c).
  assert (Hdm : (Z.of_nat n - 1 = k * m + (Z.of_nat n - 1) mod k)%Z)
    by (apply Z.div_mod; lia).
  assert (Hmod : (0 <= (Z.of_nat n - 1) mod k < k)%Z)
    by (apply Z.mod_pos_bound; lia).
  assert (Hm : (-1 <= m)%Z) by nia.
  assert (Hm2 : (2 <= k -> 2 <= m)%Z) by (intros H2; specialize (Hsize H2); nia).
  unfold weighting_loops.
  rewrite (proj1 HY), (proj1 Hcb), (proj1 HW).
  replace (Z.of_nat (Z.to_nat (k - 1))) with (k - 1)%Z by lia.
  replace (Z.of_nat (Z.to_nat (m + 1))) with (m + 1)%Z by lia.
  set (I := table_shape (Z.to_nat (m + 1)) 3).
  set (mu := fun W : matrix => Qsum (column W c)).
  change (Qsum (column W c)) with (mu W).
  set (a1 := rsum (fun j => f (j + 1)%Z) 0 (k - 1)).
  set (a2 := rsum (fun j => f (j + (Z.of_nat n - (Z.of_nat n - 1) mod k - 1
                                    - (k - 1)))%Z) 0 (k - 1)).
  set (a3 := rsum (fun j => rsum (fun t => f ((k - 1 + 1) * (j + 1) + 1 + t)%Z)
                              0 (k - 1)) 0 (m + 1 - 3)).
  set (a4 := rsum f (Z.of_nat n - (Z.of_nat n - 1) mod k) (Z.of_nat n)).
  destruct (foldM_measure I mu
              (fun i => on_channel c i * (a1 + a2 + a3 + a4))
              (fun W i =>
                 W <- foldM (fun W j =>
                        foldM (fun W k0 =>
                          add_at W k0 i (weighted_product c_c j k0 S Y (j + 1) i))
                        (zrange 0 3) W)
                      (zrange 0 (k - 1)) W ;;
                 W <- foldM (fun W j =>
                        foldM (fun W k0 =>
                          add_at W k0 i
                            (weighted_product c_c (k - 1 - j - 1) (m + 1 - 1 - k0)
                               S Y (j + (Z.of_nat n - (Z.of_nat n - 1) mod k - 1
                                         - (k - 1))) i))
                        (zrange_down (m + 1 - 1) (m + 1 - 1 - 3)) W)
                      (zrange 0 (k - 1)) W ;;
                 W <- foldM (fun W j =>
                        foldM (fun W k0 =>
                          let w_i := ((k - 1 + 1) * (j + 1) + 1 + k0)%Z in
                          W <- add_at W j i (weighted_product c_b k0 0 S Y w_i i) ;;
                          W <- add_at W (j + 1) i (weighted_product c_b k0 1 S Y w_i i) ;;
                          W <- add_at W (j + 2) i (weighted_product c_b k0 2 S Y w_i i) ;;
                          add_at W (j + 3) i (weighted_product c_b k0 3 S Y w_i i))
                        (zrange 0 (k - 1)) W)
                      (zrange 0 (m + 1 - 3)) W ;;
                 foldM (fun W j =>
                   add_at W (m + 1 - 1) i
                     (s <- get1 S j ;; y <- get2 Y j i ;; Ret (s * y)))
                 (zrange (Z.of_nat n - (Z.of_nat n - 1) mod k) (Z.of_nat n)) W)
              (zrange 0 3) W) as (W' & HW' & HI' & Hmu'); [|assumption|].
  2:{ exists W'. split; [exact HW'|]. split; [assumption|].
      etransitivity; [exact Hmu'|]. apply Qplus_comp; [reflexivity|].
      now apply on_channel_total. }
  intros W0 i Hi HW0. apply zrange_In in Hi.
  set (d := on_channel c i).
  apply (rbind_measure I mu _ _ W0 (d * a1) (d * a2 + (d * a3 + d * a4)));
    [ring | |].
  { (* First interval. *)
    destruct (foldM_measure I mu (fun j => d * f (j + 1)%Z)
                (fun W j =>
                   foldM (fun W k0 =>
                     add_at W k0 i (weighted_product c_c j k0 S Y (j + 1) i))
                   (zrange 0 3) W)
                (zrange 0 (k - 1)) W0) as (W1 & HW1 & HI1 & Hmu1); [|assumption|].
    2:{ exists W1. split; [exact HW1|]. split; [assumption|].
        etransitivity; [exact Hmu1|]. apply Qplus_comp; [reflexivity|].
        apply (rsum_scale d (fun j => f (j + 1)%Z)). }
    intros Wa j Hj HWa. apply zrange_In in Hj.
    specialize (Hm2 ltac:(lia)).
    destruct (unit_row _ _ c_c j Ucc ltac:(lia)) as [Hlen Hsum].
    destruct (distribute_row (Z.to_nat (m + 1)) (Z.to_nat (k - 1)) 3 n
                c_c j S Y (j + 1) i c (fun t => t) (fun t => t)
                (zrange 0 3) Wa) as (Wb & HWb & HIb & Hmub);
      try assumption; try lia.
    { intros t Ht. apply zrange_In in Ht. lia. }
    exists Wb. split; [exact HWb|]. split; [assumption|].
    etransitivity; [exact Hmub|]. apply Qplus_comp; [reflexivity|].
    now apply three_coefficients. }
  intros W1 HW1.
  apply (rbind_measure I mu _ _ W1 (d * a2) (d * a3 + d * a4)); [ring | |].
  { (* Last interval. *)
    destruct (foldM_measure I mu
                (fun j => d * f (j + (Z.of_nat n - (Z.of_nat n - 1) mod k - 1
                                      - (k - 1)))%Z)
                (fun W j =>
                   foldM (fun W k0 =>
                     add_at W k0 i
                       (weighted_product c_c (k - 1 - j - 1) (m + 1 - 1 - k0)
                          S Y (j + (Z.of_nat n - (Z.of_nat n - 1) mod k - 1
                                    - (k - 1))) i))
                   (zrange_down (m + 1 - 1) (m + 1 - 1 - 3)) W)
                (zrange 0 (k - 1)) W1) as (W2 & HW2 & HI2 & Hmu2); [|assumption|].
    2:{ exists W2. split; [exact HW2|]. split; [assumption|].
        etransitivity; [exact Hmu2|]. apply Qplus_comp; [reflexivity|].
        apply (rsum_scale d
                 (fun j => f (j + (Z.of_nat n - (Z.of_nat n - 1) mod k - 1
                                   - (k - 1)))%Z)). }
    intros Wa j Hj HWa. apply zrange_In in Hj.
    specialize (Hm2 ltac:(lia)).
    destruct (unit_row _ _ c_c (k - 1 - j - 1) Ucc ltac:(lia)) as [Hlen Hsum].
    destruct (distribute_row (Z.to_nat (m + 1)) (Z.to_nat (k - 1)) 3 n
                c_c (k - 1 - j - 1) S Y
                (j + (Z.of_nat n - (Z.of_nat n - 1) mod k - 1 - (k - 1))) i c
                (fun t => t) (fun t => (m + 1 - 1 - t)%Z)
                (zrange_down (m + 1 - 1) (m + 1 - 1 - 3)) Wa)
      as (Wb & HWb & HIb & Hmub); try assumption; try lia; try nia.
    { intros t Ht. apply zrange_down_In in Ht. lia. }
    exists Wb. split; [exact HWb|]. split; [assumption|].
    etransitivity; [exact Hmub|]. apply Qplus_comp; [reflexivity|].
    now apply three_coefficients_down. }
  intros W2 HW2.
  apply (rbind_measure I mu _ _ W2 (d * a3) (d * a4)); [ring | |].
  { (* Intermediate intervals. *)
    destruct (foldM_measure I mu
                (fun j => d * rsum (fun t => f ((k - 1 + 1) * (j + 1) + 1 + t)%Z)
                                0 (k - 1))
                (fun W j =>
                   foldM (fun W k0 =>
                     let w_i := ((k - 1 + 1) * (j + 1) + 1 + k0)%Z in
                     W <- add_at W j i (weighted_product c_b k0 0 S Y w_i i) ;;
                     W <- add_at W (j + 1) i (weighted_product c_b k0 1 S Y w_i i) ;;
                     W <- add_at W (j + 2) i (weighted_product c_b k0 2 S Y w_i i) ;;
                     add_at W (j + 3) i (weighted_product c_b k0 3 S Y w_i i))
                   (zrange 0 (k - 1)) W)
                (zrange 0 (m + 1 - 3)) W2) as (W3 & HW3 & HI3 & Hmu3);
      [|assumption|].
    2:{ exists W3. split; [exact HW3|]. split; [assumption|].
        etransitivity; [exact Hmu3|]. apply Qplus_comp; [reflexivity|].
        apply (rsum_scale d
                 (fun j => rsum (fun t => f ((k - 1 + 1) * (j + 1) + 1 + t)%Z)
                             0 (k - 1))). }
    intros Wa j Hj HWa. apply zrange_In in Hj.
    destruct (foldM_measure I mu
                (fun t => d * f ((k - 1 + 1) * (j + 1) + 1 + t)%Z)
                (fun W k0 =>
                   let w_i := ((k - 1 + 1) * (j + 1) + 1 + k0)%Z in
                   W <- add_at W j i (weighted_product c_b k0 0 S Y w_i i) ;;
                   W <- add_at W (j + 1) i (weighted_product c_b k0 1 S Y w_i i) ;;
                   W <- add_at W (j + 2) i (weighted_product c_b k0 2 S Y w_i i) ;;
                   add_at W (j + 3) i (weighted_product c_b k0 3 S Y w_i i))
                (zrange 0 (k - 1)) Wa) as (Wb & HWb & HIb & Hmub);
      [|assumption|].
    2:{ exists Wb. split; [exact HWb|]. split; [assumption|].
        etransitivity; [exact Hmub|]. apply Qplus_comp; [reflexivity|].
        apply (rsum_scale d (fun t => f ((k - 1 + 1) * (j + 1) + 1 + t)%Z)). }
    intros Wc k0 Hk0 HWc. apply zrange_In in Hk0. cbv zeta.
    assert (Hw : (0 <= (k - 1 + 1) * (j + 1) + 1 + k0 < Z.of_nat n)%Z) by nia.
    destruct (unit_row _ _ c_b k0 Ucb ltac:(lia)) as [Hlen Hsum].
    set (w := ((k - 1 + 1) * (j + 1) + 1 + k0)%Z) in *.
    set (row := nth (Z.to_nat k0) c_b []) in *.
    apply (rbind_measure I mu _ _ Wc (d * (nth 0 row 0 * f w))
             (d * (nth 1 row 0 * f w)
              + (d * (nth 2 row 0 * f w) + d * (nth 3 row 0 * f w)))).
    { symmetry. now apply four_coefficients. }
    { apply (add_product_step _ (Z.to_nat (k - 1)) 4 n c_b k0 0);
        try assumption; lia. }
    intros Wd HWd.
    apply (rbind_measure I mu _ _ Wd (d * (nth 1 row 0 * f w))
             (d * (nth 2 row 0 * f w) + d * (nth 3 row 0 * f w)));
      [reflexivity | |].
    { apply (add_product_step _ (Z.to_nat (k - 1)) 4 n c_b k0 1);
        try assumption; lia. }
    intros We HWe.
    apply (rbind_measure I mu _ _ We (d * (nth 2 row 0 * f w))
             (d * (nth 3 row 0 * f w))); [reflexivity | |].
    { apply (add_product_step _ (Z.to_nat (k - 1)) 4 n c_b k0 2);
        try assumption; lia. }
    intros Wf HWf.
    apply (add_product_step _ (Z.to_nat (k - 1)) 4 n c_b k0 3);
      try assumption; lia. }
  intros W3 HW3.
  (* Extrapolation of incomplete interval. *)
  destruct (foldM_measure I mu (fun j => d * f j)
              (fun W j =>
                 add_at W (m + 1 - 1) i
                   (s <- get1 S j ;; y <- get2 Y j i ;; Ret (s * y)))
              (zrange (Z.of_nat n - (Z.of_nat n - 1) mod k) (Z.of_nat n)) W3)
    as (W4 & HW4 & HI4 & Hmu4); [|assumption|].
  2:{ exists W4. split; [exact HW4|]. split; [assumption|].
      etransitivity; [exact Hmu4|]. apply Qplus_comp; [reflexivity|].
      apply (rsum_scale d f). }
  intros Wa j Hj HWa. apply zrange_In in Hj.
  rewrite (get1_value S j 0) by lia. simpl.
  rewrite (get2_value n 3 Y j i HY) by lia. simpl.
  destruct (add_at_column (Z.to_nat (m + 1)) 3 Wa (m + 1 - 1) i
              (nth (Z.to_nat j) S 0 * nth (Z.to_nat i) (nth (Z.to_nat j) Y []) 0)
              c HWa) as (Wb & HWb & HIb & Hmub); [nia | lia|].
  exists Wb. split; [exact HWb|]. split; [assumption|].
  etransitivity; [exact Hmub|]. apply Qplus_comp; [reflexivity|].
  apply on_channel_product. lia.
Qed.

(** ** The table before the loops, and the whole table *)

Lemma lookup_nth {A} (l : list A) i d :
  (i < length l)%nat -> l !! i = Some (nth i l d).
Proof.
  intros H. destruct (lookup_lt_is_Some_2 l i H) as [x Hx].
  now rewrite Hx, nth_lookup, Hx.
Qed.

Lemma every_nth_lookup {A} fuel s (l : list A) r :
  (1 <= s)%nat -> (length l <= fuel)%nat ->
  every_nth fuel s l !! r = l !! (r * s)%nat.
Proof.
  intros Hs. revert l r. induction fuel as [|fuel IH]; intros l r Hl.
  - destruct l; simpl in *; [|lia]. now rewrite !lookup_nil.
  - destruct l as [|x l]; [simpl; now rewrite !lookup_nil|].
    destruct r as [|r]; [reflexivity|].
    change (every_nth (S fuel) s (x :: l))
      with (x :: every_nth fuel s (drop s (x :: l))).
    change ((x :: every_nth fuel s (drop s (x :: l))) !! S r)
      with (every_nth fuel s (drop s (x :: l)) !! r).
    rewrite IH by (rewrite length_drop; simpl in *; lia).
    rewrite lookup_drop. f_equal; lia.
Qed.

Lemma np_slice_step_pos {A} (l : list A) k :
  (1 <= k)%Z -> np_slice_step l k = Ret (every_nth (length l) (Z.to_nat k) l).
Proof.
  intros Hk. unfold np_slice_step.
  destruct (k =? 0)%Z eqn:E0; [apply Z.eqb_eq in E0; lia|].
  destruct (0 <? k)%Z eqn:E1; [reflexivity | apply Z.ltb_ge in E1; lia].
Qed.

Lemma nth_map_scale a (row : list Q) c :
  nth c (map (Qmult a) row) 0 == a * nth c row 0.
Proof.
  revert c. induction row as [|x row IH]; intros [|c]; simpl;
    try ring; try reflexivity. apply IH.
Qed.

(** Line 248: row [r] of [S[::k, np.newaxis] * Y[::k, ...]] holds the
    products at wavelength [r k]. *)
Lemma initial_table_column S Y k n c :
  (1 <= k)%Z -> length S = n -> length Y = n ->
  Qsum (column (zip_with (fun a row => map (Qmult a) row)
                  (every_nth n (Z.to_nat k) S) (every_nth n (Z.to_nat k) Y)) c)
  == rsum (fun r => channel_product S Y c (r * k)%Z)
       0 ((Z.of_nat n - 1) / k + 1).
Proof.
  intros Hk HS HY.
  set (m := ((Z.of_nat n - 1) / k)%Z).
  assert (Hdm : (Z.of_nat n - 1 = k * m + (Z.of_nat n - 1) mod k)%Z)
    by (apply Z.div_mod; lia).
  assert (Hmod : (0 <= (Z.of_nat n - 1) mod k < k)%Z)
    by (apply Z.mod_pos_bound; lia).
  assert (Hm : (-1 <= m)%Z) by nia.
  set (W0 := zip_with _ _ _).
  assert (Hlen : length W0 = Z.to_nat (m + 1)).
  { destruct (np_slice_step_rows S k Hk) as (s & Es & Hs & _).
    destruct (np_slice_step_rows Y k Hk) as (y & Ey & Hy & _).
    rewrite np_slice_step_pos in Es by assumption.
    rewrite np_slice_step_pos in Ey by assumption.
    injection Es as Es. injection Ey as Ey. rewrite HS in *. rewrite HY in *.
    unfold W0. rewrite length_zip_with, Es, Ey, Hs, Hy. fold m. lia. }
  rewrite Qsum_nth. unfold column at 2. rewrite length_map, Hlen.
  replace (m + 1)%Z with (Z.of_nat (Z.to_nat (m + 1))) at 2 by lia.
  unfold rsum. rewrite zrange_seq, map_map.
  apply Qsum_map_ext. intros i Hi. apply in_seq in Hi.
  assert (Hik : (i * Z.to_nat k < n)%nat) by nia.
  rewrite column_nth.
  assert (E : W0 !! i = Some (map (Qmult (nth (i * Z.to_nat k) S 0))
                                (nth (i * Z.to_nat k) Y []))).
  { unfold W0. rewrite lookup_zip_with.
    rewrite !every_nth_lookup by lia.
    rewrite (lookup_nth S _ 0) by lia. rewrite (lookup_nth Y _ []) by lia.
    reflexivity. }
  rewrite (nth_lookup W0), E. simpl. rewrite nth_map_scale.
  unfold channel_product.
  replace (Z.to_nat (Z.of_nat i * k)) with (i * Z.to_nat k)%nat
    by (rewrite Z2Nat.inj_mul, Nat2Z.id; lia).
  reflexivity.
Qed.

Lemma products_rsum S Y c n :
  length S = n -> length Y = n ->
  Qsum (products S Y c) == rsum (channel_product S Y c) 0 (Z.of_nat n).
Proof.
  intros HS HY. rewrite Qsum_nth.
  unfold products at 2. rewrite length_zip_with, HS, HY, Nat.min_id.
  unfold rsum. rewrite zrange_seq, map_map.
  apply Qsum_map_ext. intros i Hi. apply in_seq in Hi.
  unfold products. rewrite nth_lookup, lookup_zip_with.
  rewrite (lookup_nth S i 0) by lia. rewrite (lookup_nth Y i []) by lia.
  simpl. unfold channel_product. now rewrite Nat2Z.id.
Qed.

(** The wavelengths [range(0, n, k)] of the measured rows and the ones the
    four loops visit are all of [range(n)], each once; an empty array
    included. *)
Lemma all_wavelengths_visited S Y c k n :
  length Y = n -> (1 <= k)%Z ->
  (2 <= k -> 2 * k + 1 <= Z.of_nat n)%Z ->
  rsum (channel_product S Y c) 0 (Z.of_nat n) ==
  rsum (fun r => channel_product S Y c (r * k)%Z) 0 ((Z.of_nat n - 1) / k + 1)
  + distributed S Y c k.
Proof.
  intros HY Hk Hsize. unfold distributed. rewrite HY. cbv zeta.
  set (f := channel_product S Y c).
  destruct n as [|n'].
  - assert (k = 1%Z) by lia. subst k. simpl.
    rewrite !rsum_empty by (vm_compute; discriminate). ring.
  - set (n := Datatypes.S n') in *.
    pose proof (wavelengths_partition f k (Z.of_nat n) Hk ltac:(lia)) as P.
    cbv zeta in P. apply P. intros H2. specialize (Hsize H2).
    assert (Hdm : (Z.of_nat n - 1
                   = k * ((Z.of_nat n - 1) / k) + (Z.of_nat n - 1) mod k)%Z)
      by (apply Z.div_mod; lia).
    assert (Hmod : (0 <= (Z.of_nat n - 1) mod k < k)%Z)
      by (apply Z.mod_pos_bound; lia).
    nia.
Qed.

Lemma degree_cases t : degree t = 3%nat \/ degree t = 4%nat.
Proof. unfold degree. destruct (String.eqb _ _); auto. Qed.

(** The rows the Lagrange builder returns each sum to one. *)
Lemma lagrange_call_unit n t st :
  lagrange_cache_ok st -> (1 <= n)%Z ->
  exists lica st',
    lagrange_coefficients_ASTME202211 n t st = (Ret lica, st') /\
    lagrange_cache_ok st' /\
    unit_rows (Z.to_nat (n - 1)) (degree t) lica.
Proof.
  intros Hok Hn.
  destruct (lagrange_call_shape n t st Hok Hn) as (lica & st' & E & Hok' & Hs).
  exists lica, st'. split; [assumption|]. split; [assumption|].
  split; [assumption|].
  apply (lagrange_returns_computed n t st lica st' Hok) in E.
  apply lagrange_compute_rows in E as [_ Hrows].
  eapply Forall_impl; [exact Hrows|].
  intros row [r ->]. apply lagrange_coefficients_sum, degree_cases.
Qed.

Lemma np_multiply_rows_same s y :
  length s = length y ->
  np_multiply_rows s y = Ret (zip_with (fun a row => map (Qmult a) row) s y).
Proof. intros H. unfold np_multiply_rows. now rewrite H, Nat.eqb_refl. Qed.

(** Lines 244-288 for one column. *)
Lemma twf_table_column cmfs illuminant shape st k c :
  lagrange_cache_ok st ->
  interval shape == inject_Z k -> (1 <= k)%Z ->
  length (spd_data illuminant) = length (cmfs_data cmfs) ->
  (2 <= k -> 2 * k + 1 <= Z.of_nat (length (cmfs_data cmfs)))%Z ->
  (c < 3)%nat ->
  exists W st',
    twf_table cmfs illuminant shape st = (Ret W, st') /\
    table_shape
      (Z.to_nat ((Z.of_nat (length (cmfs_data cmfs)) - 1) / k + 1)) 3 W /\
    Qsum (column W c)
    == Qsum (products (spd_values illuminant) (cmfs_values cmfs) c).
Proof.
  intros Hok Hint Hk Hlen Hsize Hc.
  set (n := length (cmfs_data cmfs)) in *.
  assert (HS : length (spd_values illuminant) = n)
    by (unfold spd_values; now rewrite length_map).
  pose proof (cmfs_values_shape cmfs) as HY. fold n in HY.
  unfold twf_table, mbind, lift.
  rewrite (as_integer_of_Z _ _ Hint).
  destruct (np_slice_step_rows (spd_values illuminant) k Hk)
    as (s & Es & Hs & _).
  destruct (np_slice_step_rows (cmfs_values cmfs) k Hk) as (y & Ey & Hy & HyP).
  rewrite Es, Ey. simpl. rewrite HS in Hs. rewrite (proj1 HY) in Hy.
  rewrite np_slice_step_pos in Es by assumption.
    rewrite np_slice_step_pos in Ey by assumption.
  injection Es as Es. injection Ey as Ey. rewrite HS in Es.
  rewrite (proj1 HY) in Ey.
  destruct (np_multiply_rows_shape s y _ Hs) as (W0 & EW0 & HW0).
  { split; [assumption|]. apply HyP, HY. }
  rewrite EW0. rewrite np_multiply_rows_same in EW0 by congruence.
  injection EW0 as EW0.
  destruct (lagrange_call_unit k "boundary" st Hok Hk)
    as (c_c & st1 & -> & Hok1 & Hcc).
  destruct (lagrange_call_unit k "inner" st1 Hok1 Hk)
    as (c_b & st2 & -> & Hok2 & Hcb).
  destruct (weighting_loops_column_sum c_c c_b (spd_values illuminant)
              (cmfs_values cmfs) k W0 n c Hk Hcc Hcb HS HY HW0 Hsize Hc)
    as (W & -> & HW & Hsum).
  exists W, st2. split; [reflexivity|]. split; [assumption|].
  rewrite Hsum, <- EW0, <- Es, <- Ey.
  rewrite (initial_table_column _ _ k n c Hk HS (proj1 HY)).
  rewrite (products_rsum _ _ c n HS (proj1 HY)).
  symmetry. apply all_wavelengths_visited; [exact (proj1 HY) | assumption..].
Qed.

Lemma column_sum_value rows W c :
  (c < 3)%nat -> table_shape rows 3 W ->
  column_sum W (Z.of_nat c) = Ret (Qsum (column W c)).
Proof.
  intros Hc [_ Hrows]. unfold column_sum.
  assert (H : mapM (fun row => get1 row (Z.of_nat c)) W = Ret (column W c)).
  { induction Hrows as [|row W Hrow _ IH]; simpl; [reflexivity|].
    rewrite (get1_value row (Z.of_nat c) 0) by lia. simpl.
    rewrite IH. simpl. now rewrite Nat2Z.id. }
  now rewrite H.
Qed.

Lemma xcolumn_scale rows (W : matrix) (f : Q) c :
  (c < 3)%nat -> table_shape rows 3 W ->
  xcolumn (scale (Some f) W) c = map (fun x => Some (x * f)) (column W c).
Proof.
  intros Hc [_ Hrows]. unfold xcolumn, scale, column. rewrite !map_map.
  apply map_ext_in. intros row Hrow.
  rewrite Forall_forall in Hrows.
  specialize (Hrows row ltac:(now apply list_elem_of_In)).
  change (map ?g row) with (fmap g row).
  rewrite list_lookup_fmap, (lookup_nth row c 0) by lia. reflexivity.
Qed.

(** Line 290 on a table with a non-zero Y-column sum: every column sum is
    multiplied by [100 / sum of the Y column]. *)
Lemma normalise_column_sums rows (W : matrix) :
  table_shape rows 3 W -> ~ Qsum (column W 1) == 0 ->
  exists T, normalise W = Ret T /\
    forall c, (c < 3)%nat ->
      exists q, xsum (xcolumn T c) = Some q /\
                q == 100 * Qsum (column W c) / Qsum (column W 1).
Proof.
  intros HW Hnz. unfold normalise.
  pose proof (column_sum_value rows W 1 ltac:(lia) HW) as Es.
  change (Z.of_nat 1) with 1%Z in Es. rewrite Es. simpl.
  unfold np_divide.
  destruct (Qeq_bool _ 0) eqn:E; [apply Qeq_bool_iff in E; contradiction|].
  eexists. split; [reflexivity|]. intros c Hc.
  rewrite (xcolumn_scale rows W _ c Hc HW).
  destruct (xsum_scaled (column W c) (100 / Qsum (column W 1)))
    as (q & Hq & Heq).
  exists q. split; [assumption|]. rewrite Heq. now field.
Qed.

Lemma products_channels S cmfs :
  Qsum (products S (cmfs_values cmfs) 0) == dot (x_bar_values cmfs) S /\
  Qsum (products S (cmfs_values cmfs) 1) == dot (y_bar_values cmfs) S /\
  Qsum (products S (cmfs_values cmfs) 2) == dot (z_bar_values cmfs) S.
Proof.
  unfold products, dot, cmfs_values, x_bar_values, y_bar_values, z_bar_values,
    Qsum.
  revert S. induction (cmfs_data cmfs) as [|[w [[x y] z]] data IH];
    intros [|s S]; simpl; try (repeat split; reflexivity).
  destruct (IH S) as (Hx & Hy & Hz). rewrite Hx, Hy, Hz.
  repeat split; ring.
Qed.

Section TableExtras.

Variable str_shape : SpectralShape -> string.

(** X11.  The weighting table conserves what it condenses: before the
    normalisation of line 290, each column of the table of lines 244-288
    sums to the sum of [S * Y] over every wavelength of the CMFS, measured
    or interpolated; the table has one row per measured wavelength. *)
Theorem weighting_table_conserves_sums cmfs illuminant shape st k :
  lagrange_cache_ok st ->
  interval shape == inject_Z k -> (1 <= k)%Z ->
  length (spd_data illuminant) = length (cmfs_data cmfs) ->
  (2 <= k -> 2 * k + 1 <= Z.of_nat (length (cmfs_data cmfs)))%Z ->
  exists W st',
    twf_table cmfs illuminant shape st = (Ret W, st') /\
    table_shape
      (Z.to_nat ((Z.of_nat (length (cmfs_data cmfs)) - 1) / k + 1)) 3 W /\
    forall c, (c < 3)%nat ->
      Qsum (column W c)
      == Qsum (products (spd_values illuminant) (cmfs_values cmfs) c).
Proof.
  intros Hok Hint Hk Hlen Hsize.
  destruct (twf_table_column cmfs illuminant shape st k 0
              Hok Hint Hk Hlen Hsize ltac:(lia)) as (W & st' & E & HW & _).
  exists W, st'. split; [assumption|]. split; [assumption|].
  intros c Hc.
  destruct (twf_table_column cmfs illuminant shape st k c
              Hok Hint Hk Hlen Hsize Hc) as (W2 & st2 & E2 & _ & Hsum).
  rewrite E in E2. injection E2 as <- _. exact Hsum.
Qed.

(** X12.  The white point of a freshly built table: on a miss in a reachable
    state, with an illuminant for which the sum of [S * y_bar] is not zero,
    the columns of the returned table sum to
    [100 * sum (S * x_bar) / sum (S * y_bar)], 100 and
    [100 * sum (S * z_bar) / sum (S * y_bar)], the sums running over every
    wavelength of the CMFS. *)
Theorem weighting_factors_white_point cmfs illuminant shape st k :
  reachable str_shape st ->
  intervals_ok cmfs illuminant ->
  default ∅ (TRISTIMULUS_WEIGHTING_FACTORS_CACHE st) !! lower (name_twf str_shape cmfs illuminant shape)
  = None ->
  interval shape == inject_Z k -> (1 <= k)%Z ->
  length (spd_data illuminant) = length (cmfs_data cmfs) ->
  (2 <= k -> 2 * k + 1 <= Z.of_nat (length (cmfs_data cmfs)))%Z ->
  ~ Qsum (products (spd_values illuminant) (cmfs_values cmfs) 1) == 0 ->
  exists T,
    fst (tristimulus_weighting_factors_ASTME202211 str_shape
           cmfs illuminant shape st) = Ret T /\
    forall c, (c < 3)%nat ->
      exists q, xsum (xcolumn T c) = Some q /\
        q == 100 * Qsum (products (spd_values illuminant) (cmfs_values cmfs) c)
             / Qsum (products (spd_values illuminant) (cmfs_values cmfs) 1).
Proof.
  intros Hreach Hi Hmiss Hint Hk Hlen Hsize Hnz.
  assert (Hok : lagrange_cache_ok (set_twf (default ∅ (TRISTIMULUS_WEIGHTING_FACTORS_CACHE st)) st)).
  { apply (lagrange_cache_ok_ext st); [reflexivity|].
    now apply (reachable_ok str_shape). }
  destruct (twf_table_column cmfs illuminant shape _ k 1
              Hok Hint Hk Hlen Hsize ltac:(lia)) as (W & st' & E & HW & HY).
  rewrite (weighting_factors_miss str_shape _ _ _ _ W st' Hi Hmiss E).
  destruct (normalise_column_sums _ W HW) as (T & -> & HT).
  { now rewrite HY. }
  exists T. split; [reflexivity|]. intros c Hc.
  destruct (HT c Hc) as (q & Hq & Heq). exists q. split; [assumption|].
  destruct (twf_table_column cmfs illuminant shape _ k c
              Hok Hint Hk Hlen Hsize Hc) as (W2 & st2 & E2 & _ & Hsum).
  rewrite E in E2. injection E2 as <- _.
  now rewrite Heq, Hsum, HY.
Qed.

(** X13.  The table agrees with the integrator on the perfect reflector: on
    a miss in a reachable state, with the illuminant on the shape of a
    gridded CMFS and a non-zero sum of [S * y_bar], the three column sums of
    the returned table are the tristimulus values [spectral_to_XYZ] returns
    for the all-ones SPD under that illuminant. *)
Theorem weighting_factors_agree_with_integrator cmfs illuminant shape st k :
  reachable str_shape st ->
  intervals_ok cmfs illuminant ->
  default ∅ (TRISTIMULUS_WEIGHTING_FACTORS_CACHE st)
    !! lower (name_twf str_shape cmfs illuminant shape) = None ->
  interval shape == inject_Z k -> (1 <= k)%Z ->
  cmfs_on_grid cmfs ->
  shape_eqb (spd_shape illuminant) (cmfs_shape cmfs) = true ->
  length (spd_data illuminant) = length (cmfs_data cmfs) ->
  (2 <= k -> 2 * k + 1 <= Z.of_nat (length (cmfs_data cmfs)))%Z ->
  ~ dot (y_bar_values cmfs) (spd_values illuminant) == 0 ->
  exists T XYZ,
    fst (tristimulus_weighting_factors_ASTME202211 str_shape
           cmfs illuminant shape st) = Ret T /\
    spectral_to_XYZ (ones_spd (cmfs_shape cmfs)) cmfs (Some illuminant)
    = Ret XYZ /\
    Forall2 xQeq (map (fun c => xsum (xcolumn T c)) [0; 1; 2]%nat) XYZ.
Proof.
  intros Hreach Hi Hmiss Hint Hk Hgrid Hshape Hlen Hsize Hnz.
  set (S := spd_values illuminant) in *.
  destruct (products_channels S cmfs) as (Px & Py & Pz).
  assert (Hok : lagrange_cache_ok
                  (set_twf (default ∅ (TRISTIMULUS_WEIGHTING_FACTORS_CACHE st))
                     st)).
  { apply (lagrange_cache_ok_ext st); [reflexivity|].
    now apply (reachable_ok str_shape). }
  assert (Hcol : forall c, (c < 3)%nat ->
            exists W st',
              twf_table cmfs illuminant shape
                (set_twf (default ∅ (TRISTIMULUS_WEIGHTING_FACTORS_CACHE st))
                   st) = (Ret W, st') /\
              table_shape
                (Z.to_nat ((Z.of_nat (length (cmfs_data cmfs)) - 1) / k + 1))
                3 W /\
              Qsum (column W c) == Qsum (products S (cmfs_values cmfs) c))
    by (intros c Hc; now apply twf_table_column).
  destruct (Hcol 1%nat ltac:(lia)) as (W & st' & E & HW & HY).
  destruct (Hcol 0%nat ltac:(lia)) as (W0 & st0 & E0 & _ & HX).
  destruct (Hcol 2%nat ltac:(lia)) as (W2 & st2 & E2 & _ & HZ).
  rewrite E in E0, E2. injection E0 as <- _. injection E2 as <- _.
  rewrite (weighting_factors_miss str_shape _ _ _ _ W st' Hi Hmiss E).
  destruct (normalise_column_sums _ W HW) as (T & -> & HT).
  { now rewrite HY, Py. }
  destruct (HT 0%nat ltac:(lia)) as (qx & Ex & Hqx).
  destruct (HT 1%nat ltac:(lia)) as (qy & Ey & Hqy).
  destruct (HT 2%nat ltac:(lia)) as (qz & Ez & Hqz).
  assert (HI : integrated_illuminant cmfs (Some illuminant) = S).
  { unfold integrated_illuminant, aligned. now rewrite Hshape. }
  assert (Hones : integrated_spd cmfs (ones_spd (cmfs_shape cmfs))
                  = repeat 1 (length (cmfs_data cmfs))).
  { unfold integrated_spd, aligned. simpl spd_shape.
    rewrite shape_eqb_refl, ones_spd_values. now rewrite Hgrid. }
  rewrite spectral_to_XYZ_values
    by (rewrite ?Hones, ?HI, ?repeat_length; unfold S, spd_values;
        rewrite ?length_map; solve [reflexivity | assumption]).
  rewrite Hones, HI. unfold np_divide.
  destruct (Qeq_bool _ 0) eqn:E0; [apply Qeq_bool_iff in E0; contradiction|].
  exists T. eexists. split; [reflexivity|]. split; [reflexivity|].
  simpl. rewrite Ex, Ey, Ez.
  constructor; [|constructor; [|constructor; [|constructor]]]; simpl.
  - rewrite Hqx, HX, HY, Px, Py.
    rewrite dot_ones_l by (unfold x_bar_values; now rewrite length_map).
    now field.
  - rewrite Hqy, HY, Py.
    rewrite dot_ones_l by (unfold y_bar_values; now rewrite length_map).
    now field.
  - rewrite Hqz, HZ, HY, Pz, Py.
    rewrite dot_ones_l by (unfold z_bar_values; now rewrite length_map).
    now field.
Qed.

End TableExtras.

(** * What a build does not depend on *)

(** The Lagrange cache only saves work: with consistent caches the table of
    lines 244-288 does not depend on what has been cached. *)
Lemma twf_table_state_independent cmfs illuminant shape st st' :
  lagrange_cache_ok st -> lagrange_cache_ok st' ->
  fst (twf_table cmfs illuminant shape st)
  = fst (twf_table cmfs illuminant shape st').
Proof.
  intros Hok Hok'. unfold twf_table, mbind, lift.
  destruct (as_integer (interval shape)) as [k|e]; [|reflexivity].
  destruct (rbind (np_slice_step (spd_values illuminant) k) _) as [W|e];
    [|reflexivity].
  pose proof (lagrange_call_computes k "boundary" st Hok) as H1.
  pose proof (lagrange_call_computes k "boundary" st' Hok') as H1'.
  pose proof (lagrange_preserves_ok k "boundary" st Hok) as Hok1.
  pose proof (lagrange_preserves_ok k "boundary" st' Hok') as Hok1'.
  destruct (lagrange_coefficients_ASTME202211 k "boundary" st) as [r1 st1].
  destruct (lagrange_coefficients_ASTME202211 k "boundary" st') as [r1' st1'].
  simpl in *. subst r1 r1'.
  destruct (lagrange_compute k "boundary") as [c_c|e]; [|reflexivity].
  pose proof (lagrange_call_computes k "inner" st1 Hok1) as H2.
  pose proof (lagrange_call_computes k "inner" st1' Hok1') as H2'.
  destruct (lagrange_coefficients_ASTME202211 k "inner" st1) as [r2 st2].
  destruct (lagrange_coefficients_ASTME202211 k "inner" st1') as [r2' st2'].
  simpl in *. subst r2 r2'.
  destruct (lagrange_compute k "inner") as [c_b|e]; reflexivity.
Qed.

Section StateIndependence.

Variable str_shape : SpectralShape -> string.

(** X14.  What was cached before does not change what is built: in any two
    reachable states in which the key of the call is not cached, the
    weighting factor builder gives the same result, table or exception; in
    particular the one it gives in a fresh process. *)
Theorem fresh_build_ignores_cache_state cmfs illuminant shape st st' :
  reachable str_shape st -> reachable str_shape st' ->
  default ∅ (TRISTIMULUS_WEIGHTING_FACTORS_CACHE st)
    !! lower (name_twf str_shape cmfs illuminant shape) = None ->
  default ∅ (TRISTIMULUS_WEIGHTING_FACTORS_CACHE st')
    !! lower (name_twf str_shape cmfs illuminant shape) = None ->
  fst (tristimulus_weighting_factors_ASTME202211 str_shape
         cmfs illuminant shape st)
  = fst (tristimulus_weighting_factors_ASTME202211 str_shape
           cmfs illuminant shape st').
Proof.
  intros Hr Hr' Hmiss Hmiss'.
  assert (Hok : forall s, reachable str_shape s ->
            lagrange_cache_ok
              (set_twf (default ∅ (TRISTIMULUS_WEIGHTING_FACTORS_CACHE s)) s)).
  { intros s Hs. apply (lagrange_cache_ok_ext s); [reflexivity|].
    now apply (reachable_ok str_shape). }
  pose proof (twf_table_state_independent cmfs illuminant shape _ _
                (Hok st Hr) (Hok st' Hr')) as Htable.
  unfold tristimulus_weighting_factors_ASTME202211, ci_lookup.
  destruct (negb (Qeq_bool (interval (cmfs_shape cmfs)) 1)); [reflexivity|].
  destruct (negb (Qeq_bool (interval (spd_shape illuminant)) 1));
    [reflexivity|].
  rewrite Hmiss, Hmiss'. unfold twf_build, mbind, lift.
  destruct (twf_table cmfs illuminant shape
              (set_twf (default ∅ (TRISTIMULUS_WEIGHTING_FACTORS_CACHE st)) st))
    as [[W|e] st1];
  destruct (twf_table cmfs illuminant shape
              (set_twf (default ∅ (TRISTIMULUS_WEIGHTING_FACTORS_CACHE st')) st'))
    as [[W'|e'] st1']; simpl in Htable; try discriminate Htable.
  - injection Htable as <-. destruct (normalise W); reflexivity.
  - injection Htable as <-. reflexivity.
Qed.

End StateIndependence.

(** * The further properties on concrete data *)

Lemma lagrange_cache_transparent_witness :
  fst (lagrange_coefficients_ASTME202211 10 "inner" (snd first_call))
  = lagrange_compute 10 "inner".
Proof.
  apply (lagrange_cache_transparent shape_repr 10 "inner" (snd first_call)).
  apply (reachable_call shape_repr initial_caches
           (CallWeightingFactors example_cmfs example_illuminant example_shape)).
  apply reachable_initial.
Defined.

Lemma interval_type_is_inner_or_not_witness :
  fst (lagrange_coefficients_ASTME202211 10 "Outer" initial_caches)
  = lagrange_compute 10 (if String.eqb (lower "Outer") "inner" then "inner"
                         else "boundary").
Proof.
  apply (interval_type_is_inner_or_not shape_repr 10 "Outer" initial_caches).
  apply reachable_initial.
Defined.

(** The build for an interval of 3 on five samples raises after both
    Lagrange matrices have been cached; the table cache stays empty. *)
Lemma failed_build_adds_nothing_witness :
  default ∅ (TRISTIMULUS_WEIGHTING_FACTORS_CACHE
               (snd (tristimulus_weighting_factors_ASTME202211 shape_repr
                       example_cmfs example_illuminant (mk_shape 1 5 3)
                       initial_caches)))
  = default ∅ (TRISTIMULUS_WEIGHTING_FACTORS_CACHE initial_caches).
Proof.
  apply (proj2 (failed_build_adds_nothing shape_repr)
           example_cmfs example_illuminant (mk_shape 1 5 3) initial_caches
           IndexError).
  vm_compute. reflexivity.
Defined.

Lemma unit_interval_table_witness :
  fst (tristimulus_weighting_factors_ASTME202211 shape_repr
         example_cmfs example_illuminant (mk_shape 1 5 1) initial_caches)
  = normalise (zip_with (fun s row => map (Qmult s) row)
                 (spd_values example_illuminant) (cmfs_values example_cmfs)).
Proof.
  apply (unit_interval_table shape_repr example_cmfs example_illuminant
           (mk_shape 1 5 1) initial_caches).
  - apply reachable_initial.
  - split; reflexivity.
  - reflexivity.
  - reflexivity.
  - reflexivity.
Defined.

Lemma spectral_to_XYZ_finite_iff_witness :
  exists X Y Z,
    spectral_to_XYZ example_illuminant example_cmfs (Some example_illuminant)
    = Ret [X; Y; Z] /\
    let d := dot (y_bar_values example_cmfs) (spd_values example_illuminant) in
    (d == 0 /\ X = None /\ Y = None /\ Z = None) \/
    (~ d == 0 /\ is_Some X /\ is_Some Y /\ is_Some Z).
Proof.
  apply (spectral_to_XYZ_finite_iff example_illuminant example_cmfs
           (Some example_illuminant)).
  - reflexivity.
  - reflexivity.
  - reflexivity.
  - intros i [= <-]. split; reflexivity.
Defined.

Lemma illuminant_scale_invariance_witness :
  exists v v',
    spectral_to_XYZ example_spd example_cmfs (Some example_illuminant) = Ret v /\
    spectral_to_XYZ example_spd example_cmfs
      (Some (scale_spd 2 example_illuminant)) = Ret v' /\
    Forall2 xQeq v v'.
Proof.
  apply (illuminant_scale_invariance 2 example_spd example_cmfs
           example_illuminant).
  - intros H. discriminate H.
  - reflexivity.
  - reflexivity.
  - reflexivity.
Defined.

Lemma spd_scale_homogeneity_witness :
  exists v v',
    spectral_to_XYZ example_spd example_cmfs (Some example_illuminant) = Ret v /\
    spectral_to_XYZ (scale_spd 2 example_spd) example_cmfs
      (Some example_illuminant) = Ret v' /\
    Forall2 (fun a b => xQeq b (option_map (Qmult 2) a)) v v'.
Proof.
  apply (spd_scale_homogeneity 2 example_spd example_cmfs
           (Some example_illuminant)).
  - reflexivity.
  - reflexivity.
  - intros i [= <-]. reflexivity.
Defined.

Lemma perfect_reflector_Y_is_100_witness :
  exists X Y Z,
    spectral_to_XYZ (ones_spd (cmfs_shape example_cmfs)) example_cmfs
      (Some example_illuminant) = Ret [X; Some Y; Z] /\ Y == 100.
Proof.
  apply (perfect_reflector_Y_is_100 example_cmfs (Some example_illuminant)).
  - reflexivity.
  - intros i [= <-]. reflexivity.
  - intros H. vm_compute in H. discriminate H.
Defined.

Lemma wavelength_to_XYZ_postcondition_witness :
  nd_data (nd_scalar 2.5) <> [] /\
  Forall (fun w => start (cmfs_shape example_cmfs) <= w
                   /\ w <= end_ (cmfs_shape example_cmfs))
         (nd_data (nd_scalar 2.5)) /\
  nd_shape (mk_ndarray [3%nat] [2 + (3 - 2) * (2.5 - 2) / (3 - 2);
                                3 + (4 - 3) * (2.5 - 2) / (3 - 2);
                                4 + (5 - 4) * (2.5 - 2) / (3 - 2)])
  = nd_shape (nd_scalar 2.5) ++ [3%nat] /\
  nd_wf (mk_ndarray [3%nat] [2 + (3 - 2) * (2.5 - 2) / (3 - 2);
                             3 + (4 - 3) * (2.5 - 2) / (3 - 2);
                             4 + (5 - 4) * (2.5 - 2) / (3 - 2)]).
Proof.
  apply (wavelength_to_XYZ_postcondition example_fit (nd_scalar 2.5)
           example_cmfs (Some "Linear"%string)).
  reflexivity.
Defined.

Lemma interpolated_layout_witness :
  exists xs ys zs,
    wavelength_to_XYZ example_fit (nd_vector [2.5; 3.5]) example_cmfs
      (Some "Linear"%string)
    = Ret (mk_ndarray (nd_shape (nd_vector [2.5; 3.5]) ++ [3%nat])
             (concat (map (fun i => [nth i xs 0; nth i ys 0; nth i zs 0])
                          (seq 0 (length (nd_data (nd_vector [2.5; 3.5]))))))).
Proof.
  do 3 eexists.
  eapply (interpolated_layout example_fit (nd_vector [2.5; 3.5]) example_cmfs
            (Some "Linear"%string) LinearInterpolator).
  - reflexivity.
  - discriminate.
  - intros H. apply Exists_exists in H as (w & Hw & Ho).
    apply list_elem_of_In in Hw. unfold outside_domain in Ho. simpl in Ho.
    destruct Hw as [<-|[<-|[]]]; lra.
  - vm_compute. reflexivity.
  - reflexivity.
  - reflexivity.
  - reflexivity.
  - reflexivity.
  - reflexivity.
  - reflexivity.
  - reflexivity.
  - reflexivity.
  - reflexivity.
  - reflexivity.
Defined.

Lemma weighting_table_conserves_sums_witness :
  exists W st',
    twf_table example_cmfs example_illuminant example_shape initial_caches
    = (Ret W, st') /\
    table_shape
      (Z.to_nat ((Z.of_nat (length (cmfs_data example_cmfs)) - 1) / 2 + 1)) 3 W /\
    forall c, (c < 3)%nat ->
      Qsum (column W c)
      == Qsum (products (spd_values example_illuminant)
                 (cmfs_values example_cmfs) c).
Proof.
  apply (weighting_table_conserves_sums example_cmfs example_illuminant
           example_shape initial_caches 2).
  - apply (reachable_ok shape_repr), reachable_initial.
  - reflexivity.
  - lia.
  - reflexivity.
  - intros _. simpl. lia.
Defined.

Lemma weighting_factors_white_point_witness :
  exists T,
    fst first_call = Ret T /\
    forall c, (c < 3)%nat ->
      exists q, xsum (xcolumn T c) = Some q /\
        q == 100 * Qsum (products (spd_values example_illuminant)
                           (cmfs_values example_cmfs) c)
             / Qsum (products (spd_values example_illuminant)
                       (cmfs_values example_cmfs) 1).
Proof.
  apply (weighting_factors_white_point shape_repr example_cmfs
           example_illuminant example_shape initial_caches 2).
  - apply reachable_initial.
  - split; reflexivity.
  - reflexivity.
  - reflexivity.
  - lia.
  - reflexivity.
  - intros _. simpl. lia.
  - intros H. vm_compute in H. discriminate H.
Defined.

Lemma weighting_factors_agree_with_integrator_witness :
  exists T XYZ,
    fst first_call = Ret T /\
    spectral_to_XYZ (ones_spd (cmfs_shape example_cmfs)) example_cmfs
      (Some example_illuminant) = Ret XYZ /\
    Forall2 xQeq (map (fun c => xsum (xcolumn T c)) [0; 1; 2]%nat) XYZ.
Proof.
  apply (weighting_factors_agree_with_integrator shape_repr example_cmfs
           example_illuminant example_shape initial_caches 2).
  - apply reachable_initial.
  - split; reflexivity.
  - reflexivity.
  - reflexivity.
  - lia.
  - reflexivity.
  - reflexivity.
  - reflexivity.
  - intros _. simpl. lia.
  - intros H. vm_compute in H. discriminate H.
Defined.

(** The example table, column by column: the sums are the tristimulus
    values [75, 100, 125] of the equal-energy illuminant on the example
    CMFS. *)
Example first_call_column_sums :
  Forall2 xQeq
    (map (fun c => xsum (xcolumn (returned [] (fst first_call)) c))
         [0; 1; 2]%nat)
    (map Some [75; 100; 125]).
Proof. vm_compute. repeat constructor. Qed.

(** After a Lagrange matrix has been cached a build gives what it gives in
    a fresh process. *)
Lemma fresh_build_ignores_cache_state_witness :
  fst (tristimulus_weighting_factors_ASTME202211 shape_repr
         example_cmfs example_illuminant example_shape
         (run_call shape_repr (CallLagrange 2 "inner") initial_caches))
  = fst first_call.
Proof.
  apply (fresh_build_ignores_cache_state shape_repr example_cmfs
           example_illuminant example_shape
           (run_call shape_repr (CallLagrange 2 "inner") initial_caches)
           initial_caches).
  - apply reachable_call, reachable_initial.
  - apply reachable_initial.
  - reflexivity.
  - reflexivity.
Defined.
